(** * The semantic validator of Swagger 2.0 documents (internal/validate/spec.go)

    A shallow embedding of the [SpecValidator] of go-swagger and the proofs of
    the properties its specification states about it.

    Go maps that the validator only ranges over ([Definitions], [Operations],
    [Properties], ...) are association lists in the order the [range] loop
    visits them: Go leaves that order unspecified, and a statement quantified
    over every list covers every order.  Maps the validator builds and looks
    up ([known], [knowns], [knownPaths], [ptypes]) are [gmap]s and [gset]s.
    A panic and an exhausted recursion budget are results of the type [Res]. *)

From Stdlib Require Import ZArith Ascii String.
From stdpp Require Import gmap strings list fin_maps.

Set Warnings "-register-all".
Open Scope string_scope.
Open Scope Z_scope.
Open Scope list_scope.
Open Scope stdpp_scope.

(** ** Errors and results *)

(** An argument handed to a format string. *)
Inductive Arg :=
| ArgString (s : string)
| ArgInt (n : Z)
| ArgStrings (l : list string)
| ArgSprintf (format : string) (args : list Arg).

(** A Go [error] value.  [Validation code format args] is what
    [errors.New(code, format, args...)] builds; its message is
    [fmt.Sprintf(format, args...)], kept here as the format and its arguments.
    [External msg] is an error value handed over by a collaborator (the JSON
    decoder, the reference resolver, the pointer lookup). *)
Inductive error :=
| Validation (code : Z) (format : string) (args : list Arg)
| External (msg : string).

Definition errors_New (code : Z) (format : string) (args : list Arg) : error :=
  Validation code format args.

(** Modelled from the spec: the Result aggregator (result.go is not part of the
    sources at hand).  "Append-only sink"; "merge(other) concatenates both
    sides"; "hasErrors() is true iff the error sequence is non-empty".  A
    [*Result] that may be [nil] is an [option Result]; merging [nil] changes
    nothing. *)
Record Result := mkResult { Errors : list error }.

Definition new_Result : Result := mkResult [].

Definition AddErrors (r : Result) (errs : list error) : Result :=
  mkResult (Errors r ++ errs).

Definition Merge (r : Result) (other : option Result) : Result :=
  match other with
  | None => r
  | Some o => AddErrors r (Errors o)
  end.

Definition HasErrors (r : Result) : bool :=
  negb (Nat.eqb (length (Errors r)) 0).

(** What a call can end in besides a value: [panic(err)], a nil pointer
    dereference, [regexp.MustCompile] on a malformed pattern. *)
Inductive panic :=
| PanicError (msg : string)
| NilDereference
| RegexpMustCompile (pattern : string).

(** The outcome of a call: a value, a panic, or the recursion budget of the
    model used up (the Go call would still be running). *)
Inductive Res (A : Type) :=
| Ok (a : A)
| Panicked (p : panic)
| OutOfFuel.
Arguments Ok {A} a.
Arguments Panicked {A} p.
Arguments OutOfFuel {A}.

#[export] Instance Res_ret : MRet Res := λ A a, Ok a.

#[export] Instance Res_bind : MBind Res := λ A B f m,
  match m with
  | Ok a => f a
  | Panicked p => Panicked p
  | OutOfFuel => OutOfFuel
  end.

(** ** The document *)

(** Modelled from the spec: [SchemaOrBool] ("additionalProperties (either
    false, true, or a Schema)") and [SchemaOrArray] ("items (either one Schema
    or an ordered sequence)"); [Len] counts the element schemas. *)
Record SchemaOrBool (S : Type) := mkSchemaOrBool {
  Allows : bool;
  sobSchema : option S
}.
Arguments mkSchemaOrBool {S}.
Arguments Allows {S}.
Arguments sobSchema {S}.

Record SchemaOrArray (S : Type) := mkSchemaOrArray {
  soaSchema : option S;
  soaSchemas : list S
}.
Arguments mkSchemaOrArray {S}.
Arguments soaSchema {S}.
Arguments soaSchemas {S}.

Definition Len {S : Type} (s : SchemaOrArray S) : nat :=
  match soaSchema s with
  | Some _ => 1%nat
  | None => length (soaSchemas s)
  end.

(** [spec.Schema], with the fields the validator reads.  [Ref = Some r] is a
    reference whose [GetURL()] is not nil and whose [String()] is [r]. *)
Inductive Schema := mkSchema {
  Ref : option string;
  Type_ : list string;
  Properties : list (string * Schema);
  PatternProperties : list (string * Schema);
  AdditionalProperties : option (SchemaOrBool Schema);
  Items : option (SchemaOrArray Schema);
  AdditionalItems : option (SchemaOrBool Schema);
  AllOf : list Schema;
  Required : list string
}.

(** [schema.Type.Contains(x)] *)
Definition Contains (tpe : list string) (x : string) : bool :=
  bool_decide (x ∈ tpe).

(** [spec.SimpleSchema], which [Parameter], [Header] and [Items] embed; an
    [Items] is read through its simple schema only. *)
Inductive SimpleSchema := mkSimpleSchema {
  ssType : string;
  ssFormat : string;
  ssItems : option SimpleSchema
}.

Record Header := mkHeader {
  hSimple : SimpleSchema
}.

Record Parameter_ := mkParameter {
  pRef : string;
  pName : string;
  pIn : string;
  pSchema : option Schema;
  pSimple : SimpleSchema
}.

Record Response := mkResponse {
  rHeaders : list (string * Header);
  rSchema : option Schema
}.

Record Responses := mkResponses {
  Default : option Response;
  StatusCodeResponses : list (Z * Response)
}.

Record Operation := mkOperation {
  ID : string;
  Parameters : list Parameter_;
  opResponses : option Responses
}.

Record Swagger := mkSwagger {
  Definitions : list (string * Schema)
}.

(** Modelled from the spec: the Document ("raw(), spec(), operations(),
    paramsFor(method, path), operationIDs()"); each field is what the method
    of that name returns. *)
Record Document := mkDocument {
  Raw : string;
  Spec : Swagger;
  Operations : list (string * list (string * Operation));
  ParamsFor : string → string → list Parameter_;
  OperationIDs : list string
}.

(** ** Duplicate operation ids *)

(** Go's [int] (64 bits): [known[v]++] wraps around. *)
Definition wrap_int (z : Z) : Z := (z + 2 ^ 63) `mod` 2 ^ 64 - 2 ^ 63.

Definition countOperationIDs (ids : list string) : gmap string Z :=
  foldl (λ (known : gmap string Z) v,
           if decide (v ≠ "")
           then <[v := wrap_int (default 0 (known !! v) + 1)]> known
           else known)
        ∅ ids.

Definition duplicateOperationID (k : string) (v : Z) : error :=
  errors_New 422 "%q is defined %d times" [ArgString k; ArgInt v].

Definition validateDuplicateOperationIDs (doc : Document) : Result :=
  let known := countOperationIDs (OperationIDs doc) in
  foldl (λ res kv,
           if decide (kv.2 > 1)
           then AddErrors res [duplicateOperationID kv.1 kv.2]
           else res)
        new_Result (map_to_list known).

(** ** Strings of the standard library of Go *)

(** [strings.Split(s, sep)] for a separator of one byte. *)
Fixpoint Split (s : string) (sep : ascii) : list string :=
  match s with
  | EmptyString => [EmptyString]
  | String c s' =>
      if decide (c = sep) then EmptyString :: Split s' sep
      else match Split s' sep with
           | [] => [String c EmptyString]
           | p :: ps => String c p :: ps
           end
  end.

(** [strings.Join(a, sep)] *)
Definition Join (a : list string) (sep : string) : string := String.concat sep a.

(** ** Path templates *)

(** [len(p) > 0 && p[0] == '{' && p[len(p)-1] == '}'] *)
Definition isPathParam (p : string) : bool :=
  bool_decide (0 < String.length p)%nat
  && bool_decide (String.get 0 p = Some "{"%char)
  && bool_decide (String.get (String.length p - 1) p = Some "}"%char).

Fixpoint parsePath_loop (i : nat) (ps : list string)
    (segments : list string) (params : list nat) : list string * list nat :=
  match ps with
  | [] => (segments, params)
  | p :: ps' =>
      let segments := segments ++ [p] in
      let params := if isPathParam p then params ++ [i] else params in
      parsePath_loop (S i) ps' segments params
  end.

Definition parsePath (path : string) : list string * list nat :=
  parsePath_loop 0 (Split path "/"%char) [] [].

(** The first loop of the body of [validateParameters]: the segments at the
    parameter positions are collected and overwritten with the sentinel.  The
    positions come from [parsePath], so [knowns[i]] is always in range (lemma
    [parsePath_params_lt]) and the default of [!!!] is never read. *)
Definition canonicalize (segments : list string) (params : list nat)
    : list string * list string :=
  foldl (λ '(fromPath, knowns) i, (fromPath ++ [knowns !!! i], <[i := "!"]> knowns))
        ([], segments) params.

Definition knownPath (path : string) : string :=
  let '(segments, params) := parsePath path in
  Join (canonicalize segments params).2 "/".

Definition fromPath (path : string) : list string :=
  let '(segments, params) := parsePath path in
  (canonicalize segments params).1.

(** The canonical path in the words of the specification: "replacing every
    parameter segment with a fixed sentinel (!) and rejoining with /". *)
Definition canonicalPath (path : string) : string :=
  Join (map (λ p, if isPathParam p then "!" else p) (Split path "/"%char)) "/".

Definition pathOverlaps (path orig : string) : error :=
  errors_New 422 "path %s overlaps with %s" [ArgString path; ArgString orig].

Definition noParameterDefinition (l : string) : error :=
  errors_New 422 "path param %q has no parameter definition" [ArgString l].

Definition notPresentInPath (p path : string) : error :=
  errors_New 422 "path param %q is not present in path %q" [ArgString p; ArgString path].

Definition validatePathParamPresence (path : string)
    (fromPath fromOperation : list string) : Result :=
  let res :=
    foldl (λ res l,
             let matched := existsb (λ r, bool_decide (l = "{" +:+ r +:+ "}")) fromOperation in
             if matched then res
             else mkResult (Errors res ++ [noParameterDefinition l]))
          new_Result fromPath in
  foldl (λ res p,
           let matched := existsb (λ r, bool_decide ("{" +:+ p +:+ "}" = r)) fromPath in
           if matched then res
           else AddErrors res [notPresentInPath p path])
        res fromOperation.

(** ** Parameters *)

Definition duplicateParameterName (name in_ opID : string) : error :=
  errors_New 422 "duplicate parameter name %q for %q in operation %q"
    [ArgString name; ArgString in_; ArgString opID].

Definition moreThanOneBodyParam (opID first dropped : string) : error :=
  errors_New 422 "operation %q has more than 1 body param (accepted: %q, dropped: %q)"
    [ArgString opID; ArgString first; ArgString dropped].

Section Parameters.

(** Modelled from the spec: the pointer lookup
    [pr.Ref.GetPointer().Get(sw)] followed by the type assertion
    [obj.(spec.Parameter)]; "returns the referenced node (variant known to
    caller by context) or a resolution error". *)
Variable PointerGet : string → Swagger → string + Parameter_.

(** The loop over [op.Parameters]: unique [(in, name)].  A reference that
    does not resolve adds the error (which is also logged) and leaves the
    loop ([break]). *)
Fixpoint validateParameters_unique (sw : Swagger) (opID : string)
    (prs : list Parameter_) (ptypes : gmap string (gset string)) (res : Result)
    : Result :=
  match prs with
  | [] => res
  | ppr :: prs' =>
      let resolved :=
        if decide (pRef ppr ≠ "") then PointerGet (pRef ppr) sw else inr ppr in
      match resolved with
      | inl err => AddErrors res [External err]
      | inr pr =>
          let pnames := default ∅ (ptypes !! pIn pr) in
          let res :=
            if decide (pName pr ∈ pnames)
            then AddErrors res [duplicateParameterName (pName pr) (pIn pr) opID]
            else res in
          let ptypes := <[pIn pr := {[pName pr]} ∪ pnames]> ptypes in
          validateParameters_unique sw opID prs' ptypes res
      end
  end.

(** The loop over [s.spec.ParamsFor(method, path)]: at most one body
    parameter, and the names of the path parameters. *)
Fixpoint validateParameters_body (sw : Swagger) (opID : string)
    (prs : list Parameter_) (firstBodyParam : string) (paramNames : list string)
    (res : Result) : list string * Result :=
  match prs with
  | [] => (paramNames, res)
  | ppr :: prs' =>
      let resolved :=
        if decide (pRef ppr ≠ "") then PointerGet (pRef ppr) sw else inr ppr in
      match resolved with
      | inl err => (paramNames, AddErrors res [External err])
      | inr pr =>
          let '(firstBodyParam, res) :=
            if decide (pIn pr = "body")
            then (pName pr,
                  if decide (firstBodyParam ≠ "")
                  then AddErrors res [moreThanOneBodyParam opID firstBodyParam (pName pr)]
                  else res)
            else (firstBodyParam, res) in
          let paramNames :=
            if decide (pIn pr = "path") then paramNames ++ [pName pr] else paramNames in
          validateParameters_body sw opID prs' firstBodyParam paramNames res
      end
  end.

(** The body of the loop over the paths of one method. *)
Definition validateParameters_path (doc : Document) (method path : string)
    (op : Operation) (knownPaths : gmap string string) (res : Result)
    : gmap string string * Result :=
  let '(segments, params) := parsePath path in
  let '(fromPath, knowns) := canonicalize segments params in
  let knownPath := Join knowns "/" in
  let '(knownPaths, res) :=
    match knownPaths !! knownPath with
    | Some orig => (knownPaths, AddErrors res [pathOverlaps path orig])
    | None => (<[knownPath := path]> knownPaths, res)
    end in
  let sw := Spec doc in
  let res := validateParameters_unique sw (ID op) (Parameters op) ∅ res in
  let '(paramNames, res) :=
    validateParameters_body sw (ID op) (ParamsFor doc method path) "" [] res in
  (knownPaths, Merge res (Some (validatePathParamPresence path fromPath paramNames))).

Definition validateParameters_method (doc : Document) (method : string)
    (pi : list (string * Operation)) (res : Result) : Result :=
  (foldl (λ '(knownPaths, res) '(path, op),
            validateParameters_path doc method path op knownPaths res)
         (∅, res) pi).2.

Definition validateParameters (doc : Document) : Result :=
  foldl (λ res '(method, pi), validateParameters_method doc method pi res)
        new_Result (Operations doc).

End Parameters.

(** ** Definitions: circular ancestry and duplicate property names *)

Record dupProp := mkDupProp {
  Name : string;
  Definition_ : string
}.

Definition circularAncestry (k : string) (ancs : list string) : error :=
  errors_New 422 "definition %q has circular ancestry: %v" [ArgString k; ArgStrings ancs].

Definition duplicateProperties (k : string) (pns : list string) : error :=
  errors_New 422 "definition %q contains duplicate properties: %v" [ArgString k; ArgStrings pns].

Section Definitions.

(** [spec.ResolveRef(root, &ref)], a collaborator: the schema the
    reference points to, or the message of a resolution error. *)
Variable ResolveRef : Swagger → string → string + Schema.

(** The loop over [schc.AllOf] in [validateCircularAncestry]; [rec] is the
    recursive call [s.validateCircularAncestry(schn, chld, knowns)]. *)
Fixpoint validateCircularAncestry_allOf
    (rec : Schema → gset string → Res (list string * gset string))
    (chlds : list Schema) (ancs : list string) (knowns : gset string)
    : Res (list string * gset string) :=
  match chlds with
  | [] => Ok (ancs, knowns)
  | chld :: chlds' =>
      '(found, knowns) ← rec chld knowns;
      let ancs := ancs ++ found in
      if decide (0 < length ancs)%nat then Ok (ancs, knowns)
      else validateCircularAncestry_allOf rec chlds' ancs knowns
  end.

(** [knowns] is the map the caller shares with the callee: it comes back
    with what the call added. *)
Fixpoint validateCircularAncestry (fuel : nat) (sw : Swagger) (nm : string)
    (sch : Schema) (knowns : gset string) : Res (list string * gset string) :=
  match fuel with
  | O => OutOfFuel
  | S fuel' =>
      '(schn, schc, knowns) ←
        match Ref sch with
        | Some ref =>
            match ResolveRef sw ref with
            | inl err => Panicked (PanicError err)
            | inr reso => Ok (ref, reso, {[ref]} ∪ knowns)
            end
        | None => Ok (nm, sch, knowns)
        end;
      let ancs := if decide (schn ∈ knowns) then [schn] else [] in
      if decide (0 < length ancs)%nat then Ok (ancs, knowns)
      else if decide (0 < length (AllOf schc))%nat then
        validateCircularAncestry_allOf
          (validateCircularAncestry fuel' sw schn) (AllOf schc) ancs knowns
      else Ok (ancs, knowns)
  end.

(** The loop over [schc.AllOf] in [validateSchemaPropertyNames]. *)
Fixpoint validateSchemaPropertyNames_allOf
    (rec : Schema → gset string → Res (list dupProp * gset string))
    (chlds : list Schema) (dups : list dupProp) (knowns : gset string)
    : Res (list dupProp * gset string) :=
  match chlds with
  | [] => Ok (dups, knowns)
  | chld :: chlds' =>
      '(found, knowns) ← rec chld knowns;
      validateSchemaPropertyNames_allOf rec chlds' (dups ++ found) knowns
  end.

(** The loop over [schc.Properties]. *)
Definition validateSchemaPropertyNames_properties (schn : string)
    (props : list (string * Schema)) (dups : list dupProp) (knowns : gset string)
    : list dupProp * gset string :=
  foldl (λ '(dups, knowns) kv,
           if decide (kv.1 ∈ knowns)
           then (dups ++ [mkDupProp kv.1 schn], knowns)
           else (dups, {[kv.1]} ∪ knowns))
        (dups, knowns) props.

Fixpoint validateSchemaPropertyNames (fuel : nat) (sw : Swagger) (nm : string)
    (sch : Schema) (knowns : gset string) : Res (list dupProp * gset string) :=
  match fuel with
  | O => OutOfFuel
  | S fuel' =>
      '(schn, schc) ←
        match Ref sch with
        | Some ref =>
            match ResolveRef sw ref with
            | inl err => Panicked (PanicError err)
            | inr reso => Ok (ref, reso)
            end
        | None => Ok (nm, sch)
        end;
      if decide (0 < length (AllOf schc))%nat then
        validateSchemaPropertyNames_allOf
          (validateSchemaPropertyNames fuel' sw schn) (AllOf schc) [] knowns
      else
        Ok (validateSchemaPropertyNames_properties schn (Properties schc) [] knowns)
  end.

(** The loop over the definitions in [validateDuplicatePropertyNames]. *)
Fixpoint validateDuplicatePropertyNames_loop (fuel : nat) (sw : Swagger)
    (defs : list (string * Schema)) (res : Result) : Res Result :=
  match defs with
  | [] => Ok res
  | (k, sch) :: defs' =>
      if decide (length (AllOf sch) = 0)%nat then
        validateDuplicatePropertyNames_loop fuel sw defs' res
      else
        let knownanc : gset string := {["#/definitions/" +:+ k]} in
        '(ancs, _) ← validateCircularAncestry fuel sw k sch knownanc;
        if decide (0 < length ancs)%nat then
          Ok (AddErrors res [circularAncestry k ancs])
        else
          '(dups, _) ← validateSchemaPropertyNames fuel sw k sch ∅;
          if decide (0 < length dups)%nat then
            let pns := map (λ v, Definition_ v +:+ "." +:+ Name v) dups in
            validateDuplicatePropertyNames_loop fuel sw defs'
              (AddErrors res [duplicateProperties k pns])
          else validateDuplicatePropertyNames_loop fuel sw defs' res
  end.

Definition validateDuplicatePropertyNames (fuel : nat) (doc : Document) : Res Result :=
  validateDuplicatePropertyNames_loop fuel (Spec doc) (Definitions (Spec doc)) new_Result.

End Definitions.

(** ** Definitions: required properties *)

Definition requiredNotDefined (pn d : string) : error :=
  errors_New 422 "%q is present in required but not defined as property in defintion %q"
    [ArgString pn; ArgString d].

Section Required.

(** The package [regexp] of Go: [Compile] (which [MustCompile] turns into a
    panic when it fails) and [MatchString]. *)
Variable Regexp : Type.
Variable regexp_Compile : string → option Regexp.
Variable MatchString : Regexp → string → bool.

(** The loop over [v.PatternProperties]: [true] stands for
    [continue REQUIRED]. *)
Fixpoint validateRequired_patterns (pps : list (string * Schema)) (pn : string)
    : Res bool :=
  match pps with
  | [] => Ok false
  | (pp, _) :: pps' =>
      match regexp_Compile pp with
      | None => Panicked (RegexpMustCompile pp)
      | Some re =>
          if MatchString re pn then Ok true
          else validateRequired_patterns pps' pn
      end
  end.

(** The body of the loop over [v.Required]. *)
Definition validateRequired_name (d : string) (v : Schema) (pn : string)
    (res : Result) : Res Result :=
  if decide (pn ∈ (Properties v).*1) then Ok res
  else
    matched ← validateRequired_patterns (PatternProperties v) pn;
    if (matched : bool) then Ok res
    else
      match AdditionalProperties v with
      | Some ap =>
          if Allows ap then Ok res
          else if decide (is_Some (sobSchema ap)) then Ok res
          else Ok (AddErrors res [requiredNotDefined pn d])
      | None => Ok (AddErrors res [requiredNotDefined pn d])
      end.

Fixpoint validateRequired_names (d : string) (v : Schema) (pns : list string)
    (res : Result) : Res Result :=
  match pns with
  | [] => Ok res
  | pn :: pns' =>
      res ← validateRequired_name d v pn res;
      validateRequired_names d v pns' res
  end.

Fixpoint validateRequiredDefinitions_loop (defs : list (string * Schema))
    (res : Result) : Res Result :=
  match defs with
  | [] => Ok res
  | (d, v) :: defs' =>
      res ← validateRequired_names d v (Required v) res;
      validateRequiredDefinitions_loop defs' res
  end.

Definition validateRequiredDefinitions (doc : Document) : Res Result :=
  validateRequiredDefinitions_loop (Definitions (Spec doc)) new_Result.

End Required.

(** ** Arrays without an element type *)

Definition withoutElementType (format : string) (what : Arg) (opID : string) : error :=
  errors_New 422 format [what; ArgString opID].

Definition paramWithoutItems (name opID : string) : error :=
  withoutElementType "param %q for %q is a collection without an element type"
    (ArgString name) opID.

Definition headerWithoutItems (hn opID : string) : error :=
  withoutElementType "header %q for %q is a collection without an element type"
    (ArgString hn) opID.

Definition schemaWithoutItems (prefix : Arg) (opID : string) : error :=
  withoutElementType "%s for %q is a collection without an element type" prefix opID.

(** [validateSchemaItems]; [None] is the [nil] error.  The loop over
    [schemas] runs over the one schema of [Items.Schema] when there is one,
    and over [Items.Schemas] otherwise. *)
Fixpoint validateSchemaItems (schema : Schema) (prefix : Arg) (opID : string)
    : option error :=
  if negb (Contains (Type_ schema) "array") then None
  else
    match Items schema with
    | None => Some (schemaWithoutItems prefix opID)
    | Some items =>
        if decide (Len items = 0)%nat then Some (schemaWithoutItems prefix opID)
        else
          match soaSchema items with
          | Some sch =>
              match validateSchemaItems sch prefix opID with
              | Some err => Some err
              | None => None
              end
          | None =>
              (fix loop (schemas : list Schema) : option error :=
                 match schemas with
                 | [] => None
                 | sch :: schemas' =>
                     match validateSchemaItems sch prefix opID with
                     | Some err => Some err
                     | None => loop schemas'
                     end
                 end) (soaSchemas items)
          end
    end.

Section Items.

(** [SimpleSchema.TypeName()], a collaborator: the name of the declared
    type of a simple schema. *)
Variable TypeName : SimpleSchema → string.

(** Modelled from the spec: [SimpleSchema.ItemsTypeName()], the type name of
    the element schema, empty when there is none ("the element schema
    exists and is non-empty"). *)
Definition ItemsTypeName (s : SimpleSchema) : string :=
  match ssItems s with
  | None => ""
  | Some items => TypeName items
  end.

(** The loop [for items.TypeName() == "array"]: [Ok true] when it adds the
    error and breaks, [Ok false] when it ends on a type that is no array. *)
Fixpoint validateItems_nested (items : SimpleSchema) : Res bool :=
  if decide (TypeName items = "array") then
    if decide (ItemsTypeName items = "") then Ok true
    else
      match ssItems items with
      | Some items' => validateItems_nested items'
      | None => Panicked NilDereference
      end
  else Ok false.

(** The body of the loop over the parameters of an operation. *)
Definition validateItems_param (opID : string) (param : Parameter_) (res : Result)
    : Res Result :=
  if decide (TypeName (pSimple param) = "array" ∧ ItemsTypeName (pSimple param) = "")
  then Ok (AddErrors res [paramWithoutItems (pName param) opID])
  else if decide (pIn param ≠ "body") then
    match ssItems (pSimple param) with
    | Some items =>
        broke ← validateItems_nested items;
        if (broke : bool) then Ok (AddErrors res [paramWithoutItems (pName param) opID])
        else Ok res
    | None => Ok res
    end
  else
    match pSchema param with
    | None => Panicked NilDereference
    | Some schema =>
        match validateSchemaItems schema
                (ArgSprintf "body param %q" [ArgString (pName param)]) opID with
        | Some err => Ok (AddErrors res [err])
        | None => Ok res
        end
    end.

Fixpoint validateItems_params (opID : string) (params : list Parameter_) (res : Result)
    : Res Result :=
  match params with
  | [] => Ok res
  | param :: params' =>
      res ← validateItems_param opID param res;
      validateItems_params opID params' res
  end.

(** [responses]: the default response, then the responses by status code. *)
Definition responsesOf (op : Operation) : list Response :=
  match opResponses op with
  | Some rs =>
      match Default rs with Some d => [d] | None => [] end
      ++ (StatusCodeResponses rs).*2
  | None => []
  end.

(** The body of the loop over [responses]. *)
Definition validateItems_response (opID : string) (resp : Response) (res : Result)
    : Result :=
  let res :=
    foldl (λ res '(hn, hv),
             if decide (TypeName (hSimple hv) = "array" ∧ ItemsTypeName (hSimple hv) = "")
             then AddErrors res [headerWithoutItems hn opID]
             else res)
          res (rHeaders resp) in
  match rSchema resp with
  | Some schema =>
      match validateSchemaItems schema (ArgString "response body") opID with
      | Some err => AddErrors res [err]
      | None => res
      end
  | None => res
  end.

(** The body of the loop over the paths of one method. *)
Definition validateItems_path (doc : Document) (method path : string) (op : Operation)
    (res : Result) : Res Result :=
  res ← validateItems_params (ID op) (ParamsFor doc method path) res;
  Ok (foldl (λ res resp, validateItems_response (ID op) resp res) res (responsesOf op)).

Fixpoint validateItems_paths (doc : Document) (method : string)
    (pi : list (string * Operation)) (res : Result) : Res Result :=
  match pi with
  | [] => Ok res
  | (path, op) :: pi' =>
      res ← validateItems_path doc method path op res;
      validateItems_paths doc method pi' res
  end.

Fixpoint validateItems_methods (doc : Document)
    (ops : list (string * list (string * Operation))) (res : Result) : Res Result :=
  match ops with
  | [] => Ok res
  | (method, pi) :: ops' =>
      res ← validateItems_paths doc method pi res;
      validateItems_methods doc ops' res
  end.

Definition validateItems (doc : Document) : Res Result :=
  validateItems_methods doc (Operations doc) new_Result.

End Items.

(** ** The driver *)

(** What [Validate] is handed as [data interface{}]: a [*spec.Document]
    (possibly [nil]) or a value of another type. *)
Inductive Data :=
| DocumentPtr (sd : option Document)
| OtherData.

(** Modelled from the spec: [sErr], the Result that holds one error. *)
Definition sErr (err : error) : Result := mkResult [err].

Section Validate.

Variable ResolveRef : Swagger → string → string + Schema.
Variable PointerGet : string → Swagger → string + Parameter_.
Variable Regexp : Type.
Variable regexp_Compile : string → option Regexp.
Variable MatchString : Regexp → string → bool.
Variable TypeName : SimpleSchema → string.

(** The collaborators of the first two phases: [json.Unmarshal] on the raw
    bytes, the schema validator built on the Swagger 2.0 meta-schema
    ([schv.Validate(obj)], a [*Result]), and [Document.Expanded()]. *)
Variable JSON : Type.
Variable json_Unmarshal : string → string + JSON.
Variable schv_Validate : JSON → option Result.
Variable Expanded : Document → string + Document.

(** The two checks of sample values run the generic schema, parameter,
    header and items validators, which are collaborators; they are taken
    whole. *)
Variable validateDefaultValueValidAgainstSchema : Document → Res Result.
Variable validateExamplesValidAgainstSchema : Document → Res Result.

(** The three hooks for warnings return [nil]. *)
Definition validateUniqueSecurityScopes (doc : Document) : option Result := None.
Definition validateUniqueScopesSecurityDefinitions (doc : Document) : option Result := None.
Definition validateReferenced (doc : Document) : option Result := None.

(** [s.expanded = exp] is stored and read by none of the checks. *)
Definition validateReferencesValid (doc : Document) : Result :=
  let res := new_Result in
  match Expanded doc with
  | inl err => AddErrors res [External err]
  | inr _ => res
  end.

Definition Validate (fuel : nat) (data : Data) : Res (Result * option Result) :=
  match data with
  | DocumentPtr (Some sd) =>
      let errs := new_Result in
      let warnings := new_Result in
      match json_Unmarshal (Raw sd) with
      | inl err => Ok (AddErrors errs [External err], Some warnings)
      | inr obj =>
          let errs := Merge errs (schv_Validate obj) in
          if HasErrors errs then Ok (errs, Some warnings)
          else
            let errs := Merge errs (Some (validateReferencesValid sd)) in
            if HasErrors errs then Ok (errs, Some warnings)
            else
              let errs := Merge errs (Some (validateDuplicateOperationIDs sd)) in
              r ← validateDuplicatePropertyNames ResolveRef fuel sd;
              let errs := Merge errs (Some r) in
              let errs := Merge errs (Some (validateParameters PointerGet sd)) in
              r ← validateItems TypeName sd;
              let errs := Merge errs (Some r) in
              r ← validateRequiredDefinitions Regexp regexp_Compile MatchString sd;
              let errs := Merge errs (Some r) in
              r ← validateDefaultValueValidAgainstSchema sd;
              let errs := Merge errs (Some r) in
              r ← validateExamplesValidAgainstSchema sd;
              let errs := Merge errs (Some r) in
              let warnings := Merge warnings (validateUniqueSecurityScopes sd) in
              let warnings := Merge warnings (validateUniqueScopesSecurityDefinitions sd) in
              let warnings := Merge warnings (validateReferenced sd) in
              Ok (errs, Some warnings)
      end
  | _ =>
      Ok (sErr (errors_New 500 "spec validator can only validate spec.Document objects" []),
          None)
  end.

End Validate.

(** * Definitions used to state the properties *)

(** ** Path templates *)

(** The positions of the parameter segments of [ps], counted from [i]. *)
Fixpoint paramPositions (i : nat) (ps : list string) : list nat :=
  match ps with
  | [] => []
  | p :: ps' => (if isPathParam p then [i] else []) ++ paramPositions (S i) ps'
  end.

(** The placeholders of a path template: its segments surrounded by braces. *)
Definition placeholders (path : string) : list string :=
  filter (λ p, isPathParam p = true) (Split path "/"%char).

(** The overlap diagnostics of the paths of one method, in the words of the
    specification: "map canonical-path → first path seen.  A clash emits
    path A overlaps with B". *)
Fixpoint overlapsFrom (seen : gmap string string) (paths : list string) : list error :=
  match paths with
  | [] => []
  | path :: paths' =>
      match seen !! canonicalPath path with
      | Some orig => pathOverlaps path orig :: overlapsFrom seen paths'
      | None => overlapsFrom (<[canonicalPath path := path]> seen) paths'
      end
  end.

(** The format of a diagnostic built by [errors.New]. *)
Definition formatOf (e : error) : option string :=
  match e with
  | Validation _ format _ => Some format
  | External _ => None
  end.

Definition isOverlap (e : error) : Prop :=
  formatOf e = Some "path %s overlaps with %s".

Definition isPresence (e : error) : Prop :=
  formatOf e = Some "path param %q has no parameter definition"
  ∨ formatOf e = Some "path param %q is not present in path %q".

#[export] Instance isOverlap_dec (e : error) : Decision (isOverlap e).
Proof. unfold isOverlap. apply _. Defined.

#[export] Instance isPresence_dec (e : error) : Decision (isPresence e).
Proof. unfold isPresence. apply _. Defined.

(** ** Parameters *)

(** A parameter as the loops of [validateParameters] read it: through its
    reference when it has one. *)
Definition resolveParameter (PointerGet : string → Swagger → string + Parameter_)
    (sw : Swagger) (ppr : Parameter_) : string + Parameter_ :=
  if decide (pRef ppr ≠ "") then PointerGet (pRef ppr) sw else inr ppr.

Definition resolves (PointerGet : string → Swagger → string + Parameter_)
    (sw : Swagger) (ppr : Parameter_) : Prop :=
  ∃ pr, resolveParameter PointerGet sw ppr = inr pr.

(** The names of the path parameters an operation declares: the parameters
    of [ParamsFor(method, path)] with [in == path]. *)
Definition declaredPathParams (PointerGet : string → Swagger → string + Parameter_)
    (doc : Document) (method path : string) : list string :=
  omap (λ ppr, match resolveParameter PointerGet (Spec doc) ppr with
               | inr pr => if decide (pIn pr = "path") then Some (pName pr) else None
               | inl _ => None
               end)
       (ParamsFor doc method path).

(** The parameters the second loop of [validateParameters] reads: those of
    the list before the first reference that does not resolve (the loop
    leaves at that reference), each through its reference when it has
    one. *)
Fixpoint readParameters (PointerGet : string → Swagger → string + Parameter_)
    (sw : Swagger) (prs : list Parameter_) : list Parameter_ :=
  match prs with
  | [] => []
  | ppr :: prs' =>
      match resolveParameter PointerGet sw ppr with
      | inr pr => pr :: readParameters PointerGet sw prs'
      | inl _ => []
      end
  end.

(** The names of the path parameters the loop reads: the parameters with
    [in == path] of [ParamsFor(method, path)] before the first reference
    that does not resolve. *)
Definition readPathParams (PointerGet : string → Swagger → string + Parameter_)
    (doc : Document) (method path : string) : list string :=
  pName <$> filter (λ pr, pIn pr = "path")
              (readParameters PointerGet (Spec doc) (ParamsFor doc method path)).

(** What the two loops over parameters add: errors of the resolver,
    duplicate names, a second body parameter. *)
Definition isParamError (e : error) : Prop :=
  formatOf e = None
  ∨ formatOf e = Some "duplicate parameter name %q for %q in operation %q"
  ∨ formatOf e = Some "operation %q has more than 1 body param (accepted: %q, dropped: %q)".

(** What the body of the loop over paths adds for one operation, the overlap
    diagnostic apart: the errors of the two loops over its parameters, then
    those of the presence check. *)
Definition operationErrors (PointerGet : string → Swagger → string + Parameter_)
    (doc : Document) (method path : string) (op : Operation) : list error :=
  let sw := Spec doc in
  let body :=
    validateParameters_body PointerGet sw (ID op) (ParamsFor doc method path) "" []
      new_Result in
  Errors (validateParameters_unique PointerGet sw (ID op) (Parameters op) ∅ new_Result)
  ++ Errors body.2
  ++ Errors (validatePathParamPresence path (placeholders path) body.1).

(** The overlap diagnostics of [validateParameters]. *)
Definition overlapDiagnostics (PointerGet : string → Swagger → string + Parameter_)
    (doc : Document) : list error :=
  filter isOverlap (Errors (validateParameters PointerGet doc)).

(** ** Definitions *)

Section FirstSome.
Context {A B : Type} (f : A → option B).

(** The first result of [f] along a list. *)
Fixpoint firstSome (l : list A) : option B :=
  match l with
  | [] => None
  | x :: l' =>
      match f x with
      | Some b => Some b
      | None => firstSome l'
      end
  end.
End FirstSome.

(** The first reference a depth-first walk of the [allOf] spine meets,
    descending through the schemas written in place. *)
Fixpoint firstRef (sch : Schema) : option string :=
  match Ref sch with
  | Some ref => Some ref
  | None => firstSome firstRef (AllOf sch)
  end.

(** The nesting depth of the [allOf] lists written in place. *)
Fixpoint allOfDepth (sch : Schema) : nat :=
  S (foldr (λ chld d, Nat.max (allOfDepth chld) d) 0%nat (AllOf sch)).

(** The references the walk meets from [sch] before it crosses one. *)
Fixpoint walkRefs (sch : Schema) : list string :=
  match Ref sch with
  | Some ref => [ref]
  | None => flat_map walkRefs (AllOf sch)
  end.

(** The [allOf]/[$ref] graph: there is an edge from [ref] to [ref'] when the
    schema [ref] resolves to reaches [ref'] through its [allOf] list. *)
Definition refEdge (ResolveRef : Swagger → string → string + Schema) (sw : Swagger)
    (ref' ref : string) : Prop :=
  ∃ reso, ResolveRef sw ref = inr reso ∧ ref' ∈ flat_map walkRefs (AllOf reso).

(** The graph below [sch] is acyclic: no infinite path of edges starts at a
    reference the walk meets. *)
Definition acyclicFrom (ResolveRef : Swagger → string → string + Schema) (sw : Swagger)
    (sch : Schema) : Prop :=
  ∀ ref, ref ∈ walkRefs sch → Acc (refEdge ResolveRef sw) ref.

(** The names ["<ref>.<propertyName>"] of a list of duplicates. *)
Definition dupNames (dups : list dupProp) : list string :=
  map (λ v, Definition_ v +:+ "." +:+ Name v) dups.

(** The duplicate-property diagnostics of a list of definitions, as the
    property-name walk finds them one definition at a time. *)
Definition duplicateDiagnostics (ResolveRef : Swagger → string → string + Schema)
    (fuel : nat) (sw : Swagger) (defs : list (string * Schema)) : list error :=
  omap (λ '(k, sch),
          if decide (length (AllOf sch) = 0)%nat then None
          else match validateSchemaPropertyNames ResolveRef fuel sw k sch ∅ with
               | Ok (dups, _) =>
                   if decide (0 < length dups)%nat
                   then Some (duplicateProperties k (dupNames dups))
                   else None
               | _ => None
               end)
       defs.

(** A definition the loop of [validateDuplicatePropertyNames] gets past: it
    has no [allOf], or the ancestry check finds nothing and the property-name
    walk returns. *)
Definition passes (ResolveRef : Swagger → string → string + Schema)
    (fuel : nat) (sw : Swagger) (def : string * Schema) : Prop :=
  length (AllOf def.2) = 0%nat
  ∨ (∃ knowns, validateCircularAncestry ResolveRef fuel sw def.1 def.2
                 {["#/definitions/" +:+ def.1]} = Ok ([], knowns))
    ∧ (∃ dups knowns, validateSchemaPropertyNames ResolveRef fuel sw def.1 def.2 ∅
                        = Ok (dups, knowns)).

(** What the ancestry walk returns at the first reference it meets. *)
Definition atFirstRef (ResolveRef : Swagger → string → string + Schema)
    (sw : Swagger) (knowns : gset string) (first : option string)
    : Res (list string * gset string) :=
  match first with
  | None => Ok ([], knowns)
  | Some ref =>
      match ResolveRef sw ref with
      | inl err => Panicked (PanicError err)
      | inr _ => Ok ([ref], {[ref]} ∪ knowns)
      end
  end.

(** The property-name walk returns from [sch] with any budget from [n] on. *)
Definition returnsFrom (ResolveRef : Swagger → string → string + Schema)
    (n : nat) (sw : Swagger) (sch : Schema) : Prop :=
  ∀ fuel, (n ≤ fuel)%nat →
    ∀ nm knowns,
      validateSchemaPropertyNames ResolveRef fuel sw nm sch knowns ≠ OutOfFuel.

(** ** Required properties *)

Section Declarable.

Variable Regexp : Type.
Variable regexp_Compile : string → option Regexp.
Variable MatchString : Regexp → string → bool.

(** A required name is declarable, in the words of the specification:
    "(a) present in properties, or (b) matches some patternProperties key
    interpreted as a regex, or (c) additionalProperties is allowed (either
    boolean-true form or schema form)". *)
Definition declarable (v : Schema) (pn : string) : Prop :=
  pn ∈ (Properties v).*1
  ∨ (∃ pp re, pp ∈ (PatternProperties v).*1
              ∧ regexp_Compile pp = Some re ∧ MatchString re pn = true)
  ∨ (∃ ap, AdditionalProperties v = Some ap
           ∧ (Allows ap = true ∨ is_Some (sobSchema ap))).

(** Every key of [patternProperties] is a regular expression. *)
Definition patternsCompile (v : Schema) : Prop :=
  Forall (λ pp, is_Some (regexp_Compile pp)) (PatternProperties v).*1.

End Declarable.

(** ** Arrays without an element type *)

(** The element schemas of [items]: the single schema, else the sequence. *)
Definition elementSchemas (items : SchemaOrArray Schema) : list Schema :=
  match soaSchema items with
  | Some sch => [sch]
  | None => soaSchemas items
  end.

(** An array schema without element schemas. *)
Definition arrayWithoutElement (sch : Schema) : Prop :=
  Contains (Type_ sch) "array" = true
  ∧ (Items sch = None ∨ ∃ items, Items sch = Some items ∧ Len items = 0%nat).

(** Along the chain of [items] starting at [sch], through arrays only, there
    is an array without element schemas. *)
Inductive lacksItems : Schema → Prop :=
| lacksItems_here (sch : Schema) :
    arrayWithoutElement sch → lacksItems sch
| lacksItems_below (sch : Schema) (items : SchemaOrArray Schema) (elem : Schema) :
    Contains (Type_ sch) "array" = true →
    Items sch = Some items → Len items ≠ 0%nat →
    elem ∈ elementSchemas items → lacksItems elem →
    lacksItems sch.

(** The schema graph of the specification (4.D): "recurses into properties,
    patternProperties, additionalProperties.schema, items.schema and
    items.schemas[*], additionalItems.schema, allOf[*]". *)
Inductive subschema (sch : Schema) : Schema → Prop :=
| sub_property k s : (k, s) ∈ Properties sch → subschema sch s
| sub_patternProperty k s : (k, s) ∈ PatternProperties sch → subschema sch s
| sub_additionalProperties ap s :
    AdditionalProperties sch = Some ap → sobSchema ap = Some s → subschema sch s
| sub_items items s :
    Items sch = Some items → soaSchema items = Some s → subschema sch s
| sub_itemsSchemas items s :
    Items sch = Some items → s ∈ soaSchemas items → subschema sch s
| sub_additionalItems ai s :
    AdditionalItems sch = Some ai → sobSchema ai = Some s → subschema sch s
| sub_allOf s : s ∈ AllOf sch → subschema sch s.

(** Somewhere in the schema graph below [sch] there is an array without
    element schemas. *)
Definition graphLacksItems (sch : Schema) : Prop :=
  ∃ s, rtc subschema sch s ∧ arrayWithoutElement s.

Section NestedItems.

Variable TypeName : SimpleSchema → string.

(** Along the nested [items] of a simple schema, through arrays only, there
    is an array whose items have no type name. *)
Inductive nestedLacks : SimpleSchema → Prop :=
| nestedLacks_here (items : SimpleSchema) :
    TypeName items = "array" → ItemsTypeName TypeName items = "" →
    nestedLacks items
| nestedLacks_below (items items' : SimpleSchema) :
    TypeName items = "array" → ItemsTypeName TypeName items ≠ "" →
    ssItems items = Some items' → nestedLacks items' →
    nestedLacks items.

End NestedItems.

(** The diagnostics of the headers of a response. *)
Definition headerDiagnostics (TypeName : SimpleSchema → string) (opID : string)
    (headers : list (string * Header)) : list error :=
  omap (λ '(hn, hv),
          if decide (TypeName (hSimple hv) = "array"
                     ∧ ItemsTypeName TypeName (hSimple hv) = "")
          then Some (headerWithoutItems hn opID)
          else None)
       headers.

(** ** The driver *)

(** The decoded document passes the meta-schema: the schema validator
    returns no error. *)
Definition conforms (JSON : Type) (schv_Validate : JSON → option Result) (obj : JSON) : Prop :=
  schv_Validate obj = None ∨ ∃ r, schv_Validate obj = Some r ∧ Errors r = [].

(** ** The ancestry walk of the specification *)

Section SpecAncestry.

Variable ResolveRef : Swagger → string → string + Schema.

Fixpoint specAncestryWalk_allOf
    (rec : Schema → gset string → Res (option string * gset string))
    (chlds : list Schema) (seen : gset string) : Res (option string * gset string) :=
  match chlds with
  | [] => Ok (None, seen)
  | chld :: chlds' =>
      '(revisited, seen) ← rec chld seen;
      match revisited with
      | Some ref => Ok (Some ref, seen)
      | None => specAncestryWalk_allOf rec chlds' seen
      end
  end.

(** The walk in the words of the specification: "maintaining a set of
    pointer strings seen so far [...].  Crossing a ref adds the pointer to
    the set; re-encountering a pointer already in the set is a cycle".  The
    result is the pointer met again, if any. *)
Fixpoint specAncestryWalk (fuel : nat) (sw : Swagger) (sch : Schema)
    (seen : gset string) : Res (option string * gset string) :=
  match fuel with
  | O => OutOfFuel
  | S fuel' =>
      match Ref sch with
      | Some ref =>
          if decide (ref ∈ seen) then Ok (Some ref, seen)
          else
            match ResolveRef sw ref with
            | inl err => Panicked (PanicError err)
            | inr reso =>
                specAncestryWalk_allOf (specAncestryWalk fuel' sw) (AllOf reso)
                  ({[ref]} ∪ seen)
            end
      | None => specAncestryWalk_allOf (specAncestryWalk fuel' sw) (AllOf sch) seen
      end
  end.

End SpecAncestry.

(** Every error of [res] is an error of [res']. *)
Definition within (res res' : Result) : Prop :=
  ∀ e, e ∈ Errors res → e ∈ Errors res'.

(** * Documents for the examples *)

Definition emptySchema : Schema := mkSchema None [] [] [] None None None [] [].

Definition refTo (ref : string) : Schema :=
  mkSchema (Some ref) [] [] [] None None None [] [].

Definition objectOf (props : list (string * Schema)) : Schema :=
  mkSchema None ["object"] props [] None None None [] [].

Definition allOfSchemas (chlds : list Schema) : Schema :=
  mkSchema None [] [] [] None None None chlds [].

Definition stringSchema : Schema := mkSchema None ["string"] [] [] None None None [] [].

Definition definitionsDoc (defs : list (string * Schema)) : Document :=
  mkDocument "{}" (mkSwagger defs) [] (λ _ _, []) [].

(** A resolver for the examples: [#/definitions/<name>] is the definition of
    that name. *)
Definition resolveDefinitions (sw : Swagger) (ref : string) : string + Schema :=
  match list_find (λ def : string * Schema, "#/definitions/" +:+ def.1 = ref)
          (Definitions sw) with
  | Some (_, (_, sch)) => inr sch
  | None => inl ("object has no key " +:+ ref)
  end.

(** A pointer lookup for the examples: the document declares no shared
    parameter. *)
Definition noSharedParameters (ref : string) (sw : Swagger) : string + Parameter_ :=
  inl ("object has no key " +:+ ref).

(** A type name for the examples: the type, or the format when there is
    one. *)
Definition typeOrFormat (s : SimpleSchema) : string :=
  if decide (ssFormat s = "") then ssType s else ssFormat s.

(** A regexp engine for the examples: it knows the patterns that are plain
    words, and ["("] is malformed. *)
Definition literal_Compile (pattern : string) : option string :=
  if decide (pattern = "(") then None else Some pattern.

Definition literal_MatchString (re s : string) : bool := bool_decide (re = s).

(** [Cat] inherits from [Pet] and adds a property: no cycle. *)
Definition petSchema : Schema := objectOf [("name", stringSchema)].
Definition catSchema : Schema :=
  allOfSchemas [refTo "#/definitions/Pet"; objectOf [("meow", stringSchema)]].
Definition petsDoc : Document := definitionsDoc [("Cat", catSchema); ("Pet", petSchema)].

(** [Node] inherits from itself. *)
Definition nodeSchema : Schema := allOfSchemas [refTo "#/definitions/Node"].
Definition nodeDoc : Document := definitionsDoc [("Node", nodeSchema)].

(** [A] inherits from a definition that does not exist. *)
Definition danglingSchema : Schema := allOfSchemas [refTo "#/definitions/Missing"].
Definition danglingDoc : Document := definitionsDoc [("A", danglingSchema)].

(** [A] and [B] inherit from each other. *)
Definition twoCyclesDoc : Document :=
  definitionsDoc [("A", allOfSchemas [refTo "#/definitions/B"]);
                  ("B", allOfSchemas [refTo "#/definitions/A"])].

(** Two definitions that each declare a property twice along [allOf]. *)
Definition twiceSchema (name : string) : Schema :=
  allOfSchemas [objectOf [(name, stringSchema)]; objectOf [(name, stringSchema)]].
Definition twoDuplicatesDoc : Document :=
  definitionsDoc [("A", twiceSchema "id"); ("B", twiceSchema "tag")].

Definition simple (tpe : string) : SimpleSchema := mkSimpleSchema tpe "" None.

Definition queryParam (name : string) : Parameter_ :=
  mkParameter "" name "query" None (simple "string").

Definition pathParam (name : string) : Parameter_ :=
  mkParameter "" name "path" None (simple "string").

Definition bodyParam (name : string) (schema : Schema) : Parameter_ :=
  mkParameter "" name "body" (Some schema) (simple "").

Definition sharedParam (ref : string) : Parameter_ :=
  mkParameter ref "" "" None (simple "").

(** One operation, with the same list for [op.Parameters] and
    [ParamsFor]. *)
Definition operationDoc (method path opID : string) (params : list Parameter_)
    (responses : option Responses) : Document :=
  mkDocument "{}" (mkSwagger [])
    [(method, [(path, mkOperation opID params responses)])]
    (λ _ _, params) [opID].

(** A shared parameter that does not exist, then the query parameter [id]
    twice. *)
Definition brokenRefDoc : Document :=
  operationDoc "get" "/pets" "listPets"
    [sharedParam "#/parameters/missing"; queryParam "id"; queryParam "id"] None.

(** A shared parameter that does not exist, then the path parameter [id],
    under the path [path]. *)
Definition brokenRefPathDoc (path : string) : Document :=
  operationDoc "get" path "getPet"
    [sharedParam "#/parameters/missing"; pathParam "id"] None.

(** S2: the path [/pets/{petId}] with a path parameter named [id]. *)
Definition petIdDoc : Document :=
  operationDoc "get" "/pets/{petId}" "getPet" [pathParam "id"] None.

(** A body parameter whose schema is an object with a property that is an
    array without items. *)
Definition tagsSchema : Schema := mkSchema None ["array"] [] [] None None None [] [].
Definition taggedSchema : Schema := objectOf [("tags", tagsSchema)].
Definition taggedDoc : Document :=
  operationDoc "post" "/pets" "addPet" [bodyParam "pet" taggedSchema] None.

(** S6: a query parameter of type array without items. *)
Definition arrayParamDoc : Document :=
  operationDoc "get" "/pets" "findPets"
    [mkParameter "" "tags" "query" None (simple "array")] None.

(** S5: [age] is required and declared nowhere. *)
Definition personSchema : Schema :=
  mkSchema None ["object"] [("name", stringSchema)] []
    (Some (mkSchemaOrBool false None)) None None [] ["age"].
Definition personDoc : Document := definitionsDoc [("Person", personSchema)].

(** A definition with a malformed pattern. *)
Definition malformedSchema : Schema :=
  mkSchema None ["object"] [] [("(", stringSchema)] None None None [] ["age"].
Definition malformedDoc : Document := definitionsDoc [("Thing", malformedSchema)].

(** S1: the operation id [getPet] twice. *)
Definition getPetTwiceDoc : Document :=
  mkDocument "{}" (mkSwagger []) [] (λ _ _, []) ["getPet"; "listPets"; "getPet"; ""; ""].

(** Collaborators of the driver for the examples: the decoder rejects the
    empty input, the meta-schema rejects the document whose raw bytes are
    [{}], the expansion succeeds, the sample checks find nothing. *)
Definition exampleUnmarshal (raw : string) : string + string :=
  if decide (raw = "") then inl "unexpected end of JSON input" else inr raw.

Definition missingSwagger : error :=
  errors_New 422 ".swagger in body is required" [].

Definition exampleMetaSchema (obj : string) : option Result :=
  if decide (obj = "{}") then Some (mkResult [missingSwagger]) else Some new_Result.

Definition exampleValidate (fuel : nat) (data : Data) : Res (Result * option Result) :=
  Validate resolveDefinitions noSharedParameters string literal_Compile literal_MatchString
    typeOrFormat string exampleUnmarshal exampleMetaSchema (λ doc, inr doc)
    (λ _, Ok new_Result) (λ _, Ok new_Result) fuel data.

(** * Definitions used to state further properties *)

(** ** Path templates *)

(** Two segments take the same place in the canonical path: both are
    written as the sentinel (a placeholder, or the literal segment [!]), or
    they are the same segment. *)
Definition sameSlot (x y : string) : Prop :=
  ((isPathParam x = true ∨ x = "!") ∧ (isPathParam y = true ∨ y = "!")) ∨ x = y.

(** The segment holds no [/]. *)
Definition slashFree (s : string) : Prop := ¬ ("/"%char ∈ list_ascii_of_string s).

(** ** Parameters *)

(** The parameters of a list as the loops of [validateParameters] read
    them: each one through its reference when it has one (the entries whose
    reference does not resolve are left out). *)
Definition resolvedParameters (PointerGet : string → Swagger → string + Parameter_)
    (sw : Swagger) (prs : list Parameter_) : list Parameter_ :=
  omap (λ ppr, match resolveParameter PointerGet sw ppr with
               | inr pr => Some pr
               | inl _ => None
               end)
       prs.

(** The occurrences in [l] of an element that is in [seen] or occurs
    earlier in [l], in the order of [l]. *)
Fixpoint repeated {A : Type} `{EqDecision A} (seen l : list A) : list A :=
  match l with
  | [] => []
  | x :: l' => (if decide (x ∈ seen) then [x] else []) ++ repeated (x :: seen) l'
  end.

(** ** Definitions *)

(** The property names the property-name walk reads below a schema whose
    [allOf] spine is written in place: those of the schemas without [allOf],
    depth first; the properties of a schema that has an [allOf] list are not
    read. *)
Fixpoint leafProperties (sch : Schema) : list string :=
  match AllOf sch with
  | [] => (Properties sch).*1
  | _ :: _ => flat_map leafProperties (AllOf sch)
  end.

(** The duplicate-property diagnostics of definitions whose [allOf] spines
    are written in place: one for each definition with a non-empty [allOf]
    in which a property name is read again, naming each repeated
    occurrence as ["<definition>.<property>"]. *)
Definition inlineDuplicates (defs : list (string * Schema)) : list error :=
  omap (λ '(k, sch),
          let reps := repeated [] (leafProperties sch) in
          if decide (length (AllOf sch) = 0 ∨ length reps = 0)%nat then None
          else Some (duplicateProperties k ((λ x, k +:+ "." +:+ x) <$> reps)))
       defs.

(** ** Required properties *)

(** Whether a required name is declarable, computed: it is a property, or
    a key of [patternProperties] compiles and matches it, or
    [additionalProperties] is the form [true] or holds a schema. *)
Definition declarableb (Regexp : Type) (regexp_Compile : string → option Regexp)
    (MatchString : Regexp → string → bool) (v : Schema) (pn : string) : bool :=
  bool_decide (pn ∈ (Properties v).*1)
  || existsb (λ pp, match regexp_Compile pp with
                    | Some re => MatchString re pn
                    | None => false
                    end)
             (PatternProperties v).*1
  || match AdditionalProperties v with
     | Some ap => Allows ap || bool_decide (is_Some (sobSchema ap))
     | None => false
     end.

(** A definition with a pattern that is a regular expression; of its
    required names, [name] is a property, [age] matches the pattern and
    [zip], listed twice, is declared nowhere. *)
Definition patternedSchema : Schema :=
  mkSchema None ["object"] [("name", stringSchema)] [("age", stringSchema)]
    (Some (mkSchemaOrBool false None)) None None [] ["name"; "age"; "zip"; "zip"].
Definition patternedDoc : Document := definitionsDoc [("Thing", patternedSchema)].

(** A definition with a malformed pattern whose required name is one of
    its properties. *)
Definition declaredSchema : Schema :=
  mkSchema None ["object"] [("age", stringSchema)] [("(", stringSchema)]
    None None None [] ["age"].
Definition declaredDoc : Document := definitionsDoc [("Thing", declaredSchema)].

(** ** Arrays without an element type *)

(** A body parameter without a schema that the first test of the loop over
    the parameters (type [array], no type of items) does not catch. *)
Definition bodyWithoutSchema (TypeName : SimpleSchema → string) (param : Parameter_)
    : Prop :=
  pIn param = "body" ∧ pSchema param = None
  ∧ ¬ (TypeName (pSimple param) = "array"
       ∧ ItemsTypeName TypeName (pSimple param) = "").

(** One operation whose body parameter has no schema. *)
Definition bodyWithoutSchemaDoc : Document :=
  operationDoc "post" "/pets" "addPet"
    [mkParameter "" "pet" "body" None (simple "")] None.

(** ** The driver *)

(** The definitions of [twoDuplicatesDoc] and the operation of
    [arrayParamDoc], in a document whose raw bytes pass the decoder and the
    meta-schema of the examples. *)
Definition severalFindingsDoc : Document :=
  mkDocument "{swagger: 2.0}" (Spec twoDuplicatesDoc) (Operations arrayParamDoc)
    (ParamsFor arrayParamDoc) ["findPets"; "findPets"].

(** * The check of the examples of responses *)

Section Examples.

(** [s.validateResponseExample(path, r)] follows the reference of the
    response and runs the generic schema validator on its example for
    [application/json]; the reference and the examples are not among the
    fields of [Response] above, and the check is taken whole, as a function
    of the path and the response. *)
Variable validateResponseExample : string → Response → Res Result.

(** The loop over [op.Responses.StatusCodeResponses]. *)
Fixpoint validateExamples_statusCodes (path : string) (rs : list (Z * Response))
    (res : Result) : Res Result :=
  match rs with
  | [] => Ok res
  | (_, r) :: rs' =>
      found ← validateResponseExample path r;
      validateExamples_statusCodes path rs' (Merge res (Some found))
  end.

(** The body of the loop over the paths of one method: [op.Responses] is
    dereferenced without a test for nil. *)
Definition validateExamples_path (path : string) (op : Operation) (res : Result)
    : Res Result :=
  match opResponses op with
  | None => Panicked NilDereference
  | Some responses =>
      res ← match Default responses with
            | Some dr =>
                found ← validateResponseExample path dr;
                Ok (Merge res (Some found))
            | None => Ok res
            end;
      validateExamples_statusCodes path (StatusCodeResponses responses) res
  end.

Fixpoint validateExamples_paths (pathItem : list (string * Operation)) (res : Result)
    : Res Result :=
  match pathItem with
  | [] => Ok res
  | (path, op) :: pathItem' =>
      res ← validateExamples_path path op res;
      validateExamples_paths pathItem' res
  end.

Fixpoint validateExamples_methods (ops : list (string * list (string * Operation)))
    (res : Result) : Res Result :=
  match ops with
  | [] => Ok res
  | (_, pathItem) :: ops' =>
      res ← validateExamples_paths pathItem res;
      validateExamples_methods ops' res
  end.

Definition validateExamplesValidAgainstSchema (doc : Document) : Res Result :=
  validateExamples_methods (Operations doc) new_Result.

End Examples.

(** One operation without responses, as [validateItems] accepts it. *)
Definition noResponsesDoc : Document :=
  operationDoc "get" "/pets" "listPets" [queryParam "limit"] None.

(** * Proofs *)

(** ** Duplicate operation ids *)






#[local] Instance duplicateOperationID_inj :
  Inj (=) (=) (λ kv : string * Z, duplicateOperationID kv.1 kv.2).
Proof. intros [k v] [k' v'] [=]. simpl in *. congruence. Qed.


(** ** Path templates: [parsePath] and the canonical path *)

Lemma parsePath_loop_spec (ps : list string) (i : nat) (segments : list string)
    (params : list nat) :
  parsePath_loop i ps segments params = (segments ++ ps, params ++ paramPositions i ps).
Proof.
  revert i segments params. induction ps as [|p ps IH]; intros i segments params; simpl.
  - by rewrite !app_nil_r.
  - rewrite IH. destruct (isPathParam p); simpl; by rewrite <- ?app_assoc.
Qed.

Lemma parsePath_spec (path : string) :
  parsePath path = (Split path "/"%char, paramPositions 0 (Split path "/"%char)).
Proof. unfold parsePath. by rewrite parsePath_loop_spec. Qed.

Lemma paramPositions_lt (ps : list string) (i j : nat) :
  j ∈ paramPositions i ps → (i ≤ j < i + length ps)%nat.
Proof.
  revert i. induction ps as [|p ps IH]; intros i; simpl.
  - by intros ?%elem_of_nil.
  - rewrite elem_of_app. intros [Hj|Hj].
    + destruct (isPathParam p); [|by apply elem_of_nil in Hj].
      apply list_elem_of_singleton in Hj. lia.
    + apply IH in Hj. lia.
Qed.

(** Every position [parsePath] returns is a position of [segments]. *)
Lemma parsePath_params_lt (path : string) (i : nat) :
  i ∈ (parsePath path).2 → (i < length (parsePath path).1)%nat.
Proof.
  rewrite parsePath_spec. simpl. intros Hi%paramPositions_lt. lia.
Qed.

Lemma canonicalize_spec (ps pre : list string) (fromPath : list string) :
  foldl (λ '(fromPath, knowns) i, (fromPath ++ [knowns !!! i], <[i := "!"]> knowns))
        (fromPath, pre ++ ps) (paramPositions (length pre) ps)
  = (fromPath ++ filter (λ p, isPathParam p = true) ps,
     pre ++ map (λ p, if isPathParam p then "!" else p) ps).
Proof.
  revert pre fromPath. induction ps as [|p ps IH]; intros pre fromPath; simpl.
  - by rewrite filter_nil, !app_nil_r.
  - rewrite filter_cons. destruct (decide (isPathParam p = true)) as [Hp|Hp].
    + rewrite Hp. simpl.
      rewrite list_lookup_total_middle by done.
      rewrite insert_app_r_alt, Nat.sub_diag by done. simpl.
      specialize (IH (pre ++ ["!"]) (fromPath ++ [p])).
      rewrite length_app in IH. simpl in IH. rewrite Nat.add_1_r in IH.
      rewrite <- !app_assoc in IH. simpl in IH. by rewrite IH.
    + apply not_true_is_false in Hp. rewrite Hp. simpl.
      specialize (IH (pre ++ [p]) fromPath).
      rewrite length_app in IH. simpl in IH. rewrite Nat.add_1_r in IH.
      rewrite <- !app_assoc in IH. simpl in IH. by rewrite IH.
Qed.

Lemma canonicalize_parsePath (path : string) :
  canonicalize (parsePath path).1 (parsePath path).2
  = (placeholders path,
     map (λ p, if isPathParam p then "!" else p) (Split path "/"%char)).
Proof.
  rewrite parsePath_spec. simpl. unfold canonicalize.
  apply (canonicalize_spec (Split path "/"%char) [] []).
Qed.

(** The path the code enters in [knownPaths] is the canonical path of the
    specification. *)
Lemma knownPath_canonicalPath (path : string) : knownPath path = canonicalPath path.
Proof.
  unfold knownPath, canonicalPath.
  pose proof (canonicalize_parsePath path) as H.
  destruct (parsePath path) as [segments params]. simpl in H. by rewrite H.
Qed.

Lemma fromPath_placeholders (path : string) : fromPath path = placeholders path.
Proof.
  unfold fromPath.
  pose proof (canonicalize_parsePath path) as H.
  destruct (parsePath path) as [segments params]. simpl in H. by rewrite H.
Qed.

(** *** Strings in braces *)

Lemma get_last_snoc (s : string) (c : ascii) :
  s ≠ "" → String.get (String.length s - 1) s = Some c →
  ∃ x, s = x +:+ String c "".
Proof.
  induction s as [|a s IH]; [done|]. intros _ Hget.
  destruct s as [|b s].
  - simpl in Hget. injection Hget as ->. by exists "".
  - replace (String.length (String a (String b s)) - 1)%nat
      with (S (String.length (String b s) - 1)) in Hget by (simpl; lia).
    change (String.get (String.length (String b s) - 1) (String b s) = Some c) in Hget.
    destruct (IH ltac:(done) Hget) as [x Hx].
    exists (String a x). by rewrite Hx.
Qed.

(** A parameter segment is a name in braces. *)
Lemma isPathParam_braces (p : string) :
  isPathParam p = true → ∃ x, p = "{" +:+ x +:+ "}".
Proof.
  unfold isPathParam. rewrite !andb_true_iff, !bool_decide_eq_true.
  intros [[Hlen Hfirst] Hlast].
  destruct p as [|a p]; [simpl in Hlen; lia|].
  simpl in Hfirst. injection Hfirst as ->.
  destruct p as [|b p].
  - simpl in Hlast. done.
  - replace (String.length (String "{" (String b p)) - 1)%nat
      with (S (String.length (String b p) - 1)) in Hlast by (simpl; lia).
    change (String.get (String.length (String b p) - 1) (String b p) = Some "}"%char) in Hlast.
    destruct (get_last_snoc (String b p) "}"%char ltac:(done) Hlast) as [x Hx].
    exists x. by rewrite Hx.
Qed.

Lemma append_snoc_inj (x y : string) (c : ascii) :
  x +:+ String c "" = y +:+ String c "" → x = y.
Proof.
  revert y. induction x as [|a x IH]; intros [|b y]; simpl; try done.
  - intros [= <- H]. by destruct y.
  - intros [= -> H]. by destruct x.
  - intros [= -> H]. f_equal. by apply IH.
Qed.

Lemma braces_inj (x y : string) : "{" +:+ x +:+ "}" = "{" +:+ y +:+ "}" → x = y.
Proof. simpl. intros [= H]. by apply append_snoc_inj in H. Qed.

(** ** Results are append-only *)

Lemma Result_eq (r1 r2 : Result) : Errors r1 = Errors r2 → r1 = r2.
Proof. destruct r1, r2. simpl. by intros ->. Qed.

Lemma AddErrors_nil (r : Result) : AddErrors r [] = r.
Proof. apply Result_eq. simpl. apply app_nil_r. Qed.

Lemma AddErrors_AddErrors (r : Result) (l1 l2 : list error) :
  AddErrors (AddErrors r l1) l2 = AddErrors r (l1 ++ l2).
Proof. apply Result_eq. simpl. by rewrite app_assoc. Qed.

Lemma AddErrors_new (l : list error) : Errors (AddErrors new_Result l) = l.
Proof. done. Qed.

(** ** The presence check of path parameters *)

Lemma validatePathParamPresence_errors (path : string) (fp fo : list string) :
  Errors (validatePathParamPresence path fp fo)
  = (noParameterDefinition
       <$> filter (λ l, existsb (λ r, bool_decide (l = "{" +:+ r +:+ "}")) fo = false) fp)
    ++ ((λ p, notPresentInPath p path)
          <$> filter (λ p, existsb (λ r, bool_decide ("{" +:+ p +:+ "}" = r)) fp = false) fo).
Proof.
  unfold validatePathParamPresence.
  assert (H1 : ∀ l res,
    Errors (foldl (λ res l,
             let matched := existsb (λ r, bool_decide (l = "{" +:+ r +:+ "}")) fo in
             if matched then res
             else mkResult (Errors res ++ [noParameterDefinition l])) res l)
    = Errors res ++ (noParameterDefinition
       <$> filter (λ l, existsb (λ r, bool_decide (l = "{" +:+ r +:+ "}")) fo = false) l)).
  { induction l as [|x l IH]; intros res; simpl.
    - by rewrite app_nil_r.
    - rewrite IH, filter_cons.
      destruct (existsb _ fo) eqn:He; simpl; [done|].
      by rewrite <- app_assoc. }
  assert (H2 : ∀ l res,
    Errors (foldl (λ res p,
             let matched := existsb (λ r, bool_decide ("{" +:+ p +:+ "}" = r)) fp in
             if matched then res
             else AddErrors res [notPresentInPath p path]) res l)
    = Errors res ++ ((λ p, notPresentInPath p path)
       <$> filter (λ p, existsb (λ r, bool_decide ("{" +:+ p +:+ "}" = r)) fp = false) l)).
  { induction l as [|x l IH]; intros res; simpl.
    - by rewrite app_nil_r.
    - rewrite IH, filter_cons.
      destruct (existsb _ fp) eqn:He; simpl; [done|].
      by rewrite <- app_assoc. }
  by rewrite H2, H1.
Qed.

Lemma existsb_false_iff {A} (f : A → bool) (l : list A) :
  existsb f l = false ↔ ∀ x, x ∈ l → f x = false.
Proof.
  induction l as [|a l IH]; simpl.
  - split; [intros _ x Hx; by apply elem_of_nil in Hx|done].
  - rewrite orb_false_iff, IH. split.
    + intros [Ha Hl] x [->|Hx]%elem_of_cons; auto.
    + intros H. split; [apply H; left|intros x Hx; apply H; by right].
Qed.

(** The diagnostics of the presence check, one by one. *)
Lemma validatePathParamPresence_elem_of (path : string) (fp fo : list string) (e : error) :
  e ∈ Errors (validatePathParamPresence path fp fo) ↔
  (∃ l, l ∈ fp ∧ (∀ r, r ∈ fo → l ≠ "{" +:+ r +:+ "}") ∧ e = noParameterDefinition l)
  ∨ (∃ p, p ∈ fo ∧ ¬ ("{" +:+ p +:+ "}" ∈ fp) ∧ e = notPresentInPath p path).
Proof.
  rewrite validatePathParamPresence_errors, elem_of_app, !list_elem_of_fmap.
  apply Morphisms_Prop.or_iff_morphism.
  - split.
    + intros (l & -> & Hl). apply list_elem_of_filter in Hl as [Hex Hl].
      exists l. split_and!; [done| |done].
      intros r Hr. rewrite existsb_false_iff in Hex.
      specialize (Hex r Hr). by apply bool_decide_eq_false in Hex.
    + intros (l & Hl & Hno & ->). exists l. split; [done|].
      apply list_elem_of_filter. split; [|done].
      apply existsb_false_iff. intros r Hr. apply bool_decide_eq_false. auto.
  - split.
    + intros (p & -> & Hp). apply list_elem_of_filter in Hp as [Hex Hp].
      exists p. split_and!; [done| |done].
      intros Hin. rewrite existsb_false_iff in Hex.
      specialize (Hex _ Hin). by apply bool_decide_eq_false in Hex.
    + intros (p & Hp & Hno & ->). exists p. split; [done|].
      apply list_elem_of_filter. split; [|done].
      apply existsb_false_iff. intros r Hr. apply bool_decide_eq_false.
      intros <-. done.
Qed.

Lemma validatePathParamPresence_formats (path : string) (fp fo : list string) :
  Forall isPresence (Errors (validatePathParamPresence path fp fo)).
Proof.
  apply Forall_forall. intros e He.
  apply validatePathParamPresence_elem_of in He as [(l & _ & _ & ->)|(p & _ & _ & ->)].
  - by left.
  - by right.
Qed.

(** ** The loops of [validateParameters] *)

Section ParametersProofs.

Variable PointerGet : string → Swagger → string + Parameter_.

Lemma validateParameters_unique_frame sw opID prs ptypes res :
  validateParameters_unique PointerGet sw opID prs ptypes res
  = AddErrors res (Errors (validateParameters_unique PointerGet sw opID prs ptypes new_Result)).
Proof.
  revert ptypes res. induction prs as [|ppr prs IH]; intros ptypes res; simpl.
  - by rewrite AddErrors_nil.
  - destruct (if decide (pRef ppr ≠ "") then _ else _) as [err|pr]; [done|].
    rewrite IH. symmetry. rewrite IH. symmetry.
    destruct (decide (pName pr ∈ _)); [|done].
    by rewrite AddErrors_AddErrors.
Qed.

Lemma validateParameters_unique_formats sw opID prs ptypes :
  Forall isParamError
    (Errors (validateParameters_unique PointerGet sw opID prs ptypes new_Result)).
Proof.
  revert ptypes. induction prs as [|ppr prs IH]; intros ptypes; simpl.
  - constructor.
  - destruct (if decide (pRef ppr ≠ "") then _ else _) as [err|pr].
    + repeat constructor.
    + destruct (decide (pName pr ∈ _)); [|apply IH].
      rewrite validateParameters_unique_frame. simpl.
      constructor; [right; by left|apply IH].
Qed.

Lemma validateParameters_body_frame sw opID prs first names res :
  validateParameters_body PointerGet sw opID prs first names res
  = ((validateParameters_body PointerGet sw opID prs first names new_Result).1,
     AddErrors res
       (Errors (validateParameters_body PointerGet sw opID prs first names new_Result).2)).
Proof.
  revert first names res. induction prs as [|ppr prs IH]; intros first names res; simpl.
  - by rewrite AddErrors_nil.
  - destruct (if decide (pRef ppr ≠ "") then _ else _) as [err|pr]; [done|].
    destruct (decide (pIn pr = "body")).
    + rewrite IH. symmetry. rewrite IH. symmetry. simpl.
      destruct (decide (first ≠ "")); [|done].
      by rewrite AddErrors_AddErrors.
    + apply IH.
Qed.

Lemma validateParameters_body_formats sw opID prs first names :
  Forall isParamError
    (Errors (validateParameters_body PointerGet sw opID prs first names new_Result).2).
Proof.
  revert first names. induction prs as [|ppr prs IH]; intros first names; simpl.
  - constructor.
  - destruct (if decide (pRef ppr ≠ "") then _ else _) as [err|pr].
    + repeat constructor.
    + destruct (decide (pIn pr = "body")); [|apply IH].
      destruct (decide (first ≠ "")); [|apply IH].
      rewrite validateParameters_body_frame. simpl.
      constructor; [right; by right|apply IH].
Qed.

(** When every reference resolves, the second loop collects the names of
    all the path parameters the operation declares. *)
Lemma validateParameters_body_names doc method path opID first names res :
  Forall (resolves PointerGet (Spec doc)) (ParamsFor doc method path) →
  (validateParameters_body PointerGet (Spec doc) opID
     (ParamsFor doc method path) first names res).1
  = names ++ declaredPathParams PointerGet doc method path.
Proof.
  unfold declaredPathParams.
  generalize (ParamsFor doc method path) as prs.
  intros prs. revert first names res.
  induction prs as [|ppr prs IH]; intros first names res Hres; simpl.
  - by rewrite app_nil_r.
  - apply Forall_cons in Hres as [[pr Hpr] Hres].
    unfold resolveParameter in *. rewrite Hpr.
    destruct (decide (pIn pr = "body")) as [Hb|Hb].
    + destruct (decide (pIn pr = "path")) as [Hp|Hp]; [congruence|].
      by apply IH.
    + destruct (decide (pIn pr = "path")) as [Hp|Hp].
      * rewrite IH by done. by rewrite <- app_assoc.
      * by apply IH.
Qed.

(** Without the hypothesis, it collects some of them. *)
Lemma validateParameters_body_names_incl doc method path opID first names res x :
  x ∈ (validateParameters_body PointerGet (Spec doc) opID
         (ParamsFor doc method path) first names res).1 →
  x ∈ names ∨ x ∈ declaredPathParams PointerGet doc method path.
Proof.
  unfold declaredPathParams.
  generalize (ParamsFor doc method path) as prs.
  intros prs. revert first names res.
  induction prs as [|ppr prs IH]; intros first names res; simpl.
  - by left.
  - unfold resolveParameter in *.
    destruct (if decide (pRef ppr ≠ "") then _ else _) as [err|pr]; simpl.
    + intros Hx. by left.
    + destruct (decide (pIn pr = "body")) as [Hb|Hb].
      * destruct (decide (pIn pr = "path")) as [Hp|Hp]; [congruence|]. apply IH.
      * destruct (decide (pIn pr = "path")) as [Hp|Hp]; [|apply IH].
        intros Hx. apply IH in Hx as [Hx|Hx]; [|right; by right].
        apply elem_of_app in Hx as [Hx|Hx]; [by left|].
        apply list_elem_of_singleton in Hx as ->. right. by left.
Qed.

(** Whatever the references do, the second loop collects the names of the
    path parameters it reads: those before the first reference that does not
    resolve. *)
Lemma validateParameters_body_read doc method path opID first names res :
  (validateParameters_body PointerGet (Spec doc) opID
     (ParamsFor doc method path) first names res).1
  = names ++ readPathParams PointerGet doc method path.
Proof.
  unfold readPathParams.
  generalize (ParamsFor doc method path) as prs.
  intros prs. revert first names res.
  induction prs as [|ppr prs IH]; intros first names res; simpl.
  - by rewrite app_nil_r.
  - unfold resolveParameter.
    destruct (if decide (pRef ppr ≠ "") then _ else _) as [err|pr]; simpl.
    + by rewrite app_nil_r.
    + rewrite filter_cons.
      destruct (decide (pIn pr = "body")) as [Hb|Hb];
        destruct (decide (pIn pr = "path")) as [Hp|Hp]; try congruence; try apply IH.
      rewrite IH. simpl. by rewrite <- app_assoc.
Qed.

Lemma readPathParams_declared doc method path :
  (∀ x, x ∈ readPathParams PointerGet doc method path →
        x ∈ declaredPathParams PointerGet doc method path)
  ∧ (Forall (resolves PointerGet (Spec doc)) (ParamsFor doc method path) →
     readPathParams PointerGet doc method path
     = declaredPathParams PointerGet doc method path).
Proof.
  split.
  - intros x Hx.
    pose proof (validateParameters_body_read doc method path "" "" [] new_Result) as Hr.
    destruct (validateParameters_body_names_incl doc method path "" "" [] new_Result x)
      as [Hnil|?]; [by rewrite Hr|by apply elem_of_nil in Hnil|done].
  - intros Hres.
    pose proof (validateParameters_body_read doc method path "" "" [] new_Result) as Hr.
    by rewrite validateParameters_body_names in Hr.
Qed.

End ParametersProofs.

Section ParametersStructure.

Variable PointerGet : string → Swagger → string + Parameter_.

Lemma validateParameters_path_spec doc method path op knownPaths res :
  validateParameters_path PointerGet doc method path op knownPaths res
  = (match knownPaths !! canonicalPath path with
     | Some _ => knownPaths
     | None => <[canonicalPath path := path]> knownPaths
     end,
     AddErrors res
       (match knownPaths !! canonicalPath path with
        | Some orig => [pathOverlaps path orig]
        | None => []
        end ++ operationErrors PointerGet doc method path op)).
Proof.
  unfold validateParameters_path, operationErrors.
  pose proof (canonicalize_parsePath path) as Hc.
  pose proof (knownPath_canonicalPath path) as Hk.
  unfold knownPath in Hk.
  destruct (parsePath path) as [segments params]. simpl in Hc, Hk.
  rewrite Hc in *. simpl in Hk. rewrite Hk.
  destruct (knownPaths !! canonicalPath path) as [orig|];
    rewrite validateParameters_body_frame;
    destruct (validateParameters_body PointerGet (Spec doc) (ID op) _ "" [] new_Result)
      as [names bres];
    simpl; f_equal; apply Result_eq; simpl;
    rewrite validateParameters_unique_frame; simpl; by rewrite <- !app_assoc.
Qed.

Lemma operationErrors_not_overlap doc method path op :
  Forall (λ e, ¬ isOverlap e) (operationErrors PointerGet doc method path op).
Proof.
  unfold operationErrors. rewrite !Forall_app. split_and!.
  - eapply Forall_impl; [apply validateParameters_unique_formats|].
    intros e [He|[He|He]] Ho; unfold isOverlap in Ho; congruence.
  - eapply Forall_impl; [apply validateParameters_body_formats|].
    intros e [He|[He|He]] Ho; unfold isOverlap in Ho; congruence.
  - eapply Forall_impl; [apply validatePathParamPresence_formats|].
    intros e [He|He] Ho; unfold isOverlap in Ho; congruence.
Qed.

Lemma filter_none {A} (P : A → Prop) `{∀ x, Decision (P x)} (l : list A) :
  Forall (λ x, ¬ P x) l → filter P l = [].
Proof.
  induction 1 as [|x l Hx _ IH]; [done|].
  by rewrite filter_cons, decide_False.
Qed.

(** The loop over the paths of one method, from any state. *)
Lemma validateParameters_paths_overlaps doc method pi knownPaths res :
  filter isOverlap
    (Errors (foldl (λ '(knownPaths, res) '(path, op),
                      validateParameters_path PointerGet doc method path op knownPaths res)
                   (knownPaths, res) pi).2)
  = filter isOverlap (Errors res) ++ overlapsFrom knownPaths pi.*1.
Proof.
  revert knownPaths res. induction pi as [|[path op] pi IH]; intros knownPaths res.
  - simpl. by rewrite app_nil_r.
  - simpl foldl. rewrite validateParameters_path_spec, IH. simpl.
    rewrite !filter_app.
    rewrite (filter_none isOverlap (operationErrors _ _ _ _ _))
      by apply operationErrors_not_overlap.
    rewrite app_nil_r, <- app_assoc. f_equal.
    destruct (knownPaths !! canonicalPath path) as [orig|]; [|done].
    rewrite filter_cons, decide_True by done. done.
Qed.

Lemma validateParameters_methods_overlaps doc ops res :
  filter isOverlap
    (Errors (foldl (λ res '(method, pi), validateParameters_method PointerGet doc method pi res)
                   res ops))
  = filter isOverlap (Errors res) ++ flat_map (λ mp, overlapsFrom ∅ mp.2.*1) ops.
Proof.
  revert res. induction ops as [|[method pi] ops IH]; intros res.
  - simpl. by rewrite app_nil_r.
  - simpl foldl. rewrite IH. unfold validateParameters_method.
    rewrite validateParameters_paths_overlaps. simpl. by rewrite <- app_assoc.
Qed.

(** The overlap diagnostics of [validateParameters] are those of the
    specification, method by method. *)
Lemma validateParameters_overlaps doc :
  filter isOverlap (Errors (validateParameters PointerGet doc))
  = flat_map (λ mp, overlapsFrom ∅ mp.2.*1) (Operations doc).
Proof. unfold validateParameters. by rewrite validateParameters_methods_overlaps. Qed.

End ParametersStructure.

Section ParametersClaims.

Variable PointerGet : string → Swagger → string + Parameter_.

(** C5.  Under one method, two path templates with the same canonical path
    give exactly one diagnostic ["path A overlaps with B"], whichever is
    visited first ([A] is the one visited second); two templates with
    different canonical paths give none; and the same canonical path under
    two methods gives none. *)
Theorem canonical_path_overlap (raw : string) (sw : Swagger)
    (paramsFor : string → string → list Parameter_) (ids : list string)
    (method method' a b : string) (opa opb : Operation) :
  let doc ops := mkDocument raw sw ops paramsFor ids in
  (canonicalPath a = canonicalPath b →
     overlapDiagnostics PointerGet (doc [(method, [(a, opa); (b, opb)])])
       = [errors_New 422 "path %s overlaps with %s" [ArgString b; ArgString a]]
     ∧ overlapDiagnostics PointerGet (doc [(method, [(b, opb); (a, opa)])])
       = [errors_New 422 "path %s overlaps with %s" [ArgString a; ArgString b]])
  ∧ (canonicalPath a ≠ canonicalPath b →
     overlapDiagnostics PointerGet (doc [(method, [(a, opa); (b, opb)])]) = [])
  ∧ overlapDiagnostics PointerGet (doc [(method, [(a, opa)]); (method', [(b, opb)])]) = [].
Proof.
  intros doc. unfold overlapDiagnostics. split_and!.
  - intros Hab. rewrite !validateParameters_overlaps. simpl.
    rewrite !lookup_empty. rewrite Hab, !lookup_insert_eq. done.
  - intros Hab. rewrite validateParameters_overlaps. simpl.
    rewrite lookup_empty, lookup_insert_ne by done. by rewrite lookup_empty.
  - rewrite validateParameters_overlaps. simpl. by rewrite !lookup_empty.
Qed.

(** The errors of every operation are errors of [validateParameters]. *)
Lemma validateParameters_paths_incl doc method pi knownPaths res path op e :
  (path, op) ∈ pi →
  e ∈ operationErrors PointerGet doc method path op →
  e ∈ Errors (foldl (λ '(knownPaths, res) '(path, op),
                       validateParameters_path PointerGet doc method path op knownPaths res)
                    (knownPaths, res) pi).2.
Proof.
  intros Hin He.
  assert (Hmono : ∀ pi knownPaths res,
    e ∈ Errors res →
    e ∈ Errors (foldl (λ '(knownPaths, res) '(path, op),
                       validateParameters_path PointerGet doc method path op knownPaths res)
                    (knownPaths, res) pi).2).
  { clear. induction pi as [|[p o] pi IH]; intros knownPaths res Hres; [done|].
    simpl foldl. rewrite validateParameters_path_spec. apply IH. simpl.
    apply elem_of_app. by left. }
  revert knownPaths res. induction pi as [|[p o] pi IH]; intros knownPaths res.
  - by apply elem_of_nil in Hin.
  - simpl foldl. rewrite validateParameters_path_spec.
    apply elem_of_cons in Hin as [[= <- <-]|Hin].
    + apply Hmono. simpl. rewrite !elem_of_app. right. by right.
    + by apply IH.
Qed.

Lemma validateParameters_incl doc method pi path op e :
  (method, pi) ∈ Operations doc → (path, op) ∈ pi →
  e ∈ operationErrors PointerGet doc method path op →
  e ∈ Errors (validateParameters PointerGet doc).
Proof.
  intros Hm Hp He. unfold validateParameters.
  assert (Hmono : ∀ ops res,
    e ∈ Errors res →
    e ∈ Errors (foldl (λ res '(method, pi),
                         validateParameters_method PointerGet doc method pi res) res ops)).
  { clear. induction ops as [|[m pi] ops IH]; intros res Hres; [done|].
    simpl foldl. apply IH. unfold validateParameters_method.
    generalize (∅ : gmap string string). revert res Hres.
    induction pi as [|[p o] pi IHpi]; intros res Hres kp; [done|].
    simpl foldl. rewrite validateParameters_path_spec. apply IHpi. simpl.
    apply elem_of_app. by left. }
  generalize new_Result.
  induction (Operations doc) as [|[m pi'] ops IH]; intros res.
  - by apply elem_of_nil in Hm.
  - simpl foldl. apply elem_of_cons in Hm as [[= <- <-]|Hm].
    + apply Hmono. unfold validateParameters_method.
      by eapply validateParameters_paths_incl.
    + by apply IH.
Qed.

Lemma operationErrors_presence doc method path op :
  filter isPresence (operationErrors PointerGet doc method path op)
  = Errors (validatePathParamPresence path (placeholders path)
              (validateParameters_body PointerGet (Spec doc) (ID op)
                 (ParamsFor doc method path) "" [] new_Result).1).
Proof.
  unfold operationErrors. rewrite !filter_app.
  rewrite (filter_none isPresence (Errors (validateParameters_unique _ _ _ _ _ _))).
  2:{ eapply Forall_impl; [apply validateParameters_unique_formats|].
      intros e [He|[He|He]] [Ho|Ho]; congruence. }
  rewrite (filter_none isPresence (Errors (validateParameters_body _ _ _ _ _ _ _).2)).
  2:{ eapply Forall_impl; [apply validateParameters_body_formats|].
      intros e [He|[He|He]] [Ho|Ho]; congruence. }
  simpl. induction (validatePathParamPresence_formats path (placeholders path)
    (validateParameters_body PointerGet (Spec doc) (ID op)
       (ParamsFor doc method path) "" [] new_Result).1) as [|e l He _ IH]; [done|].
  by rewrite filter_cons, decide_True, IH.
Qed.

(** C8.  For every operation, with the path parameters the loop over
    [ParamsFor(method, path)] reads, that is the parameters with
    [in == path] before the first reference that does not resolve: a
    placeholder [{x}] of the path template with no such parameter named [x]
    gives the error ["path param %q has no parameter definition"]; such a
    parameter whose name is no placeholder gives ["path param %q is not
    present in path %q"]; and when the placeholders and these names are the
    same set the body of the loop adds neither error for the operation.
    The parameters read are among the declared ones, and they are all of
    them when every reference resolves. *)
Theorem path_params_presence (doc : Document) (method path : string)
    (pi : list (string * Operation)) (op : Operation) :
  (method, pi) ∈ Operations doc → (path, op) ∈ pi →
  let declared := declaredPathParams PointerGet doc method path in
  let read := readPathParams PointerGet doc method path in
  let errs := Errors (validateParameters PointerGet doc) in
  (∀ x, "{" +:+ x +:+ "}" ∈ placeholders path → ¬ (x ∈ read) →
        errors_New 422 "path param %q has no parameter definition"
          [ArgString ("{" +:+ x +:+ "}")] ∈ errs)
  ∧ (∀ x, x ∈ read → ¬ ("{" +:+ x +:+ "}" ∈ placeholders path) →
          errors_New 422 "path param %q is not present in path %q"
            [ArgString x; ArgString path] ∈ errs)
  ∧ ((∀ x, "{" +:+ x +:+ "}" ∈ placeholders path ↔ x ∈ read) →
     ∀ knownPaths res,
       filter isPresence
         (Errors (validateParameters_path PointerGet doc method path op knownPaths res).2)
       = filter isPresence (Errors res))
  ∧ (∀ x, x ∈ read → x ∈ declared)
  ∧ (Forall (resolves PointerGet (Spec doc)) (ParamsFor doc method path) →
     read = declared).
Proof.
  intros Hm Hp declared read errs.
  set (names := (validateParameters_body PointerGet (Spec doc) (ID op)
                   (ParamsFor doc method path) "" [] new_Result).1).
  assert (Hnames : names = read).
  { unfold names. by rewrite validateParameters_body_read. }
  assert (Hsub : ∀ e, e ∈ Errors (validatePathParamPresence path (placeholders path) names)
                      → e ∈ errs).
  { intros e He. eapply validateParameters_incl; [done..|].
    unfold operationErrors. rewrite !elem_of_app. right. by right. }
  split_and!.
  - intros x Hx Hnd. apply Hsub, validatePathParamPresence_elem_of. left.
    exists ("{" +:+ x +:+ "}"). split_and!; [done| |done].
    intros r Hr Heq. apply braces_inj in Heq as <-. by rewrite Hnames in Hr.
  - intros x Hx Hnp. apply Hsub, validatePathParamPresence_elem_of. right.
    exists x. by rewrite Hnames.
  - intros Hsame knownPaths res. rewrite validateParameters_path_spec. simpl.
    rewrite !filter_app, operationErrors_presence. fold names.
    assert (filter isPresence
              match knownPaths !! canonicalPath path with
              | Some orig => [pathOverlaps path orig]
              | None => []
              end = []) as ->.
    { destruct (knownPaths !! canonicalPath path); [|done].
      rewrite filter_cons, decide_False; [done|]. intros [?|?]; done. }
    rewrite app_nil_l.
    enough (Errors (validatePathParamPresence path (placeholders path) names) = []) as ->
      by by rewrite app_nil_r.
    apply elem_of_nil_inv. intros e He.
    apply validatePathParamPresence_elem_of in He
      as [(l & Hl & Hno & _)|(p & Hp' & Hno & _)].
    + pose proof Hl as Hl'. apply list_elem_of_filter in Hl' as [Hpar _].
      apply isPathParam_braces in Hpar as [x ->].
      apply (Hno x); [|done]. rewrite Hnames. by apply Hsame.
    + apply Hno. apply Hsame. by rewrite <- Hnames.
  - apply readPathParams_declared.
  - apply readPathParams_declared.
Qed.

End ParametersClaims.

Section ParametersBreak.

Variable PointerGet : string → Swagger → string + Parameter_.

(** A reference that does not resolve ends the first loop over the
    parameters: its error is added and the parameters after it are not
    read. *)
Lemma validateParameters_unique_break sw opID pre ppr post ptypes res err :
  Forall (resolves PointerGet sw) pre →
  resolveParameter PointerGet sw ppr = inl err →
  validateParameters_unique PointerGet sw opID (pre ++ ppr :: post) ptypes res
  = AddErrors (validateParameters_unique PointerGet sw opID pre ptypes res) [External err].
Proof.
  intros Hpre Herr. revert ptypes res.
  induction Hpre as [|p pre [pr Hp] _ IH]; intros ptypes res; simpl.
  - unfold resolveParameter in Herr. by rewrite Herr.
  - unfold resolveParameter in Hp. rewrite Hp. apply IH.
Qed.

(** And the second loop likewise. *)
Lemma validateParameters_body_break sw opID pre ppr post first names res err :
  Forall (resolves PointerGet sw) pre →
  resolveParameter PointerGet sw ppr = inl err →
  validateParameters_body PointerGet sw opID (pre ++ ppr :: post) first names res
  = ((validateParameters_body PointerGet sw opID pre first names res).1,
     AddErrors (validateParameters_body PointerGet sw opID pre first names res).2
       [External err]).
Proof.
  intros Hpre Herr. revert first names res.
  induction Hpre as [|p pre [pr Hp] _ IH]; intros first names res; simpl.
  - unfold resolveParameter in Herr. by rewrite Herr.
  - unfold resolveParameter in Hp. rewrite Hp.
    destruct (decide (pIn pr = "body")); apply IH.
Qed.

End ParametersBreak.

(** ** The [allOf] spine *)

(** Induction over the schemas written in place along [allOf]. *)
Lemma Schema_allOf_ind (P : Schema → Prop) :
  (∀ sch, Forall P (AllOf sch) → P sch) → ∀ sch, P sch.
Proof.
  intros H. fix IH 1. intros sch. apply H.
  destruct sch as [ref tpe props pprops aprops items aitems allOf req]. simpl.
  induction allOf as [|chld allOf IHl]; constructor.
  - apply IH.
  - apply IHl.
Qed.

Lemma firstSome_None {A B} (f : A → option B) (l : list A) :
  firstSome f l = None ↔ Forall (λ x, f x = None) l.
Proof.
  induction l as [|x l IH]; simpl.
  - split; [constructor|done].
  - rewrite Forall_cons. destruct (f x) as [b|].
    + split; [done|]. by intros [? _].
    + rewrite IH. split; [by split|by intros [_ ?]].
Qed.

Lemma firstRef_unfold (sch : Schema) :
  firstRef sch
  = match Ref sch with
    | Some ref => Some ref
    | None => firstSome firstRef (AllOf sch)
    end.
Proof. by destruct sch. Qed.

Lemma allOfDepth_unfold (sch : Schema) :
  allOfDepth sch = S (foldr (λ chld d, Nat.max (allOfDepth chld) d) 0%nat (AllOf sch)).
Proof. by destruct sch. Qed.

Lemma walkRefs_unfold (sch : Schema) :
  walkRefs sch
  = match Ref sch with
    | Some ref => [ref]
    | None => flat_map walkRefs (AllOf sch)
    end.
Proof. by destruct sch. Qed.

Lemma allOfDepth_child (sch chld : Schema) :
  chld ∈ AllOf sch → (allOfDepth chld < allOfDepth sch)%nat.
Proof.
  destruct sch as [ref tpe props pprops aprops items aitems allOf req]. simpl.
  induction allOf as [|c allOf IH]; intros Hin; [by apply elem_of_nil in Hin|].
  apply elem_of_cons in Hin as [->|Hin]; simpl.
  - lia.
  - specialize (IH Hin). lia.
Qed.

Lemma definition_pointer_fresh (k : string) : k ≠ "#/definitions/" +:+ k.
Proof.
  intros H. apply (f_equal String.length) in H. simpl in H.
  change ("" +:+ k) with k in H. lia.
Qed.

Section DefinitionsProofs.

Variable ResolveRef : Swagger → string → string + Schema.

Abbreviation validateCircularAncestry := (validateCircularAncestry ResolveRef).
Abbreviation validateSchemaPropertyNames := (validateSchemaPropertyNames ResolveRef).
Abbreviation validateDuplicatePropertyNames_loop := (validateDuplicatePropertyNames_loop ResolveRef).
Abbreviation validateDuplicatePropertyNames := (validateDuplicatePropertyNames ResolveRef).

Abbreviation atFirstRef := (atFirstRef ResolveRef).

Lemma validateCircularAncestry_allOf_spec sw (rec : Schema → gset string → _)
    (chlds : list Schema) (knowns : gset string) :
  Forall (λ chld, rec chld knowns = atFirstRef sw knowns (firstRef chld)) chlds →
  validateCircularAncestry_allOf rec chlds [] knowns
  = atFirstRef sw knowns (firstSome firstRef chlds).
Proof.
  induction 1 as [|chld chlds Hc _ IH]; simpl; [done|].
  rewrite Hc. destruct (firstRef chld) as [ref|]; simpl.
  - destruct (ResolveRef sw ref); simpl; [done|]. done.
  - apply IH.
Qed.

(** The ancestry walk, in closed form: it goes down the schemas written in
    place and stops at the first reference, which it reports -- the
    reference enters [knowns] before [knowns] is looked up. *)
Lemma validateCircularAncestry_spec sw (sch : Schema) :
  ∀ fuel nm knowns,
    nm ∉ knowns → (allOfDepth sch ≤ fuel)%nat →
    validateCircularAncestry fuel sw nm sch knowns
    = atFirstRef sw knowns (firstRef sch).
Proof.
  induction sch as [sch IH] using Schema_allOf_ind.
  intros fuel nm knowns Hnm Hfuel.
  destruct fuel as [|fuel]; [rewrite allOfDepth_unfold in Hfuel; lia|].
  simpl. destruct (Ref sch) as [ref|] eqn:Href.
  - rewrite firstRef_unfold, Href.
    simpl. destruct (ResolveRef sw ref) as [err|reso]; simpl; [done|].
    destruct (decide (ref ∈ {[ref]} ∪ knowns)) as [_|Hn]; [done|set_solver].
  - rewrite firstRef_unfold, Href.
    simpl. destruct (decide (nm ∈ knowns)) as [?|_]; [done|]. simpl.
    destruct (decide (0 < length (AllOf sch))%nat) as [Hlen|Hlen].
    + apply validateCircularAncestry_allOf_spec.
      apply Forall_forall. intros chld Hin.
      rewrite Forall_forall in IH. apply IH; [done..|].
      apply allOfDepth_child in Hin. lia.
    + destruct (AllOf sch); [done|simpl in Hlen; lia].
Qed.

(** *** The property-name walk *)

Lemma validateSchemaPropertyNames_allOf_returns
    (rec : Schema → gset string → Res (list dupProp * gset string))
    (chlds : list Schema) :
  Forall (λ chld, ∀ knowns, rec chld knowns ≠ OutOfFuel) chlds →
  ∀ dups knowns, validateSchemaPropertyNames_allOf rec chlds dups knowns ≠ OutOfFuel.
Proof.
  induction 1 as [|chld chlds Hc _ IH]; intros dups knowns; simpl; [done|].
  specialize (Hc knowns). destruct (rec chld knowns) as [[found knowns']| |]; simpl.
  - apply IH.
  - done.
  - done.
Qed.

Lemma validateSchemaPropertyNames_allOf_Ok
    (rec : Schema → gset string → Res (list dupProp * gset string))
    (chlds : list Schema) :
  Forall (λ chld, ∀ knowns, ∃ r, rec chld knowns = Ok r) chlds →
  ∀ dups knowns, ∃ r, validateSchemaPropertyNames_allOf rec chlds dups knowns = Ok r.
Proof.
  induction 1 as [|chld chlds Hc _ IH]; intros dups knowns; simpl; [by eexists|].
  destruct (Hc knowns) as [[found knowns'] ->]. simpl. apply IH.
Qed.

(** On a schema whose [allOf] spine holds no reference the walk returns. *)
Lemma validateSchemaPropertyNames_no_ref sw (sch : Schema) :
  firstRef sch = None →
  ∀ fuel nm knowns,
    (allOfDepth sch ≤ fuel)%nat →
    ∃ r, validateSchemaPropertyNames fuel sw nm sch knowns = Ok r.
Proof.
  induction sch as [sch IH] using Schema_allOf_ind.
  intros Hfirst fuel nm knowns Hfuel.
  rewrite firstRef_unfold in Hfirst.
  destruct fuel as [|fuel]; [rewrite allOfDepth_unfold in Hfuel; lia|].
  simpl. destruct (Ref sch) as [ref|] eqn:Href; [done|]. simpl.
  destruct (decide (0 < length (AllOf sch))%nat); [|by eexists].
  apply validateSchemaPropertyNames_allOf_Ok.
  apply firstSome_None in Hfirst.
  rewrite Forall_forall in IH, Hfirst. apply Forall_forall. intros chld Hin knowns'.
  apply IH; [done|by apply Hfirst|].
  apply allOfDepth_child in Hin. lia.
Qed.

Abbreviation returnsFrom := (returnsFrom ResolveRef).

Lemma returnsFrom_mono n m sw sch :
  (n ≤ m)%nat → returnsFrom n sw sch → returnsFrom m sw sch.
Proof. intros Hnm H fuel Hfuel. apply H. lia. Qed.

Lemma returnsFrom_list sw (chlds : list Schema) :
  Forall (λ chld, ∃ n, returnsFrom n sw chld) chlds →
  ∃ n, Forall (returnsFrom n sw) chlds.
Proof.
  induction 1 as [|chld chlds [n Hn] _ [m Hm]]; [by exists 0%nat|].
  exists (n `max` m)%nat. constructor.
  - eapply returnsFrom_mono; [|done]. lia.
  - eapply Forall_impl; [done|]. intros c Hc. eapply returnsFrom_mono; [|done]. lia.
Qed.

(** The step of the walk past the reference (or not): it returns when the
    walk returns from every schema of the [allOf] list it goes through. *)
Lemma returnsFrom_step sw sch :
  (∀ ref reso, Ref sch = Some ref → ResolveRef sw ref = inr reso →
               ∃ n, Forall (returnsFrom n sw) (AllOf reso)) →
  (Ref sch = None → ∃ n, Forall (returnsFrom n sw) (AllOf sch)) →
  ∃ n, returnsFrom n sw sch.
Proof.
  intros Hsome Hnone.
  destruct (Ref sch) as [ref|] eqn:Href.
  - destruct (ResolveRef sw ref) as [err|reso] eqn:Hres.
    + exists 1%nat. intros [|fuel] Hfuel nm knowns; [lia|]. simpl.
      by rewrite Href, Hres.
    + destruct (Hsome ref reso eq_refl Hres) as [n Hn].
      exists (S n). intros [|fuel] Hfuel nm knowns; [lia|]. simpl.
      rewrite Href, Hres. simpl.
      destruct (decide (0 < length (AllOf reso))%nat); [|done].
      apply validateSchemaPropertyNames_allOf_returns.
      eapply Forall_impl; [done|]. intros c Hc knowns'. apply Hc. lia.
  - destruct (Hnone eq_refl) as [n Hn].
    exists (S n). intros [|fuel] Hfuel nm knowns; [lia|]. simpl.
    rewrite Href. simpl.
    destruct (decide (0 < length (AllOf sch))%nat); [|done].
    apply validateSchemaPropertyNames_allOf_returns.
    eapply Forall_impl; [done|]. intros c Hc knowns'. apply Hc. lia.
Qed.

(** From a schema written in place, down to the references. *)
Lemma returnsFrom_inline sw (sch : Schema) :
  (∀ ref, ref ∈ walkRefs sch →
          ∀ sch', Ref sch' = Some ref → ∃ n, returnsFrom n sw sch') →
  ∃ n, returnsFrom n sw sch.
Proof.
  induction sch as [sch IH] using Schema_allOf_ind. intros Hrefs.
  destruct (Ref sch) as [ref|] eqn:Href.
  - apply (Hrefs ref); [|done]. rewrite walkRefs_unfold, Href. by left.
  - apply returnsFrom_step; [congruence|]. intros _.
    apply returnsFrom_list. rewrite Forall_forall in IH.
    apply Forall_forall. intros chld Hin. apply IH; [done|].
    intros ref Hr. apply Hrefs. rewrite walkRefs_unfold, Href.
    apply list_elem_of_In, in_flat_map. exists chld.
    split; by apply list_elem_of_In.
Qed.

(** Across a reference from which no infinite path starts. *)
Lemma returnsFrom_ref sw (ref : string) :
  Acc (refEdge ResolveRef sw) ref →
  ∀ sch, Ref sch = Some ref → ∃ n, returnsFrom n sw sch.
Proof.
  induction 1 as [ref _ IH]. intros sch Href.
  apply returnsFrom_step; [|congruence].
  intros ref' reso Href' Hres. assert (ref' = ref) as -> by congruence.
  apply returnsFrom_list, Forall_forall. intros chld Hin.
  apply returnsFrom_inline. intros r Hr sch' Hsch'.
  apply (IH r); [|done]. exists reso. split; [done|].
  apply list_elem_of_In, in_flat_map. exists chld.
  split; by apply list_elem_of_In.
Qed.

Lemma validateSchemaPropertyNames_acyclic sw (sch : Schema) :
  acyclicFrom ResolveRef sw sch → ∃ n, returnsFrom n sw sch.
Proof.
  intros Hacc. apply returnsFrom_inline. intros ref Hr sch' Href.
  eapply returnsFrom_ref; [|done]. by apply Hacc.
Qed.

(** A reference whose schema refers back to it through its first [allOf]
    entry: the walk never returns. *)
Lemma validateSchemaPropertyNames_cycle sw (sch reso chld : Schema) ref rest :
  Ref sch = Some ref → ResolveRef sw ref = inr reso →
  AllOf reso = chld :: rest → Ref chld = Some ref →
  ∀ fuel nm knowns, validateSchemaPropertyNames fuel sw nm sch knowns = OutOfFuel.
Proof.
  intros Href Hres Hall Hchld fuel. revert sch Href.
  induction fuel as [|fuel IH]; intros sch Href nm knowns; [done|].
  simpl. rewrite Href, Hres. simpl. rewrite Hall. simpl.
  by rewrite (IH chld Hchld).
Qed.

Lemma validateSchemaPropertyNames_allOf_Ok_inv
    (rec : Schema → gset string → Res (list dupProp * gset string))
    (chlds : list Schema) (dups : list dupProp) (knowns : gset string) r :
  validateSchemaPropertyNames_allOf rec chlds dups knowns = Ok r →
  Forall (λ chld, ∃ knowns' r', rec chld knowns' = Ok r') chlds.
Proof.
  revert dups knowns. induction chlds as [|chld chlds IH]; intros dups knowns; simpl.
  - constructor.
  - destruct (rec chld knowns) as [[found knowns']| |] eqn:Hc; simpl; [|done..].
    intros H. constructor; [by eauto|by eapply IH].
Qed.

(** Conversely, where the walk returns a value the graph below the schema
    is acyclic. *)
Lemma validateSchemaPropertyNames_Ok_acyclic sw fuel :
  ∀ nm sch knowns r,
    validateSchemaPropertyNames fuel sw nm sch knowns = Ok r →
    acyclicFrom ResolveRef sw sch.
Proof.
  induction fuel as [|fuel IH]; intros nm sch knowns r H; [done|].
  simpl in H.
  assert (Hchildren : ∀ schn schc,
    (if decide (0 < length (AllOf schc))%nat
     then validateSchemaPropertyNames_allOf
            (validateSchemaPropertyNames fuel sw schn) (AllOf schc) [] knowns
     else Ok (validateSchemaPropertyNames_properties schn (Properties schc) [] knowns))
    = Ok r →
    ∀ ref, ref ∈ flat_map walkRefs (AllOf schc) → Acc (refEdge ResolveRef sw) ref).
  { intros schn schc Hloop ref Hin.
    apply list_elem_of_In, in_flat_map in Hin as (chld & Hchld & Hin).
    apply list_elem_of_In in Hchld, Hin.
    destruct (decide (0 < length (AllOf schc))%nat) as [_|Hlen].
    - apply validateSchemaPropertyNames_allOf_Ok_inv in Hloop.
      rewrite Forall_forall in Hloop.
      destruct (Hloop chld Hchld) as (knowns' & r' & Hr').
      by eapply IH.
    - destruct (AllOf schc); [by apply elem_of_nil in Hchld|simpl in Hlen; lia]. }
  intros ref Href. rewrite walkRefs_unfold in Href.
  destruct (Ref sch) as [ref0|] eqn:Hsch.
  - apply list_elem_of_singleton in Href as ->.
    destruct (ResolveRef sw ref0) as [err|reso] eqn:Hres; simpl in H; [done|].
    constructor. intros ref' (reso' & Hres' & Hin).
    assert (reso' = reso) as -> by congruence.
    by eapply Hchildren.
  - simpl in H. by eapply Hchildren.
Qed.

(** *** The loop over the definitions *)

(** A definition with no [allOf] is skipped. *)
Lemma validateDuplicatePropertyNames_loop_skip fuel sw k sch defs res :
  length (AllOf sch) = 0%nat →
  validateDuplicatePropertyNames_loop fuel sw ((k, sch) :: defs) res
  = validateDuplicatePropertyNames_loop fuel sw defs res.
Proof. intros H. simpl. by rewrite decide_True. Qed.

(** The loop returns at the first definition the ancestry check reports:
    the property-name walk is not run, the later definitions are not
    visited. *)
Lemma validateDuplicatePropertyNames_loop_circular fuel sw k sch defs res ancs knowns :
  length (AllOf sch) ≠ 0%nat →
  validateCircularAncestry fuel sw k sch {["#/definitions/" +:+ k]} = Ok (ancs, knowns) →
  (0 < length ancs)%nat →
  validateDuplicatePropertyNames_loop fuel sw ((k, sch) :: defs) res
  = Ok (AddErrors res [circularAncestry k ancs]).
Proof.
  intros Hall Hanc Hlen. simpl. rewrite decide_False by done.
  rewrite Hanc. simpl. by rewrite decide_True.
Qed.

(** Past a definition the ancestry check lets through, the loop goes on
    with the duplicates of that definition recorded. *)
Lemma validateDuplicatePropertyNames_loop_passes fuel sw def defs res :
  passes ResolveRef fuel sw def →
  validateDuplicatePropertyNames_loop fuel sw (def :: defs) res
  = validateDuplicatePropertyNames_loop fuel sw defs
      (AddErrors res (duplicateDiagnostics ResolveRef fuel sw [def])).
Proof.
  destruct def as [k sch]. intros [Hskip|[[knowns Hanc] (dups & knowns' & Hdups)]]; simpl in *.
  - rewrite !decide_True by done. by rewrite AddErrors_nil.
  - destruct (decide (length (AllOf sch) = 0)%nat); [by rewrite AddErrors_nil|].
    rewrite Hanc, Hdups. simpl.
    destruct (decide (0 < length dups)%nat); [done|]. by rewrite AddErrors_nil.
Qed.

Lemma duplicateDiagnostics_app fuel sw defs1 defs2 :
  duplicateDiagnostics ResolveRef fuel sw (defs1 ++ defs2)
  = duplicateDiagnostics ResolveRef fuel sw defs1
    ++ duplicateDiagnostics ResolveRef fuel sw defs2.
Proof. unfold duplicateDiagnostics. apply omap_app. Qed.

Lemma validateDuplicatePropertyNames_loop_prefix fuel sw pre defs res :
  Forall (passes ResolveRef fuel sw) pre →
  validateDuplicatePropertyNames_loop fuel sw (pre ++ defs) res
  = validateDuplicatePropertyNames_loop fuel sw defs
      (AddErrors res (duplicateDiagnostics ResolveRef fuel sw pre)).
Proof.
  intros Hpre. revert res. induction Hpre as [|def pre Hdef _ IH]; intros res.
  - simpl. by rewrite AddErrors_nil.
  - change ((def :: pre) ++ defs) with (def :: (pre ++ defs)).
    rewrite validateDuplicatePropertyNames_loop_passes by done.
    rewrite IH, AddErrors_AddErrors.
    by rewrite <- duplicateDiagnostics_app.
Qed.

(** The loop over the definitions always returns, one way or another: the
    ancestry check answers on every schema, and where it finds nothing the
    spine holds no reference for the property-name walk to follow. *)
Lemma validateDuplicatePropertyNames_loop_returns sw defs :
  ∃ n, ∀ fuel, (n ≤ fuel)%nat →
    ∀ res, validateDuplicatePropertyNames_loop fuel sw defs res ≠ OutOfFuel.
Proof.
  induction defs as [|[k sch] defs [n IH]].
  - by exists 0%nat.
  - exists (allOfDepth sch `max` n)%nat. intros fuel Hfuel res. simpl.
    destruct (decide (length (AllOf sch) = 0)%nat); [apply IH; lia|].
    rewrite validateCircularAncestry_spec;
      [|rewrite elem_of_singleton; apply definition_pointer_fresh|lia].
    destruct (firstRef sch) as [ref|] eqn:Hfirst; simpl.
    + destruct (ResolveRef sw ref); simpl; [done|done].
    + destruct (validateSchemaPropertyNames_no_ref sw sch Hfirst fuel k ∅)
        as [[dups knowns] ->]; [lia|]. simpl.
      destruct (decide (0 < length dups)%nat); apply IH; lia.
Qed.

(** Where the ancestry check finds nothing, the graph below the definition
    is acyclic. *)
Lemma validateCircularAncestry_nothing_acyclic sw fuel k sch knowns :
  (allOfDepth sch ≤ fuel)%nat →
  validateCircularAncestry fuel sw k sch {["#/definitions/" +:+ k]} = Ok ([], knowns) →
  acyclicFrom ResolveRef sw sch.
Proof.
  intros Hfuel. rewrite validateCircularAncestry_spec;
    [|rewrite elem_of_singleton; apply definition_pointer_fresh|done].
  intros Hnone ref Href. exfalso.
  assert (Hfirst : firstRef sch = None).
  { destruct (firstRef sch) as [r|]; [|done]. simpl in Hnone.
    destruct (ResolveRef sw r); done. }
  clear Hnone Hfuel. revert ref Href Hfirst.
  induction sch as [sch IH] using Schema_allOf_ind. intros ref Href Hfirst.
  rewrite walkRefs_unfold in Href. rewrite firstRef_unfold in Hfirst.
  destruct (Ref sch); [done|].
  apply firstSome_None in Hfirst. rewrite Forall_forall in IH, Hfirst.
  apply list_elem_of_In, in_flat_map in Href as (chld & Hin & Href).
  apply list_elem_of_In in Hin, Href. eauto.
Qed.

(** A definition whose spine holds no reference gets past the ancestry
    check and the walk. *)
Lemma passes_no_ref fuel sw (def : string * Schema) :
  firstRef def.2 = None → (allOfDepth def.2 ≤ fuel)%nat →
  passes ResolveRef fuel sw def.
Proof.
  destruct def as [k sch]. simpl. intros Hfirst Hfuel. right. simpl. split.
  - exists {["#/definitions/" +:+ k]}.
    rewrite validateCircularAncestry_spec;
      [|rewrite elem_of_singleton; apply definition_pointer_fresh|done].
    by rewrite Hfirst.
  - destruct (validateSchemaPropertyNames_no_ref sw sch Hfirst fuel k ∅)
      as [[dups knowns] Hd]; [done|]. by exists dups, knowns.
Qed.

(** The walks panic at a reference that does not resolve. *)
Lemma unresolved_ref_panic fuel sw nm sch knowns ref err :
  Ref sch = Some ref → ResolveRef sw ref = inl err →
  validateCircularAncestry (S fuel) sw nm sch knowns = Panicked (PanicError err)
  ∧ validateSchemaPropertyNames (S fuel) sw nm sch knowns = Panicked (PanicError err).
Proof. intros Href Hres. simpl. by rewrite Href, Hres. Qed.

(** The loop over the definitions panics at the first definition whose
    ancestry walk meets a reference that does not resolve. *)
Lemma validateDuplicatePropertyNames_loop_panic sw pre k sch post ref err :
  Forall (λ def : string * Schema, firstRef def.2 = None) pre →
  length (AllOf sch) ≠ 0%nat →
  firstRef sch = Some ref → ResolveRef sw ref = inl err →
  ∃ n, ∀ fuel, (n ≤ fuel)%nat →
    ∀ res, validateDuplicatePropertyNames_loop fuel sw (pre ++ (k, sch) :: post) res
           = Panicked (PanicError err).
Proof.
  intros Hpre Hall Hfirst Hres.
  exists (allOfDepth sch `max` foldr (λ def d, allOfDepth def.2 `max` d) 0 pre)%nat.
  intros fuel Hfuel res.
  rewrite validateDuplicatePropertyNames_loop_prefix.
  - simpl. rewrite decide_False by done.
    rewrite validateCircularAncestry_spec;
      [|rewrite elem_of_singleton; apply definition_pointer_fresh|lia].
    rewrite Hfirst. simpl. by rewrite Hres.
  - assert (Hd : (foldr (λ def d, allOfDepth def.2 `max` d) 0 pre ≤ fuel)%nat) by lia.
    clear Hfuel. induction Hpre as [|def pre Hdef _ IH]; constructor.
    + apply passes_no_ref; [done|]. simpl in Hd. lia.
    + apply IH. simpl in Hd. lia.
Qed.

(** C10.  [validateSchemaPropertyNames] returns on every schema below which
    the [allOf]/[$ref] graph is acyclic; it never returns on a reference
    whose schema refers back to it, and wherever it returns a value the
    graph below is acyclic; [validateDuplicatePropertyNames] runs
    the ancestry check first, returns without running the walk when the
    check reports a definition, runs the walk only below definitions where
    the graph is acyclic, and so always returns. *)
Theorem validateSchemaPropertyNames_termination (sw : Swagger) :
  (∀ sch, acyclicFrom ResolveRef sw sch →
     ∃ n, ∀ fuel, (n ≤ fuel)%nat →
       ∀ nm knowns, validateSchemaPropertyNames fuel sw nm sch knowns ≠ OutOfFuel)
  ∧ (∀ sch reso chld ref rest,
       Ref sch = Some ref → ResolveRef sw ref = inr reso →
       AllOf reso = chld :: rest → Ref chld = Some ref →
       ∀ fuel nm knowns, validateSchemaPropertyNames fuel sw nm sch knowns = OutOfFuel)
  ∧ (∀ fuel nm sch knowns r,
       validateSchemaPropertyNames fuel sw nm sch knowns = Ok r →
       acyclicFrom ResolveRef sw sch)
  ∧ (∀ fuel k sch defs res ancs knowns,
       length (AllOf sch) ≠ 0%nat →
       validateCircularAncestry fuel sw k sch {["#/definitions/" +:+ k]} = Ok (ancs, knowns) →
       (0 < length ancs)%nat →
       validateDuplicatePropertyNames_loop fuel sw ((k, sch) :: defs) res
       = Ok (AddErrors res [circularAncestry k ancs]))
  ∧ (∀ fuel k sch knowns,
       (allOfDepth sch ≤ fuel)%nat →
       validateCircularAncestry fuel sw k sch {["#/definitions/" +:+ k]} = Ok ([], knowns) →
       acyclicFrom ResolveRef sw sch)
  ∧ (∀ doc, Spec doc = sw →
       ∃ n, ∀ fuel, (n ≤ fuel)%nat → validateDuplicatePropertyNames fuel doc ≠ OutOfFuel).
Proof.
  split_and!.
  - intros sch Hacc. apply validateSchemaPropertyNames_acyclic in Hacc as [n Hn].
    exists n. apply Hn.
  - intros. by eapply validateSchemaPropertyNames_cycle.
  - intros. by eapply validateSchemaPropertyNames_Ok_acyclic.
  - intros. by eapply validateDuplicatePropertyNames_loop_circular.
  - intros. by eapply validateCircularAncestry_nothing_acyclic.
  - intros doc <-. destruct (validateDuplicatePropertyNames_loop_returns
      (Spec doc) (Definitions (Spec doc))) as [n Hn].
    exists n. intros fuel Hfuel. by apply Hn.
Qed.

End DefinitionsProofs.

(** ** Required properties *)

Section RequiredProofs.

Variable Regexp : Type.
Variable regexp_Compile : string → option Regexp.
Variable MatchString : Regexp → string → bool.

Abbreviation validateRequired_patterns :=
  (validateRequired_patterns Regexp regexp_Compile MatchString).
Abbreviation validateRequired_name :=
  (validateRequired_name Regexp regexp_Compile MatchString).
Abbreviation validateRequired_names :=
  (validateRequired_names Regexp regexp_Compile MatchString).
Abbreviation validateRequiredDefinitions_loop :=
  (validateRequiredDefinitions_loop Regexp regexp_Compile MatchString).
Abbreviation declarable := (declarable Regexp regexp_Compile MatchString).
Abbreviation patternsCompile := (patternsCompile Regexp regexp_Compile).

Lemma validateRequired_patterns_spec (pps : list (string * Schema)) (pn : string) :
  Forall (λ pp, is_Some (regexp_Compile pp)) pps.*1 →
  ∃ b, validateRequired_patterns pps pn = Ok b
       ∧ (b = true ↔ ∃ pp re, pp ∈ pps.*1 ∧ regexp_Compile pp = Some re
                              ∧ MatchString re pn = true).
Proof.
  induction pps as [|[pp sch] pps IH]; simpl; intros Hc.
  - exists false. split; [done|]. split; [done|].
    intros (pp & re & Hin & _). by apply elem_of_nil in Hin.
  - apply Forall_cons in Hc as [[re Hre] Hc]. rewrite Hre.
    destruct (MatchString re pn) eqn:Hm.
    + exists true. split; [done|]. split; [|done]. intros _.
      exists pp, re. split_and!; [by left|done..].
    + destruct (IH Hc) as (b & -> & Hb). exists b. split; [done|].
      rewrite Hb. split.
      * intros (pp' & re' & Hin & ?). exists pp', re'. split; [by right|done].
      * intros (pp' & re' & Hin & Hre' & Hm'). exists pp', re'.
        apply elem_of_cons in Hin as [->|Hin]; [congruence|done].
Qed.

(** A malformed pattern met before a matching one makes the check panic. *)
Lemma validateRequired_patterns_panic (pp : string) (sch : Schema)
    (pps : list (string * Schema)) (pn : string) :
  regexp_Compile pp = None →
  validateRequired_patterns ((pp, sch) :: pps) pn = Panicked (RegexpMustCompile pp).
Proof. intros H. simpl. by rewrite H. Qed.

(** One required name: no diagnostic when it is declarable, one
    diagnostic otherwise. *)
Lemma validateRequired_name_spec (d : string) (v : Schema) (pn : string) (res : Result) :
  patternsCompile v →
  (declarable v pn ∧ validateRequired_name d v pn res = Ok res)
  ∨ (¬ declarable v pn
     ∧ validateRequired_name d v pn res = Ok (AddErrors res [requiredNotDefined pn d])).
Proof.
  intros Hc. unfold validateRequired_name, declarable.
  destruct (decide (pn ∈ (Properties v).*1)) as [Hp|Hp].
  { left. split; [by left|done]. }
  destruct (validateRequired_patterns_spec (PatternProperties v) pn Hc) as (b & -> & Hb).
  simpl. destruct b.
  { left. split; [|done]. right. left. by apply Hb. }
  assert (Hnb : ¬ ∃ pp re, pp ∈ (PatternProperties v).*1
                           ∧ regexp_Compile pp = Some re ∧ MatchString re pn = true).
  { intros H. by apply Hb in H. }
  destruct (AdditionalProperties v) as [ap|] eqn:Hap.
  - destruct (Allows ap) eqn:Hal.
    { left. split; [|done]. right. right. exists ap. auto. }
    destruct (decide (is_Some (sobSchema ap))) as [Hs|Hs].
    { left. split; [|done]. right. right. exists ap. auto. }
    right. split; [|done].
    intros [?|[?|(ap' & [= <-] & [?|?])]]; [done|done|congruence|done].
  - right. split; [|done]. intros [?|[?|(ap' & ? & _)]]; done.
Qed.

(** The diagnostics of [validateRequiredDefinitions] for the names [pns]
    required by the definition [d]. *)
Lemma validateRequired_names_spec (d : string) (v : Schema) (pns : list string)
    (res : Result) :
  patternsCompile v →
  ∃ added, validateRequired_names d v pns res = Ok (AddErrors res added)
           ∧ ∀ e, e ∈ added ↔ ∃ pn, pn ∈ pns ∧ ¬ declarable v pn
                                    ∧ e = requiredNotDefined pn d.
Proof.
  intros Hc. revert res. induction pns as [|pn pns IH]; intros res; simpl.
  - exists []. rewrite AddErrors_nil. split; [done|]. intros e. split.
    + by intros ?%elem_of_nil.
    + intros (pn & Hin & _). by apply elem_of_nil in Hin.
  - destruct (validateRequired_name_spec d v pn res Hc) as [[Hd ->]|[Hd ->]]; simpl.
    + destruct (IH res) as (added & -> & Hadded).
      exists added. split; [done|]. intros e. rewrite Hadded. split.
      * intros (pn' & Hin & ?). exists pn'. split; [by right|done].
      * intros (pn' & Hin & Hn & He). exists pn'.
        apply elem_of_cons in Hin as [->|Hin]; [done|done].
    + destruct (IH (AddErrors res [requiredNotDefined pn d])) as (added & -> & Hadded).
      exists (requiredNotDefined pn d :: added). rewrite AddErrors_AddErrors.
      split; [done|]. intros e. rewrite elem_of_cons, Hadded. split.
      * intros [->|(pn' & Hin & ?)]; [exists pn; split; [by left|done]|].
        exists pn'. split; [by right|done].
      * intros (pn' & Hin & Hn & He).
        apply elem_of_cons in Hin as [->|Hin]; [by left|right; eauto].
Qed.

(** The required check in closed form, when every pattern is a regular
    expression: the diagnostics are those of the required names that are
    not declarable, definition by definition. *)
Lemma validateRequiredDefinitions_loop_spec (defs : list (string * Schema)) (res : Result) :
  Forall (λ def : string * Schema, patternsCompile def.2) defs →
  ∃ added, validateRequiredDefinitions_loop defs res = Ok (AddErrors res added)
           ∧ ∀ e, e ∈ added ↔ ∃ d v pn, (d, v) ∈ defs ∧ pn ∈ Required v
                                        ∧ ¬ declarable v pn
                                        ∧ e = requiredNotDefined pn d.
Proof.
  intros Hc. revert res. induction Hc as [|[d v] defs Hv _ IH]; intros res; simpl.
  - exists []. rewrite AddErrors_nil. split; [done|]. intros e. split.
    + by intros ?%elem_of_nil.
    + intros (d & v & pn & Hin & _). by apply elem_of_nil in Hin.
  - destruct (validateRequired_names_spec d v (Required v) res Hv) as (a1 & -> & H1).
    simpl. destruct (IH (AddErrors res a1)) as (a2 & -> & H2).
    exists (a1 ++ a2). rewrite AddErrors_AddErrors. split; [done|].
    intros e. rewrite elem_of_app, H1, H2. split.
    + intros [(pn & Hin & Hn & ->)|(d' & v' & pn & Hin & ?)].
      * exists d, v, pn. split; [by left|done].
      * exists d', v', pn. split; [by right|done].
    + intros (d' & v' & pn & Hin & Hreq & Hn & ->).
      apply elem_of_cons in Hin as [[= -> ->]|Hin].
      * left. by exists pn.
      * right. by exists d', v', pn.
Qed.

End RequiredProofs.

(** ** Arrays without an element type *)

(** Induction along the element schemas. *)
Lemma Schema_items_ind (P : Schema → Prop) :
  (∀ sch, (∀ items elem, Items sch = Some items → elem ∈ elementSchemas items → P elem) → P sch) →
  ∀ sch, P sch.
Proof.
  intros H. fix IH 1. intros sch. apply H.
  destruct sch as [ref tpe props pprops aprops items aitems allOf req]. simpl.
  destruct items as [[one many]|]; [|intros ? ? [=]].
  intros items elem [= <-]. unfold elementSchemas. simpl.
  destruct one as [s|].
  - intros ->%list_elem_of_singleton. apply IH.
  - assert (HF : Forall P many).
    { induction many as [|s many IHm]; constructor; [apply IH|apply IHm]. }
    rewrite Forall_forall in HF. apply HF.
Qed.

Lemma validateSchemaItems_unfold (schema : Schema) (prefix : Arg) (opID : string) :
  validateSchemaItems schema prefix opID
  = if negb (Contains (Type_ schema) "array") then None
    else match Items schema with
         | None => Some (schemaWithoutItems prefix opID)
         | Some items =>
             if decide (Len items = 0)%nat then Some (schemaWithoutItems prefix opID)
             else firstSome (λ sch, validateSchemaItems sch prefix opID) (elementSchemas items)
         end.
Proof.
  destruct schema as [ref tpe props pprops aprops items aitems allOf req]. simpl.
  destruct (negb (Contains tpe "array")); [done|].
  destruct items as [[one many]|]; [|done]. unfold elementSchemas. simpl.
  destruct (decide _); [done|].
  destruct one as [s|]; simpl.
  - by destruct (validateSchemaItems s prefix opID).
  - induction many as [|s many IH]; [done|]. simpl.
    by destruct (validateSchemaItems s prefix opID).
Qed.

Lemma firstSome_Some {A B} (f : A → option B) (l : list A) (b : B) :
  firstSome f l = Some b → ∃ x, x ∈ l ∧ f x = Some b.
Proof.
  induction l as [|x l IH]; simpl; [done|].
  destruct (f x) as [b'|] eqn:Hx.
  - intros [= ->]. exists x. split; [by left|done].
  - intros (y & Hy & Hfy)%IH. exists y. split; [by right|done].
Qed.

(** [validateSchemaItems] follows the chain of [items], and nothing else:
    it returns the diagnostic exactly when the chain holds an array without
    element schemas. *)
Lemma validateSchemaItems_spec (schema : Schema) (prefix : Arg) (opID : string) :
  (lacksItems schema
   ∧ validateSchemaItems schema prefix opID = Some (schemaWithoutItems prefix opID))
  ∨ (¬ lacksItems schema ∧ validateSchemaItems schema prefix opID = None).
Proof.
  induction schema as [schema IH] using Schema_items_ind.
  rewrite validateSchemaItems_unfold.
  destruct (Contains (Type_ schema) "array") eqn:Harr; simpl.
  2:{ right. split; [|done]. intros Hl.
      inversion Hl as [? [? _]|]; congruence. }
  destruct (Items schema) as [items|] eqn:Hitems.
  2:{ left. split; [|done]. apply lacksItems_here. split; [done|by left]. }
  destruct (decide (Len items = 0)%nat) as [Hlen|Hlen].
  { left. split; [|done]. apply lacksItems_here. split; [done|]. right. by exists items. }
  destruct (firstSome _ (elementSchemas items)) as [err|] eqn:Hfirst.
  - apply firstSome_Some in Hfirst as (elem & Hin & Helem).
    destruct (IH items elem eq_refl Hin) as [[Hl He]|[_ He]]; [|congruence].
    left. split; [by eapply lacksItems_below|congruence].
  - right. split; [|done]. intros Hl.
    inversion Hl as [? [_ [?|(items' & ? & ?)]]|? items' elem ? Hit ? Hin Hle]; simplify_eq.
    apply firstSome_None in Hfirst. rewrite Forall_forall in Hfirst.
    destruct (IH items elem eq_refl Hin) as [[_ He]|[Hn _]]; [|done].
    rewrite (Hfirst elem Hin) in He. done.
Qed.

(** Induction along the nested [items] of a simple schema. *)
Lemma SimpleSchema_items_ind (P : SimpleSchema → Prop) :
  (∀ s, (∀ s', ssItems s = Some s' → P s') → P s) → ∀ s, P s.
Proof.
  intros H. fix IH 1. intros s. apply H.
  destruct s as [tpe format items]. simpl.
  destruct items as [s'|]; [|intros ? [=]].
  intros ? [= <-]. apply IH.
Qed.

Section ItemsProofs.

Variable TypeName : SimpleSchema → string.

Abbreviation nestedLacks := (nestedLacks TypeName).
Abbreviation validateItems_nested := (validateItems_nested TypeName).

Lemma validateItems_nested_unfold (items : SimpleSchema) :
  validateItems_nested items
  = if decide (TypeName items = "array") then
      if decide (ItemsTypeName TypeName items = "") then Ok true
      else match ssItems items with
           | Some items' => validateItems_nested items'
           | None => Panicked NilDereference
           end
    else Ok false.
Proof. by destruct items. Qed.

(** The loop over the nested [items] of a parameter never dereferences
    [nil], and breaks exactly when an array along the way has items without
    a type name. *)
Lemma validateItems_nested_spec (items : SimpleSchema) :
  (nestedLacks items ∧ validateItems_nested items = Ok true)
  ∨ (¬ nestedLacks items ∧ validateItems_nested items = Ok false).
Proof.
  induction items as [items IH] using SimpleSchema_items_ind.
  rewrite validateItems_nested_unfold.
  destruct (decide (TypeName items = "array")) as [Harr|Harr].
  2:{ right. split; [|done]. intros Hl. inversion Hl; congruence. }
  destruct (decide (ItemsTypeName TypeName items = "")) as [Hit|Hit].
  { left. split; [|done]. by apply nestedLacks_here. }
  destruct (ssItems items) as [items'|] eqn:Hitems.
  2:{ unfold ItemsTypeName in Hit. by rewrite Hitems in Hit. }
  destruct (IH items' eq_refl) as [[Hl ->]|[Hn ->]].
  - left. split; [|done]. by eapply nestedLacks_below.
  - right. split; [|done]. intros Hl.
    inversion Hl as [|? items'' ? ? Hit' Hl']; by simplify_eq.
Qed.

Lemma validateItems_headers (opID : string) (headers : list (string * Header))
    (res : Result) :
  foldl (λ res '(hn, hv),
           if decide (TypeName (hSimple hv) = "array"
                      ∧ ItemsTypeName TypeName (hSimple hv) = "")
           then AddErrors res [headerWithoutItems hn opID]
           else res)
        res headers
  = AddErrors res (headerDiagnostics TypeName opID headers).
Proof.
  revert res. induction headers as [|[hn hv] headers IH]; intros res; simpl.
  - by rewrite AddErrors_nil.
  - rewrite IH. destruct (decide _); [|done].
    by rewrite AddErrors_AddErrors.
Qed.

(** C6.  A parameter whose type name is "array" and whose items have no
    type name gives the diagnostic; otherwise a parameter that is not in the
    body is followed through its nested items, and a body parameter through
    the chain of [items] of its schema -- not through the rest of the schema
    graph; headers are checked at their first level and response bodies
    like the schemas of body parameters.  Each parameter and each response
    body gives at most one diagnostic. *)
Theorem array_without_element_type (opID : string) (res : Result) :
  (∀ param,
     let top := TypeName (pSimple param) = "array"
                ∧ ItemsTypeName TypeName (pSimple param) = "" in
     let nested := ∃ items, ssItems (pSimple param) = Some items ∧ nestedLacks items in
     (top → validateItems_param TypeName opID param res
            = Ok (AddErrors res [paramWithoutItems (pName param) opID]))
     ∧ (¬ top → pIn param ≠ "body" →
        (nested → validateItems_param TypeName opID param res
                  = Ok (AddErrors res [paramWithoutItems (pName param) opID]))
        ∧ (¬ nested → validateItems_param TypeName opID param res = Ok res))
     ∧ (¬ top → pIn param = "body" → ∀ schema, pSchema param = Some schema →
        (lacksItems schema →
           validateItems_param TypeName opID param res
           = Ok (AddErrors res
                   [schemaWithoutItems (ArgSprintf "body param %q" [ArgString (pName param)])
                      opID]))
        ∧ (¬ lacksItems schema → validateItems_param TypeName opID param res = Ok res)))
  ∧ (∀ resp, ∃ body,
       Errors (validateItems_response TypeName opID resp res)
       = Errors res ++ headerDiagnostics TypeName opID (rHeaders resp) ++ body
       ∧ ((∃ schema, rSchema resp = Some schema ∧ lacksItems schema) →
          body = [schemaWithoutItems (ArgString "response body") opID])
       ∧ (¬ (∃ schema, rSchema resp = Some schema ∧ lacksItems schema) → body = [])).
Proof.
  split.
  - intros param top nested. unfold validateItems_param.
    split_and!.
    + intros Htop. by rewrite decide_True.
    + intros Htop Hin. rewrite decide_False by done. rewrite decide_True by done.
      destruct (ssItems (pSimple param)) as [items|] eqn:Hitems.
      * destruct (validateItems_nested_spec items) as [[Hl ->]|[Hn ->]]; simpl.
        -- split; [done|]. intros Hno. destruct Hno. by exists items.
        -- split; [|done]. intros (items' & [= <-] & Hl). done.
      * split; [|done]. intros (items' & [=] & _).
    + intros Htop Hin schema Hschema.
      rewrite decide_False by done. rewrite decide_False by (intros ?; done).
      rewrite Hschema.
      destruct (validateSchemaItems_spec schema
                  (ArgSprintf "body param %q" [ArgString (pName param)]) opID)
        as [[Hl ->]|[Hn ->]]; by split.
  - intros resp. unfold validateItems_response.
    rewrite validateItems_headers.
    destruct (rSchema resp) as [schema|] eqn:Hschema.
    + destruct (validateSchemaItems_spec schema (ArgString "response body") opID)
        as [[Hl ->]|[Hn ->]].
      * exists [schemaWithoutItems (ArgString "response body") opID]. simpl.
        split_and!; [by rewrite <- app_assoc|done|].
        intros Hno. destruct Hno. by exists schema.
      * exists []. simpl. split_and!; [by rewrite app_nil_r| |done].
        intros (schema' & [= <-] & Hl). done.
    + exists []. simpl. split_and!; [by rewrite app_nil_r| |done].
      intros (schema' & [=] & _).
Qed.

(** *** Every parameter and every response of every operation *)

Lemma within_refl (res : Result) : within res res.
Proof. by intros e. Qed.

Lemma within_trans (r1 r2 r3 : Result) : within r1 r2 → within r2 r3 → within r1 r3.
Proof. intros H12 H23 e He. auto. Qed.

Lemma within_AddErrors_l (res : Result) (l : list error) : within res (AddErrors res l).
Proof. intros e He. simpl. apply elem_of_app. by left. Qed.

Lemma within_AddErrors_r (res r : Result) : within r (AddErrors res (Errors r)).
Proof. intros e He. simpl. apply elem_of_app. by right. Qed.

Lemma validateItems_param_frame (opID : string) (param : Parameter_) (res : Result) :
  validateItems_param TypeName opID param res
  = r ← validateItems_param TypeName opID param new_Result; Ok (AddErrors res (Errors r)).
Proof.
  unfold validateItems_param.
  destruct (decide _); [done|].
  destruct (decide _).
  - destruct (ssItems (pSimple param)) as [items|]; simpl; [|by rewrite AddErrors_nil].
    destruct (validateItems_nested items) as [[|]| |]; simpl; [done| |done|done].
    by rewrite AddErrors_nil.
  - destruct (pSchema param) as [schema|]; [|done].
    destruct (validateSchemaItems _ _ _); simpl; [done|by rewrite AddErrors_nil].
Qed.

Lemma validateItems_param_within (opID : string) (param : Parameter_) (res res' : Result) :
  validateItems_param TypeName opID param res = Ok res' →
  within res res'
  ∧ ∀ r, validateItems_param TypeName opID param new_Result = Ok r → within r res'.
Proof.
  rewrite validateItems_param_frame.
  destruct (validateItems_param TypeName opID param new_Result) as [r| |]; simpl; [|done..].
  intros [= <-]. split; [apply within_AddErrors_l|].
  intros r' [= <-]. apply within_AddErrors_r.
Qed.

Lemma validateItems_params_within (opID : string) (params : list Parameter_)
    (res res' : Result) :
  validateItems_params TypeName opID params res = Ok res' →
  within res res'
  ∧ ∀ param r, param ∈ params →
      validateItems_param TypeName opID param new_Result = Ok r → within r res'.
Proof.
  revert res. induction params as [|param params IH]; intros res; simpl.
  - intros [= <-]. split; [apply within_refl|]. intros ? ? ?%elem_of_nil. done.
  - destruct (validateItems_param TypeName opID param res) as [res1| |] eqn:H1; simpl; [|done..].
    intros H2. apply validateItems_param_within in H1 as [Hres Hparam].
    apply IH in H2 as [Hres1 Hparams]. split; [by eapply within_trans|].
    intros p r [->|Hin]%elem_of_cons Hr.
    + eapply within_trans; [by apply Hparam|done].
    + by eapply Hparams.
Qed.

Lemma validateItems_response_frame (opID : string) (resp : Response) (res : Result) :
  validateItems_response TypeName opID resp res
  = AddErrors res (Errors (validateItems_response TypeName opID resp new_Result)).
Proof.
  unfold validateItems_response. rewrite !validateItems_headers.
  destruct (rSchema resp) as [schema|].
  - destruct (validateSchemaItems _ _ _); by rewrite ?AddErrors_AddErrors.
  - done.
Qed.

Lemma validateItems_responses_within (opID : string) (resps : list Response) (res : Result) :
  within res (foldl (λ res resp, validateItems_response TypeName opID resp res) res resps)
  ∧ ∀ resp, resp ∈ resps →
      within (validateItems_response TypeName opID resp new_Result)
        (foldl (λ res resp, validateItems_response TypeName opID resp res) res resps).
Proof.
  revert res. induction resps as [|resp resps IH]; intros res; simpl.
  - split; [apply within_refl|]. intros ? ?%elem_of_nil. done.
  - destruct (IH (validateItems_response TypeName opID resp res)) as [Hres Hresps].
    split.
    + eapply within_trans; [|done]. rewrite validateItems_response_frame.
      apply within_AddErrors_l.
    + intros r [->|Hin]%elem_of_cons; [|by apply Hresps].
      eapply within_trans; [|done]. rewrite (validateItems_response_frame _ _ res).
      apply within_AddErrors_r.
Qed.

Lemma validateItems_paths_within (doc : Document) (method : string)
    (pi : list (string * Operation)) (res res' : Result) :
  validateItems_paths TypeName doc method pi res = Ok res' →
  within res res'
  ∧ ∀ path op, (path, op) ∈ pi →
      (∀ param r, param ∈ ParamsFor doc method path →
         validateItems_param TypeName (ID op) param new_Result = Ok r → within r res')
      ∧ (∀ resp, resp ∈ responsesOf op →
           within (validateItems_response TypeName (ID op) resp new_Result) res').
Proof.
  revert res. induction pi as [|[path op] pi IH]; intros res; simpl.
  - intros [= <-]. split; [apply within_refl|]. intros ? ? ?%elem_of_nil. done.
  - unfold validateItems_path.
    destruct (validateItems_params TypeName (ID op) (ParamsFor doc method path) res)
      as [res1| |] eqn:H1; simpl; [|done..].
    intros H2. apply validateItems_params_within in H1 as [Hres Hparams].
    destruct (validateItems_responses_within (ID op) (responsesOf op) res1) as [Hres1 Hresps].
    apply IH in H2 as [Hres2 Hrest]. split.
    + eapply within_trans; [done|]. by eapply within_trans.
    + intros path' op' [[= -> ->]|Hin]%elem_of_cons; [|by apply Hrest].
      split.
      * intros param r Hin Hr. eapply within_trans; [by eapply Hparams|].
        by eapply within_trans.
      * intros resp Hin. eapply within_trans; [by apply Hresps|done].
Qed.

(** When [validateItems] returns, its result holds the diagnostics of every
    parameter and of every response of every operation. *)
Lemma validateItems_within (doc : Document) (res : Result) (method path : string)
    (pi : list (string * Operation)) (op : Operation) :
  validateItems TypeName doc = Ok res →
  (method, pi) ∈ Operations doc → (path, op) ∈ pi →
  (∀ param r, param ∈ ParamsFor doc method path →
     validateItems_param TypeName (ID op) param new_Result = Ok r → within r res)
  ∧ (∀ resp, resp ∈ responsesOf op →
       within (validateItems_response TypeName (ID op) resp new_Result) res).
Proof.
  unfold validateItems. generalize new_Result at 1 as res0.
  induction (Operations doc) as [|[m pi'] ops IH]; intros res0 Hok Hm Hp.
  - by apply elem_of_nil in Hm.
  - simpl in Hok.
    destruct (validateItems_paths TypeName doc m pi' res0) as [res1| |] eqn:H1;
      simpl in Hok; [|done..].
    apply elem_of_cons in Hm as [[= <- <-]|Hm].
    + apply validateItems_paths_within in H1 as [_ Hpaths].
      destruct (Hpaths path op Hp) as [Hparams Hresps].
      assert (Hmono : within res1 res).
      { clear -Hok. revert res1 Hok. induction ops as [|[m' pi''] ops IHo]; intros res1; simpl.
        - intros [= <-]. apply within_refl.
        - destruct (validateItems_paths TypeName doc m' pi'' res1) as [res2| |] eqn:H2;
            simpl; [|done..].
          intros Hok. apply validateItems_paths_within in H2 as [H2 _].
          eapply within_trans; [done|]. by apply IHo. }
      split.
      * intros param r Hin Hr. eapply within_trans; [by eapply Hparams|done].
      * intros resp Hin. eapply within_trans; [by apply Hresps|done].
    + by eapply IH.
Qed.

End ItemsProofs.

(** ** The driver and its phases *)

Section ValidateProofs.

Variable ResolveRef : Swagger → string → string + Schema.
Variable PointerGet : string → Swagger → string + Parameter_.
Variable Regexp : Type.
Variable regexp_Compile : string → option Regexp.
Variable MatchString : Regexp → string → bool.
Variable TypeName : SimpleSchema → string.
Variable JSON : Type.
Variable json_Unmarshal : string → string + JSON.
Variable schv_Validate : JSON → option Result.
Variable Expanded : Document → string + Document.
Variable validateDefaultValueValidAgainstSchema : Document → Res Result.
Variable validateExamplesValidAgainstSchema : Document → Res Result.

Abbreviation Validate :=
  (Validate ResolveRef PointerGet Regexp regexp_Compile MatchString TypeName
     JSON json_Unmarshal schv_Validate Expanded
     validateDefaultValueValidAgainstSchema validateExamplesValidAgainstSchema).

Abbreviation conforms := (conforms JSON schv_Validate).

Lemma conforms_no_errors (obj : JSON) :
  conforms obj → Merge new_Result (schv_Validate obj) = new_Result.
Proof.
  intros [->|(r & -> & Hr)]; [done|]. apply Result_eq. simpl. done.
Qed.

(** When the expansion of the references fails, [Validate] returns its
    error before any of the later phases. *)
Lemma Validate_expansion_fails (fuel : nat) (sd : Document) (obj : JSON) (err : string) :
  json_Unmarshal (Raw sd) = inr obj → conforms obj → Expanded sd = inl err →
  Validate fuel (DocumentPtr (Some sd)) = Ok (mkResult [External err], Some new_Result).
Proof.
  intros Hraw Hconf Hexp. unfold Validate. rewrite Hraw.
  rewrite conforms_no_errors by done. simpl.
  unfold validateReferencesValid. by rewrite Hexp.
Qed.

(** C4.  When the raw bytes do not decode, when the decoded document fails
    the meta-schema, and when the expansion of the references fails,
    [Validate] returns the errors it has so far -- the error of the decoder,
    the errors of the meta-schema, the error of the expansion -- and
    nothing of the later checks: the result is the same whatever they
    would do, with any budget. *)
Theorem Validate_early_return (fuel : nat) (sd : Document) :
  (∀ err, json_Unmarshal (Raw sd) = inl err →
     Validate fuel (DocumentPtr (Some sd)) = Ok (mkResult [External err], Some new_Result))
  ∧ (∀ obj r, json_Unmarshal (Raw sd) = inr obj →
       schv_Validate obj = Some r → Errors r ≠ [] →
       Validate fuel (DocumentPtr (Some sd)) = Ok (r, Some new_Result))
  ∧ (∀ obj err, json_Unmarshal (Raw sd) = inr obj → conforms obj →
       Expanded sd = inl err →
       Validate fuel (DocumentPtr (Some sd)) = Ok (mkResult [External err], Some new_Result)).
Proof.
  split_and!.
  - intros err Hraw. unfold Validate. by rewrite Hraw.
  - intros obj r Hraw Hr Herrs. unfold Validate. rewrite Hraw, Hr.
    assert (Merge new_Result (Some r) = r) as -> by by apply Result_eq.
    unfold HasErrors. destruct (Errors r); [done|]. done.
  - intros obj err. apply Validate_expansion_fails.
Qed.

(** Past the first two phases, a panic of the duplicate-property phase is a panic
    of [Validate]. *)
Lemma Validate_panic (fuel : nat) (sd : Document) (obj : JSON) (exp : Document) (p : panic) :
  json_Unmarshal (Raw sd) = inr obj → conforms obj → Expanded sd = inr exp →
  validateDuplicatePropertyNames ResolveRef fuel sd = Panicked p →
  Validate fuel (DocumentPtr (Some sd)) = Panicked p.
Proof.
  intros Hraw Hconf Hexp Hp. unfold Validate. rewrite Hraw.
  rewrite conforms_no_errors by done. simpl.
  unfold validateReferencesValid. rewrite Hexp. simpl. by rewrite Hp.
Qed.

(** Past the first two phases, what [Validate] returns starts with the errors of
    the duplicate operation ids. *)
Lemma Validate_duplicate_ids (fuel : nat) (sd : Document) (obj : JSON) (exp : Document)
    (errs : Result) (warnings : option Result) :
  json_Unmarshal (Raw sd) = inr obj → conforms obj → Expanded sd = inr exp →
  Validate fuel (DocumentPtr (Some sd)) = Ok (errs, warnings) →
  Errors (validateDuplicateOperationIDs sd) `prefix_of` Errors errs.
Proof.
  intros Hraw Hconf Hexp. unfold Validate. rewrite Hraw.
  rewrite conforms_no_errors by done. simpl.
  unfold validateReferencesValid. rewrite Hexp. simpl.
  destruct (validateDuplicatePropertyNames _ _ _) as [r1| |]; simpl; [|done..].
  destruct (validateItems _ _) as [r2| |]; simpl; [|done..].
  destruct (validateRequiredDefinitions _ _ _ _) as [r3| |]; simpl; [|done..].
  destruct (validateDefaultValueValidAgainstSchema sd) as [r4| |]; simpl; [|done..].
  destruct (validateExamplesValidAgainstSchema sd) as [r5| |]; simpl; [|done..].
  intros [= <- _]. simpl. rewrite <- !app_assoc. by apply prefix_app_r.
Qed.

(** C2.  A reference that does not resolve makes the two walks panic with
    the error of the resolver; [validateDuplicatePropertyNames] panics at
    the first definition whose ancestry walk meets such a reference (the
    definitions before it holding no reference in their [allOf] spine), and
    so does [Validate] once the first two phases have passed: no diagnostic
    is recorded and no Result is returned.  What [Validate] turns into a
    diagnostic is the failure of the expansion of the references, in the
    phase before, and it returns there. *)
Theorem unresolved_ref_panics :
  (∀ fuel sw nm sch knowns ref err,
     Ref sch = Some ref → ResolveRef sw ref = inl err →
     validateCircularAncestry ResolveRef (S fuel) sw nm sch knowns
       = Panicked (PanicError err)
     ∧ validateSchemaPropertyNames ResolveRef (S fuel) sw nm sch knowns
       = Panicked (PanicError err))
  ∧ (∀ sd pre k sch post ref err,
       Definitions (Spec sd) = pre ++ (k, sch) :: post →
       Forall (λ def : string * Schema, firstRef def.2 = None) pre →
       length (AllOf sch) ≠ 0%nat →
       firstRef sch = Some ref → ResolveRef (Spec sd) ref = inl err →
       ∃ n, ∀ fuel, (n ≤ fuel)%nat →
         validateDuplicatePropertyNames ResolveRef fuel sd = Panicked (PanicError err)
         ∧ ∀ obj exp,
             json_Unmarshal (Raw sd) = inr obj → conforms obj → Expanded sd = inr exp →
             Validate fuel (DocumentPtr (Some sd)) = Panicked (PanicError err))
  ∧ (∀ fuel sd obj err,
       json_Unmarshal (Raw sd) = inr obj → conforms obj → Expanded sd = inl err →
       Validate fuel (DocumentPtr (Some sd))
       = Ok (mkResult [External err], Some new_Result)).
Proof.
  split_and!.
  - intros. by eapply unresolved_ref_panic.
  - intros sd pre k sch post ref err Hdefs Hpre Hall Hfirst Hres.
    destruct (validateDuplicatePropertyNames_loop_panic ResolveRef (Spec sd)
                pre k sch post ref err Hpre Hall Hfirst Hres) as [n Hn].
    exists n. intros fuel Hfuel.
    assert (Hp : validateDuplicatePropertyNames ResolveRef fuel sd
                 = Panicked (PanicError err)).
    { unfold validateDuplicatePropertyNames. rewrite Hdefs. by apply Hn. }
    split; [done|]. intros obj exp Hraw Hconf Hexp. by eapply Validate_panic.
  - intros fuel sd obj err. apply Validate_expansion_fails.
Qed.

(** C3.  Inside the duplicate-property phase the duplicates of every
    definition are reported as long as the ancestry check finds nothing;
    the phase returns at the first definition it reports, with that one
    diagnostic after those collected so far.  Inside the loops over the
    parameters of an operation a reference that does not resolve is
    recorded and ends the loop; the other operations are still checked. *)
Theorem phase_reporting :
  (∀ fuel sw pre res,
     Forall (passes ResolveRef fuel sw) pre →
     validateDuplicatePropertyNames_loop ResolveRef fuel sw pre res
     = Ok (AddErrors res (duplicateDiagnostics ResolveRef fuel sw pre)))
  ∧ (∀ fuel sw pre k sch post res ancs knowns,
       Forall (passes ResolveRef fuel sw) pre →
       length (AllOf sch) ≠ 0%nat →
       validateCircularAncestry ResolveRef fuel sw k sch {["#/definitions/" +:+ k]}
         = Ok (ancs, knowns) →
       (0 < length ancs)%nat →
       validateDuplicatePropertyNames_loop ResolveRef fuel sw (pre ++ (k, sch) :: post) res
       = Ok (AddErrors res (duplicateDiagnostics ResolveRef fuel sw pre
                            ++ [circularAncestry k ancs])))
  ∧ (∀ sw opID pre ppr post ptypes first names res err,
       Forall (resolves PointerGet sw) pre →
       resolveParameter PointerGet sw ppr = inl err →
       validateParameters_unique PointerGet sw opID (pre ++ ppr :: post) ptypes res
       = AddErrors (validateParameters_unique PointerGet sw opID pre ptypes res)
           [External err]
       ∧ validateParameters_body PointerGet sw opID (pre ++ ppr :: post) first names res
       = ((validateParameters_body PointerGet sw opID pre first names res).1,
          AddErrors (validateParameters_body PointerGet sw opID pre first names res).2
            [External err]))
  ∧ (∀ doc method pi path op e,
       (method, pi) ∈ Operations doc → (path, op) ∈ pi →
       e ∈ operationErrors PointerGet doc method path op →
       e ∈ Errors (validateParameters PointerGet doc)).
Proof.
  split_and!.
  - intros fuel sw pre res Hpre.
    rewrite <- (app_nil_r pre) at 1.
    by rewrite validateDuplicatePropertyNames_loop_prefix.
  - intros fuel sw pre k sch post res ancs knowns Hpre Hall Hanc Hlen.
    rewrite validateDuplicatePropertyNames_loop_prefix by done.
    erewrite validateDuplicatePropertyNames_loop_circular by done.
    by rewrite AddErrors_AddErrors.
  - intros. split.
    + by apply validateParameters_unique_break.
    + by apply validateParameters_body_break.
  - intros. by eapply validateParameters_incl.
Qed.

End ValidateProofs.

(** * The properties on the example documents *)

(** ** Duplicate operation ids *)

(** S1: [getPet] twice gives one error. *)
Example getPet_defined_twice :
  validateDuplicateOperationIDs getPetTwiceDoc
  = mkResult [errors_New 422 "%q is defined %d times" [ArgString "getPet"; ArgInt 2]].
Proof. vm_compute. reflexivity. Qed.


(** ** Path overlap *)

(** S3: [/pets/{a}] and [/pets/{b}] under one method. *)
Lemma canonical_path_overlap_witness :
  canonicalPath "/pets/{a}" = canonicalPath "/pets/{b}"
  ∧ overlapDiagnostics noSharedParameters
      (mkDocument "{}" (mkSwagger [])
         [("get", [("/pets/{a}", mkOperation "a" [] None);
                   ("/pets/{b}", mkOperation "b" [] None)])]
         (λ _ _, []) [])
    = [errors_New 422 "path %s overlaps with %s"
         [ArgString "/pets/{b}"; ArgString "/pets/{a}"]].
Proof.
  split; [vm_compute; reflexivity|].
  apply (canonical_path_overlap noSharedParameters "{}" (mkSwagger []) (λ _ _, []) []
           "get" "get" "/pets/{a}" "/pets/{b}" (mkOperation "a" [] None)
           (mkOperation "b" [] None)).
  vm_compute. reflexivity.
Defined.

(** ** Path parameters *)

(** S2: the path [/pets/{petId}] with a path parameter named [id]. *)
Example petId_two_errors :
  validateParameters noSharedParameters petIdDoc
  = mkResult
      [errors_New 422 "path param %q has no parameter definition" [ArgString "{petId}"];
       errors_New 422 "path param %q is not present in path %q"
         [ArgString "id"; ArgString "/pets/{petId}"]].
Proof. vm_compute. reflexivity. Qed.

(** The two errors of S2, from the property of the presence check. *)
Lemma path_params_presence_witness :
  errors_New 422 "path param %q has no parameter definition" [ArgString "{petId}"]
    ∈ Errors (validateParameters noSharedParameters petIdDoc)
  ∧ errors_New 422 "path param %q is not present in path %q"
      [ArgString "id"; ArgString "/pets/{petId}"]
    ∈ Errors (validateParameters noSharedParameters petIdDoc).
Proof.
  pose proof (path_params_presence noSharedParameters petIdDoc "get" "/pets/{petId}"
                [("/pets/{petId}", mkOperation "getPet" [pathParam "id"] None)]
                (mkOperation "getPet" [pathParam "id"] None)) as H.
  destruct H as (Hno & Hnp & _).
  - vm_compute. left.
  - vm_compute. left.
  - split.
    + apply (Hno "petId").
      * vm_compute. left.
      * apply (bool_decide_unpack _). vm_compute. exact I.
    + apply (Hnp "id").
      * vm_compute. left.
      * apply (bool_decide_unpack _). vm_compute. exact I.
Defined.

(** A reference that does not resolve ends the loop that reads the
    parameters: the path parameter [id] declared after it is not read.
    Under the path [/pets] it is declared and is no placeholder, and no
    "not present in path" error is given; under [/pets/{id}] the
    placeholders and the declared names are the same set, and the
    placeholder is reported as having no parameter definition. *)
Lemma path_params_presence_counterexample :
  ("id" ∈ declaredPathParams noSharedParameters (brokenRefPathDoc "/pets") "get" "/pets"
   ∧ ¬ ("{id}" ∈ placeholders "/pets")
   ∧ ¬ (errors_New 422 "path param %q is not present in path %q"
          [ArgString "id"; ArgString "/pets"]
        ∈ Errors (validateParameters noSharedParameters (brokenRefPathDoc "/pets"))))
  ∧ ((∀ x, "{" +:+ x +:+ "}" ∈ placeholders "/pets/{id}" ↔
           x ∈ declaredPathParams noSharedParameters (brokenRefPathDoc "/pets/{id}")
                 "get" "/pets/{id}")
     ∧ errors_New 422 "path param %q has no parameter definition" [ArgString "{id}"]
       ∈ Errors (validateParameters noSharedParameters (brokenRefPathDoc "/pets/{id}"))).
Proof.
  split; [split_and!|split].
  - vm_compute. left.
  - apply (bool_decide_unpack _). vm_compute. exact I.
  - assert (validateParameters noSharedParameters (brokenRefPathDoc "/pets")
            = mkResult [External "object has no key #/parameters/missing";
                        External "object has no key #/parameters/missing"]) as ->.
    { vm_compute. reflexivity. }
    simpl. intros H.
    apply elem_of_cons in H as [H|H]; [discriminate|].
    apply elem_of_cons in H as [H|H]; [discriminate|].
    by apply elem_of_nil in H.
  - intros x.
    change (placeholders "/pets/{id}") with ["{id}"].
    change (declaredPathParams noSharedParameters (brokenRefPathDoc "/pets/{id}")
              "get" "/pets/{id}") with ["id"].
    rewrite !list_elem_of_singleton. split.
    + intros H. by apply (braces_inj x "id").
    + by intros ->.
  - assert (validateParameters noSharedParameters (brokenRefPathDoc "/pets/{id}")
            = mkResult [External "object has no key #/parameters/missing";
                        External "object has no key #/parameters/missing";
                        errors_New 422 "path param %q has no parameter definition"
                          [ArgString "{id}"]]) as ->.
    { vm_compute. reflexivity. }
    simpl. right. right. left.
Qed.

(** ** Circular ancestry *)

(** S4: a definition that inherits from itself is reported. *)
Example node_circular :
  validateDuplicatePropertyNames resolveDefinitions 2 nodeDoc
  = Ok (mkResult [errors_New 422 "definition %q has circular ancestry: %v"
                    [ArgString "Node"; ArgStrings ["#/definitions/Node"]]]).
Proof. vm_compute. reflexivity. Qed.

(** C1.  [Cat] inherits from [Pet], and [Pet] from nothing: the walk of the
    specification crosses [#/definitions/Pet] once and meets no pointer
    again, yet [validateDuplicatePropertyNames] reports [Cat], with any
    budget that lets it return.  [validateCircularAncestry] enters a
    reference in [knowns] before it looks [knowns] up, so the first reference
    it crosses always counts as met before
    ([validateCircularAncestry_spec]). *)
Theorem circular_ancestry_without_cycle :
  (∀ fuel,
     validateDuplicatePropertyNames resolveDefinitions (2 + fuel) petsDoc
     = Ok (mkResult [errors_New 422 "definition %q has circular ancestry: %v"
                       [ArgString "Cat"; ArgStrings ["#/definitions/Pet"]]]))
  ∧ (∃ seen, specAncestryWalk resolveDefinitions 3 (Spec petsDoc) catSchema
               {["#/definitions/Cat"]} = Ok (None, seen)).
Proof.
  split.
  - intros fuel. unfold validateDuplicatePropertyNames.
    change (Definitions (Spec petsDoc)) with [("Cat", catSchema); ("Pet", petSchema)].
    erewrite validateDuplicatePropertyNames_loop_circular; [reflexivity|done| |].
    + rewrite validateCircularAncestry_spec.
      * vm_compute. reflexivity.
      * rewrite elem_of_singleton. apply definition_pointer_fresh.
      * change (allOfDepth catSchema) with 2%nat. lia.
    + simpl. lia.
  - eexists. vm_compute. reflexivity.
Qed.

(** ** References that do not resolve *)

(** [A] inherits from a definition that does not exist: the phase panics,
    and with no budget does it return a Result. *)
Lemma unresolved_ref_counterexample :
  validateDuplicatePropertyNames resolveDefinitions 2 danglingDoc
  = Panicked (PanicError "object has no key #/definitions/Missing")
  ∧ ¬ (∃ fuel res, validateDuplicatePropertyNames resolveDefinitions fuel danglingDoc = Ok res).
Proof.
  split; [vm_compute; reflexivity|].
  intros (fuel & res & H).
  destruct fuel as [|[|fuel]]; [done|done|].
  revert H. unfold validateDuplicatePropertyNames.
  change (Definitions (Spec danglingDoc)) with [("A", danglingSchema)].
  cbn -[union singleton]. done.
Qed.

(** Both walks panic on the reference to the missing definition. *)
Lemma unresolved_ref_panics_witness :
  validateCircularAncestry resolveDefinitions 1 (Spec danglingDoc) "A"
    (refTo "#/definitions/Missing") ∅
  = Panicked (PanicError "object has no key #/definitions/Missing")
  ∧ validateSchemaPropertyNames resolveDefinitions 1 (Spec danglingDoc) "A"
      (refTo "#/definitions/Missing") ∅
    = Panicked (PanicError "object has no key #/definitions/Missing").
Proof.
  apply (proj1 (unresolved_ref_panics resolveDefinitions noSharedParameters string
                  literal_Compile literal_MatchString typeOrFormat string exampleUnmarshal
                  exampleMetaSchema (λ doc, inr doc) (λ _, Ok new_Result)
                  (λ _, Ok new_Result))
           0%nat (Spec danglingDoc) "A" (refTo "#/definitions/Missing") ∅
           "#/definitions/Missing" "object has no key #/definitions/Missing").
  - reflexivity.
  - vm_compute. reflexivity.
Defined.

(** ** Violations inside one phase *)

(** Two definitions with duplicate properties are both reported. *)
Example two_duplicates_reported :
  validateDuplicatePropertyNames resolveDefinitions 3 twoDuplicatesDoc
  = Ok (mkResult
          [errors_New 422 "definition %q contains duplicate properties: %v"
             [ArgString "A"; ArgStrings ["A.id"]];
           errors_New 422 "definition %q contains duplicate properties: %v"
             [ArgString "B"; ArgStrings ["B.tag"]]]).
Proof. vm_compute. reflexivity. Qed.

(** [A] and [B] inherit from each other: the ancestry check reports either
    one when it is asked, and the phase reports [A] alone.  The shared
    parameter that does not resolve ends the loops over the parameters: the
    query parameter [id], declared twice after it, is not reported, as it is
    in the operation without the broken reference. *)
Lemma phase_reporting_counterexample :
  (validateDuplicatePropertyNames resolveDefinitions 3 twoCyclesDoc
   = Ok (mkResult [circularAncestry "A" ["#/definitions/B"]])
   ∧ (∃ knowns,
        validateCircularAncestry resolveDefinitions 3 (Spec twoCyclesDoc) "B"
          (allOfSchemas [refTo "#/definitions/A"]) {["#/definitions/B"]}
        = Ok (["#/definitions/A"], knowns)))
  ∧ (validateParameters noSharedParameters brokenRefDoc
     = mkResult [External "object has no key #/parameters/missing";
                 External "object has no key #/parameters/missing"]
     ∧ validateParameters noSharedParameters
         (operationDoc "get" "/pets" "listPets" [queryParam "id"; queryParam "id"] None)
       = mkResult [duplicateParameterName "id" "query" "listPets"]).
Proof.
  split_and!.
  - vm_compute. reflexivity.
  - eexists. vm_compute. reflexivity.
  - vm_compute. reflexivity.
  - vm_compute. reflexivity.
Qed.

(** The return at the first circular definition and the [break] at the
    broken reference, on the two documents. *)
Lemma phase_reporting_witness :
  validateDuplicatePropertyNames_loop resolveDefinitions 3 (Spec twoCyclesDoc)
    (Definitions (Spec twoCyclesDoc)) new_Result
  = Ok (mkResult [circularAncestry "A" ["#/definitions/B"]])
  ∧ validateParameters_unique noSharedParameters (Spec brokenRefDoc) "listPets"
      ([] ++ sharedParam "#/parameters/missing" :: [queryParam "id"; queryParam "id"])
      ∅ new_Result
    = mkResult [External "object has no key #/parameters/missing"].
Proof.
  pose proof (phase_reporting resolveDefinitions noSharedParameters) as (_ & Hcirc & Hbreak & _).
  split.
  - apply (Hcirc 3%nat (Spec twoCyclesDoc) [] "A" (allOfSchemas [refTo "#/definitions/B"])
             [("B", allOfSchemas [refTo "#/definitions/A"])] new_Result
             ["#/definitions/B"] ({["#/definitions/B"]} ∪ {["#/definitions/A"]})).
    + constructor.
    + vm_compute. lia.
    + vm_compute. reflexivity.
    + vm_compute. lia.
  - apply (Hbreak (Spec brokenRefDoc) "listPets" [] (sharedParam "#/parameters/missing")
             [queryParam "id"; queryParam "id"] ∅ "" [] new_Result
             "object has no key #/parameters/missing").
    + constructor.
    + vm_compute. reflexivity.
Defined.

(** ** The early returns of the driver *)

(** A document that fails the meta-schema: [Validate] returns the errors of
    the meta-schema, with no budget for the later phases. *)
Lemma Validate_early_return_witness :
  exampleValidate 0 (DocumentPtr (Some petsDoc))
  = Ok (mkResult [errors_New 422 ".swagger in body is required" []], Some new_Result).
Proof.
  apply (proj1 (proj2 (Validate_early_return resolveDefinitions noSharedParameters string
                         literal_Compile literal_MatchString typeOrFormat string
                         exampleUnmarshal exampleMetaSchema (λ doc, inr doc)
                         (λ _, Ok new_Result) (λ _, Ok new_Result) 0%nat petsDoc))
           "{}").
  - vm_compute. reflexivity.
  - vm_compute. reflexivity.
  - vm_compute. done.
Defined.

(** ** Arrays without an element type *)

(** S6: a parameter of type array without items. *)
Example array_param_without_items :
  validateItems typeOrFormat arrayParamDoc
  = Ok (mkResult
          [errors_New 422 "param %q for %q is a collection without an element type"
             [ArgString "tags"; ArgString "findPets"]]).
Proof. vm_compute. reflexivity. Qed.

(** The schema of the body parameter holds, as a property, an array without
    items: the schema graph of the specification reaches it, and
    [validateItems] gives no diagnostic. *)
Lemma array_without_element_type_counterexample :
  graphLacksItems taggedSchema
  ∧ validateItems typeOrFormat taggedDoc = Ok new_Result.
Proof.
  split; [|vm_compute; reflexivity].
  exists tagsSchema. split.
  - apply rtc_once. apply (sub_property taggedSchema "tags"). vm_compute. left.
  - split; [vm_compute; reflexivity|by left].
Qed.

(** The parameter of S6, from the property of the parameters. *)
Lemma array_without_element_type_witness :
  validateItems_param typeOrFormat "findPets"
    (mkParameter "" "tags" "query" None (simple "array")) new_Result
  = Ok (mkResult
          [errors_New 422 "param %q for %q is a collection without an element type"
             [ArgString "tags"; ArgString "findPets"]]).
Proof.
  apply (proj1 (proj1 (array_without_element_type typeOrFormat "findPets" new_Result)
                  (mkParameter "" "tags" "query" None (simple "array")))).
  vm_compute. done.
Defined.

(** ** Required properties *)

(** C7.  S5: [age] is required and not declarable, and the one error the
    code gives spells "defintion"; and on a key of [patternProperties] that
    is no regular expression the check panics and gives no error at all. *)
Theorem required_not_defined_message :
  validateRequiredDefinitions string literal_Compile literal_MatchString personDoc
  = Ok (mkResult
          [errors_New 422
             "%q is present in required but not defined as property in defintion %q"
             [ArgString "age"; ArgString "Person"]])
  ∧ validateRequiredDefinitions string literal_Compile literal_MatchString malformedDoc
    = Panicked (RegexpMustCompile "(").
Proof. split; vm_compute; reflexivity. Qed.

(** ** Termination of the property-name walk *)

(** Below [Cat] the graph is acyclic: its one edge leads to [Pet], which has
    none. *)
Lemma acyclicFrom_catSchema : acyclicFrom resolveDefinitions (Spec petsDoc) catSchema.
Proof.
  intros ref Href. vm_compute in Href.
  apply list_elem_of_singleton in Href as ->.
  constructor. intros ref' (reso & Hres & Hin).
  vm_compute in Hres. injection Hres as <-.
  vm_compute in Hin. by apply elem_of_nil in Hin.
Defined.

(** The walk returns from [Cat], and never from a reference to [Node]. *)
Lemma validateSchemaPropertyNames_termination_witness :
  (∃ n, ∀ fuel, (n ≤ fuel)%nat →
     ∀ nm knowns,
       validateSchemaPropertyNames resolveDefinitions fuel (Spec petsDoc) nm catSchema knowns
       ≠ OutOfFuel)
  ∧ (∀ fuel nm knowns,
       validateSchemaPropertyNames resolveDefinitions fuel (Spec nodeDoc) nm
         (refTo "#/definitions/Node") knowns = OutOfFuel).
Proof.
  split.
  - apply (proj1 (validateSchemaPropertyNames_termination resolveDefinitions (Spec petsDoc))).
    apply acyclicFrom_catSchema.
  - apply (proj1 (proj2 (validateSchemaPropertyNames_termination resolveDefinitions
                           (Spec nodeDoc)))
             (refTo "#/definitions/Node") nodeSchema (refTo "#/definitions/Node")
             "#/definitions/Node" []).
    + reflexivity.
    + vm_compute. reflexivity.
    + reflexivity.
    + reflexivity.
Defined.

(** * Further properties *)

(** ** Path templates: splitting, joining and overlap *)

Lemma Split_nonempty (s : string) (sep : ascii) : Split s sep ≠ [].
Proof.
  destruct s as [|c s]; simpl; [done|].
  destruct (decide (c = sep)); [done|]. by destruct (Split s sep).
Qed.

Lemma Join_cons (x y : string) (l : list string) :
  Join (x :: y :: l) "/" = x +:+ String "/" (Join (y :: l) "/").
Proof. done. Qed.

Lemma Join_Split (s : string) : Join (Split s "/") "/" = s.
Proof.
  induction s as [|c s IH]; simpl; [done|].
  destruct (decide (c = "/"%char)) as [->|Hc].
  - pose proof (Split_nonempty s "/") as Hne.
    destruct (Split s "/") as [|y l]; [done|].
    rewrite Join_cons, IH. done.
  - destruct (Split s "/") as [|y l] eqn:Hs; [by destruct (Split_nonempty s "/")|].
    destruct l as [|z l].
    + simpl in *. by rewrite IH.
    + rewrite Join_cons. rewrite Join_cons in IH. by rewrite <- IH.
Qed.

Lemma paramPositions_elem_of (ps : list string) (i j : nat) :
  j ∈ paramPositions i ps ↔
  ∃ p, (i ≤ j)%nat ∧ ps !! (j - i)%nat = Some p ∧ isPathParam p = true.
Proof.
  revert i. induction ps as [|q ps IH]; intros i; simpl.
  - split; [by intros ?%elem_of_nil|]. by intros (p & _ & ? & _).
  - rewrite elem_of_app, IH. split.
    + intros [Hj|(p & Hle & Hp & Hpar)].
      * destruct (isPathParam q) eqn:Hq; [|by apply elem_of_nil in Hj].
        apply list_elem_of_singleton in Hj as ->.
        exists q. by rewrite Nat.sub_diag.
      * exists p. split; [lia|]. split; [|done].
        replace (j - i)%nat with (S (j - S i)) by lia. done.
    + intros (p & Hle & Hp & Hpar).
      destruct (decide (j = i)) as [->|Hne].
      * rewrite Nat.sub_diag in Hp. simpl in Hp. injection Hp as ->.
        left. rewrite Hpar. by apply list_elem_of_singleton.
      * right. exists p. split; [lia|]. split; [|done].
        replace (j - i)%nat with (S (j - S i)) in Hp by lia. done.
Qed.

(** X1.  The segments [parsePath] returns rejoin to the path with [/]
    between them, and the positions it returns are exactly the positions
    of the segments surrounded by braces. *)
Theorem parsePath_round_trip (path : string) :
  Join (parsePath path).1 "/" = path
  ∧ ∀ i, i ∈ (parsePath path).2 ↔
         ∃ p, (parsePath path).1 !! i = Some p ∧ isPathParam p = true.
Proof.
  rewrite parsePath_spec. simpl. split; [apply Join_Split|].
  intros i. rewrite paramPositions_elem_of. rewrite Nat.sub_0_r.
  split; [intros (p & _ & ? & ?); by exists p|intros (p & ? & ?)].
  exists p. split; [lia|done].
Qed.

(** *** A join is split back into its segments *)

Lemma Split_slashFree (x : string) : slashFree x → Split x "/" = [x].
Proof.
  unfold slashFree. induction x as [|c x IH]; simpl; [done|].
  intros Hx. destruct (decide (c = "/"%char)) as [->|Hc].
  - destruct Hx. left.
  - rewrite IH; [done|]. intros Hin. apply Hx. by right.
Qed.

Lemma Split_append (x rest : string) :
  slashFree x → Split (x +:+ String "/" rest) "/" = x :: Split rest "/".
Proof.
  unfold slashFree. induction x as [|c x IH]; simpl; intros Hx.
  - done.
  - destruct (decide (c = "/"%char)) as [->|Hc]; [destruct Hx; left|].
    rewrite IH; [done|]. intros Hin. apply Hx. by right.
Qed.

Lemma Split_Join (l : list string) :
  l ≠ [] → Forall slashFree l → Split (Join l "/") "/" = l.
Proof.
  induction l as [|x l IH]; [done|]. intros _ Hall.
  apply Forall_cons in Hall as [Hx Hl].
  destruct l as [|y l].
  - by apply Split_slashFree.
  - rewrite Join_cons, Split_append by done. f_equal. by apply IH.
Qed.

Lemma Split_segments (s : string) : Forall slashFree (Split s "/").
Proof.
  unfold slashFree. induction s as [|c s IH]; simpl.
  - constructor; [|done]. simpl. by intros ?%elem_of_nil.
  - destruct (decide (c = "/"%char)) as [->|Hc].
    + constructor; [|done]. simpl. by intros ?%elem_of_nil.
    + destruct (Split s "/") as [|y l]; simpl.
      * constructor; [|done]. simpl. intros Hin.
        apply elem_of_cons in Hin as [?|?%elem_of_nil]; congruence.
      * apply Forall_cons in IH as [Hy Hl]. constructor; [|done].
        simpl. intros Hin. apply elem_of_cons in Hin as [?|?]; [congruence|done].
Qed.

Lemma canonical_segments (s : string) :
  Forall slashFree (map (λ p, if isPathParam p then "!" else p) (Split s "/")).
Proof.
  pose proof (Split_segments s) as H. induction H as [|x l Hx Hl IH]; simpl; [done|].
  constructor; [|done]. destruct (isPathParam x); [|done].
  unfold slashFree. simpl. intros Hin.
  apply elem_of_cons in Hin as [?|?%elem_of_nil]; [done..].
Qed.

Lemma sameSlot_sentinel (x y : string) :
  (if isPathParam x then "!" else x) = (if isPathParam y then "!" else y) ↔ sameSlot x y.
Proof.
  unfold sameSlot.
  destruct (isPathParam x) eqn:Hx, (isPathParam y) eqn:Hy; split.
  - intros _. left. split; by left.
  - done.
  - intros <-. left. split; [by left|by right].
  - intros [[_ [?| ->]]| <-]; [done|done|congruence].
  - intros ->. left. split; [by right|by left].
  - intros [[[?| ->] _]| ->]; [done|done|congruence].
  - intros ->. by right.
  - intros [[[?| ->] [?| ->]]| ->]; done.
Qed.

Lemma canonicalPath_sameSlot (a b : string) :
  canonicalPath a = canonicalPath b ↔ Forall2 sameSlot (Split a "/") (Split b "/").
Proof.
  unfold canonicalPath. split.
  - intros Heq. apply (f_equal (λ s, Split s "/")) in Heq.
    rewrite !Split_Join in Heq
      by (try apply canonical_segments;
          intros Hnil%(f_equal length); rewrite length_map in Hnil;
          by apply length_zero_iff_nil, Split_nonempty in Hnil).
    revert Heq. generalize (Split b "/"). induction (Split a "/") as [|x la IH];
      intros [|y lb]; simpl; try done.
    intros [= Hxy Hl]. constructor; [by apply sameSlot_sentinel|by apply IH].
  - intros Hall. f_equal.
    induction Hall as [|x y la lb Hxy Hl IH]; simpl; [done|].
    f_equal; [by apply sameSlot_sentinel|done].
Qed.

Section OverlapProofs.

Variable PointerGet : string → Swagger → string + Parameter_.

(** X2.  For two paths [a] and [b] of one method, visited in this order,
    [validateParameters] reports that [b] overlaps with [a] exactly when the
    two paths have the same number of segments and, place by place, the
    segments are equal or are both written as the sentinel (placeholders,
    or the literal segment [!]); otherwise it reports no overlap. *)
Theorem overlap_segmentwise (raw : string) (sw : Swagger)
    (paramsFor : string → string → list Parameter_) (ids : list string)
    (method a b : string) (opa opb : Operation) :
  let doc := mkDocument raw sw [(method, [(a, opa); (b, opb)])] paramsFor ids in
  (Forall2 sameSlot (Split a "/") (Split b "/") →
     overlapDiagnostics PointerGet doc = [pathOverlaps b a])
  ∧ (¬ Forall2 sameSlot (Split a "/") (Split b "/") →
     overlapDiagnostics PointerGet doc = []).
Proof.
  intros doc. unfold overlapDiagnostics. rewrite validateParameters_overlaps.
  subst doc. simpl. rewrite lookup_empty. rewrite app_nil_r.
  rewrite <- canonicalPath_sameSlot. split; intros Hab.
  - by rewrite <- Hab, lookup_insert_eq.
  - by rewrite lookup_insert_ne.
Qed.

End OverlapProofs.

Lemma overlap_segmentwise_witness :
  Forall2 sameSlot (Split "/pets/{id}/!" "/") (Split "/pets/{petId}/{x}" "/")
  ∧ overlapDiagnostics noSharedParameters
      (mkDocument "{}" (mkSwagger [])
         [("get", [("/pets/{id}/!", mkOperation "a" [] None);
                   ("/pets/{petId}/{x}", mkOperation "b" [] None)])]
         (λ _ _, []) [])
    = [pathOverlaps "/pets/{petId}/{x}" "/pets/{id}/!"].
Proof.
  assert (H : Forall2 sameSlot (Split "/pets/{id}/!" "/") (Split "/pets/{petId}/{x}" "/")).
  { change (Forall2 sameSlot [""; "pets"; "{id}"; "!"] [""; "pets"; "{petId}"; "{x}"]).
    constructor; [by right|]. constructor; [by right|].
    constructor; [left; split; by left|].
    constructor; [left; split; [by right|by left]|]. constructor. }
  split; [exact H|].
  exact (proj1 (overlap_segmentwise noSharedParameters "{}" (mkSwagger []) (λ _ _, []) []
                  "get" "/pets/{id}/!" "/pets/{petId}/{x}"
                  (mkOperation "a" [] None) (mkOperation "b" [] None)) H).
Defined.

(** ** Parameters: duplicate names and body parameters *)

Lemma repeated_nil {A : Type} `{EqDecision A} (seen l : list A) :
  repeated seen l = [] ↔ NoDup l ∧ ∀ x, x ∈ l → x ∉ seen.
Proof.
  revert seen. induction l as [|x l IH]; intros seen; simpl.
  - split; [|done]. intros _. split; [constructor|]. by intros x ?%elem_of_nil.
  - destruct (decide (x ∈ seen)) as [Hin|Hnin]; simpl.
    + split; [done|]. intros [_ Hd]. destruct (Hd x); [left|done].
    + rewrite IH, NoDup_cons. split.
      * intros [Hnd Hd]. split_and!; [|done|].
        -- intros Hx. destruct (Hd x Hx). left.
        -- intros y [->|Hy]%elem_of_cons; [done|].
           intros Hys. destruct (Hd y Hy). by right.
      * intros [[Hx Hnd] Hd]. split; [done|].
        intros y Hy [->|Hys]%elem_of_cons; [done|].
        destruct (Hd y); [by right|done].
Qed.

(** X3.  [validatePathParamPresence] returns no error exactly when every
    entry of [fromPath] is the name of an entry of [fromOperation] in
    braces, and every entry of [fromOperation], put in braces, is an entry
    of [fromPath]. *)
Theorem validatePathParamPresence_agreement (path : string) (fp fo : list string) :
  Errors (validatePathParamPresence path fp fo) = [] ↔
  (∀ l, l ∈ fp → ∃ r, r ∈ fo ∧ l = "{" +:+ r +:+ "}")
  ∧ (∀ p, p ∈ fo → "{" +:+ p +:+ "}" ∈ fp).
Proof.
  split.
  - intros Hnil. split.
    + intros l Hl.
      destruct (existsb (λ r, bool_decide (l = "{" +:+ r +:+ "}")) fo) eqn:Hex.
      * apply existsb_exists in Hex as (r & Hr & Heq). exists r.
        split; [by apply list_elem_of_In|by apply bool_decide_eq_true in Heq].
      * assert (Hin : noParameterDefinition l
                        ∈ Errors (validatePathParamPresence path fp fo)).
        { apply validatePathParamPresence_elem_of. left. exists l.
          split_and!; [done| |done].
          intros r Hr. rewrite existsb_false_iff in Hex. specialize (Hex r Hr).
          by apply bool_decide_eq_false in Hex. }
        rewrite Hnil in Hin. by apply elem_of_nil in Hin.
    + intros p Hp. destruct (decide ("{" +:+ p +:+ "}" ∈ fp)) as [?|Hno]; [done|].
      assert (Hin : notPresentInPath p path
                      ∈ Errors (validatePathParamPresence path fp fo)).
      { apply validatePathParamPresence_elem_of. right. by exists p. }
      rewrite Hnil in Hin. by apply elem_of_nil in Hin.
  - intros [Hfp Hfo]. apply elem_of_nil_inv. intros e He.
    apply validatePathParamPresence_elem_of in He
      as [(l & Hl & Hno & _)|(p & Hp & Hno & _)].
    + destruct (Hfp l Hl) as (r & Hr & Heq). by apply (Hno r).
    + by apply Hno, Hfo.
Qed.

Section ParametersMore.

Variable PointerGet : string → Swagger → string + Parameter_.

Lemma resolvedParameters_cons sw ppr pr prs :
  resolveParameter PointerGet sw ppr = inr pr →
  resolvedParameters PointerGet sw (ppr :: prs) = pr :: resolvedParameters PointerGet sw prs.
Proof. intros H. unfold resolvedParameters. simpl. by rewrite H. Qed.

Lemma validateParameters_unique_repeated sw opID prs
    (ptypes : gmap string (gset string)) (seen : list (string * string)) res :
  (∀ i n, n ∈ default ∅ (ptypes !! i) ↔ (i, n) ∈ seen) →
  Forall (resolves PointerGet sw) prs →
  Errors (validateParameters_unique PointerGet sw opID prs ptypes res)
  = Errors res
    ++ ((λ q : string * string, duplicateParameterName q.2 q.1 opID)
          <$> repeated seen ((λ pr, (pIn pr, pName pr))
                               <$> resolvedParameters PointerGet sw prs)).
Proof.
  revert ptypes seen res. induction prs as [|ppr prs IH]; intros ptypes seen res Hrep Hall.
  - simpl. by rewrite app_nil_r.
  - apply Forall_cons in Hall as [[pr Hpr] Hall].
    rewrite (resolvedParameters_cons _ _ _ _ Hpr). simpl.
    unfold resolveParameter in Hpr. rewrite Hpr.
    rewrite (IH _ ((pIn pr, pName pr) :: seen)); [|clear IH|done].
    + destruct (decide (pName pr ∈ default ∅ (ptypes !! pIn pr))) as [Hin|Hnin].
      * rewrite decide_True by by apply Hrep. simpl. by rewrite <- app_assoc.
      * rewrite decide_False by (by rewrite <- Hrep). done.
    + intros i n. rewrite elem_of_cons.
      destruct (decide (i = pIn pr)) as [->|Hne].
      * rewrite lookup_insert_eq. simpl. rewrite elem_of_union, elem_of_singleton, Hrep.
        split; [intros [->|?]; auto|intros [[= ->]|?]; auto].
      * rewrite lookup_insert_ne by done. rewrite Hrep.
        split; [auto|intros [[= -> _]|?]; done].
Qed.

(** X4.  For the parameters of an operation whose references all resolve,
    the loop over [op.Parameters] adds one "duplicate parameter name" error
    for every parameter whose [(in, name)] pair occurred before it in the
    list, in this order and nothing else; it adds no error exactly when the
    pairs are pairwise different. *)
Theorem validateParameters_unique_duplicates (sw : Swagger) (opID : string)
    (prs : list Parameter_) :
  Forall (resolves PointerGet sw) prs →
  let pairs := (λ pr, (pIn pr, pName pr)) <$> resolvedParameters PointerGet sw prs in
  let errs := Errors (validateParameters_unique PointerGet sw opID prs ∅ new_Result) in
  errs = ((λ q : string * string, duplicateParameterName q.2 q.1 opID) <$> repeated [] pairs)
  ∧ (errs = [] ↔ NoDup pairs).
Proof.
  intros Hall pairs errs.
  assert (Herrs : errs = ((λ q : string * string, duplicateParameterName q.2 q.1 opID)
                            <$> repeated [] pairs)).
  { unfold errs. rewrite (validateParameters_unique_repeated _ _ _ _ []); [done| |done].
    intros i n. rewrite lookup_empty. simpl. split; [by intros ?%elem_of_empty|].
    by intros ?%elem_of_nil. }
  split; [done|]. rewrite Herrs. split.
  - intros Hnil%fmap_nil_inv. by apply repeated_nil in Hnil as [? _].
  - intros Hnd. assert (repeated [] pairs = []) as ->; [|done].
    apply repeated_nil. split; [done|]. by intros x _ ?%elem_of_nil.
Qed.

Lemma validateParameters_body_zip sw opID prs first names res :
  Forall (resolves PointerGet sw) prs →
  Errors (validateParameters_body PointerGet sw opID prs first names res).2
  = Errors res
    ++ omap (λ pc : string * string,
               if decide (pc.1 ≠ "")
               then Some (moreThanOneBodyParam opID pc.1 pc.2) else None)
            (zip (first :: (pName <$> filter (λ pr, pIn pr = "body")
                                        (resolvedParameters PointerGet sw prs)))
                 (pName <$> filter (λ pr, pIn pr = "body")
                              (resolvedParameters PointerGet sw prs))).
Proof.
  revert first names res. induction prs as [|ppr prs IH]; intros first names res Hall.
  - simpl. by rewrite app_nil_r.
  - apply Forall_cons in Hall as [[pr Hpr] Hall].
    rewrite (resolvedParameters_cons _ _ _ _ Hpr). simpl.
    unfold resolveParameter in Hpr. rewrite Hpr.
    rewrite filter_cons.
    destruct (decide (pIn pr = "body")) as [Hb|Hb].
    + rewrite IH by done. simpl.
      destruct (decide (first ≠ "")); simpl; [by rewrite <- app_assoc|done].
    + by rewrite IH.
Qed.

(** X5.  For the parameters of an operation whose references all resolve,
    the loop over [ParamsFor(method, path)] adds one "more than 1 body
    param" error for every body parameter that follows a body parameter
    with a non-empty name: the error names the body parameter just before
    as accepted and the current one as dropped.  With at most one body
    parameter it adds none; when no body parameter has the empty name it
    adds one error per body parameter after the first. *)
Theorem validateParameters_body_consecutive (sw : Swagger) (opID : string)
    (prs : list Parameter_) :
  Forall (resolves PointerGet sw) prs →
  let bodies := pName <$> filter (λ pr, pIn pr = "body")
                            (resolvedParameters PointerGet sw prs) in
  let errs := Errors (validateParameters_body PointerGet sw opID prs "" [] new_Result).2 in
  errs = omap (λ pc : string * string,
                 if decide (pc.1 ≠ "")
                 then Some (moreThanOneBodyParam opID pc.1 pc.2) else None)
              (zip bodies (tail bodies))
  ∧ ((length bodies ≤ 1)%nat → errs = [])
  ∧ (Forall (λ b, b ≠ "") bodies → length errs = (length bodies - 1)%nat).
Proof.
  intros Hall bodies errs.
  assert (Herrs : errs = omap (λ pc : string * string,
                                 if decide (pc.1 ≠ "")
                                 then Some (moreThanOneBodyParam opID pc.1 pc.2) else None)
                              (zip bodies (tail bodies))).
  { unfold errs. rewrite validateParameters_body_zip by done. fold bodies. simpl.
    destruct bodies as [|b bodies']; simpl; [done|].
    done. }
  split; [done|]. rewrite Herrs. split.
  - intros Hlen. destruct bodies as [|b [|b' bodies']]; simpl in *; [done|done|lia].
  - clear. intros Hne.
    assert (Hgen : ∀ l b, b ≠ "" → Forall (λ b, b ≠ "") l →
              length (omap (λ pc : string * string,
                              if decide (pc.1 ≠ "")
                              then Some (moreThanOneBodyParam opID pc.1 pc.2) else None)
                           (zip (b :: l) l)) = length l).
    { induction l as [|b' l IH]; intros b Hb Hl; [done|].
      apply Forall_cons in Hl as [Hb' Hl].
      change (zip (b :: b' :: l) (b' :: l)) with ((b, b') :: zip (b' :: l) l).
      cbn [omap list_omap fst snd]. rewrite decide_True by done.
      cbn [length]. f_equal. by apply IH. }
    destruct bodies as [|b bodies']; [done|]. apply Forall_cons in Hne as [Hb Hne].
    cbn [tail]. rewrite Hgen by done. cbn [length]. lia.
Qed.

Lemma validateParameters_paths_errors doc method pi knownPaths res e :
  e ∈ Errors (foldl (λ '(knownPaths, res) '(path, op),
                       validateParameters_path PointerGet doc method path op knownPaths res)
                    (knownPaths, res) pi).2 →
  e ∈ Errors res ∨ isOverlap e
  ∨ ∃ path op, (path, op) ∈ pi ∧ e ∈ operationErrors PointerGet doc method path op.
Proof.
  revert knownPaths res. induction pi as [|[path op] pi IH]; intros knownPaths res.
  - simpl. by left.
  - simpl foldl. rewrite validateParameters_path_spec. intros He.
    apply IH in He as [He|[He|(path' & op' & Hin & He)]].
    + simpl in He. rewrite !elem_of_app in He. destruct He as [He|[He|He]].
      * by left.
      * right. left. destruct (knownPaths !! canonicalPath path) as [orig|];
          [|by apply elem_of_nil in He].
        by apply list_elem_of_singleton in He as ->.
      * right. right. exists path, op. split; [by left|done].
    + right. by left.
    + right. right. exists path', op'. split; [by right|done].
Qed.

(** X6.  The errors of [validateParameters] are exactly its overlap
    diagnostics and, for every operation, the errors of the two loops over
    its parameters and of the presence check of its path parameters:
    nothing else is reported, and no error of an operation is lost. *)
Theorem validateParameters_errors (doc : Document) (e : error) :
  e ∈ Errors (validateParameters PointerGet doc) ↔
  e ∈ overlapDiagnostics PointerGet doc
  ∨ ∃ method pi path op,
      (method, pi) ∈ Operations doc ∧ (path, op) ∈ pi
      ∧ e ∈ operationErrors PointerGet doc method path op.
Proof.
  split.
  - intros He.
    assert (Hgen : ∀ ops res,
      e ∈ Errors (foldl (λ res '(method, pi),
                           validateParameters_method PointerGet doc method pi res) res ops) →
      e ∈ Errors res ∨ isOverlap e
      ∨ ∃ method pi path op, (method, pi) ∈ ops ∧ (path, op) ∈ pi
                             ∧ e ∈ operationErrors PointerGet doc method path op).
    { induction ops as [|[method pi] ops IH]; intros res; simpl; [by left|].
      intros Hin. apply IH in Hin as [Hin|[?|(method' & pi' & path & op & Hm & ?)]].
      - unfold validateParameters_method in Hin.
        apply validateParameters_paths_errors in Hin as [?|[?|(path & op & ? & ?)]].
        + by left.
        + right. by left.
        + right. right. exists method, pi, path, op. split; [by left|done].
      - right. by left.
      - right. right. exists method', pi', path, op. split; [by right|done]. }
    destruct (Hgen _ _ He) as [Hnil|[Hov|?]].
    + by apply elem_of_nil in Hnil.
    + left. unfold overlapDiagnostics. by apply list_elem_of_filter.
    + by right.
  - intros [Hov|(method & pi & path & op & Hm & Hp & He)].
    + unfold overlapDiagnostics in Hov. by apply list_elem_of_filter in Hov as [_ ?].
    + by eapply validateParameters_incl.
Qed.

End ParametersMore.

Lemma validateParameters_unique_duplicates_witness :
  Forall (resolves noSharedParameters (mkSwagger []))
    [queryParam "id"; pathParam "id"; queryParam "id"]
  ∧ Errors (validateParameters_unique noSharedParameters (mkSwagger []) "listPets"
              [queryParam "id"; pathParam "id"; queryParam "id"] ∅ new_Result)
    = [duplicateParameterName "id" "query" "listPets"].
Proof.
  assert (H : Forall (resolves noSharedParameters (mkSwagger []))
                [queryParam "id"; pathParam "id"; queryParam "id"]).
  { repeat constructor; by eexists. }
  split; [exact H|].
  exact (proj1 (validateParameters_unique_duplicates noSharedParameters (mkSwagger [])
                  "listPets" [queryParam "id"; pathParam "id"; queryParam "id"] H)).
Defined.

Lemma validateParameters_body_consecutive_witness :
  Forall (resolves noSharedParameters (mkSwagger []))
    [bodyParam "a" emptySchema; queryParam "q"; bodyParam "b" emptySchema;
     bodyParam "c" emptySchema]
  ∧ Errors (validateParameters_body noSharedParameters (mkSwagger []) "addPet"
              [bodyParam "a" emptySchema; queryParam "q"; bodyParam "b" emptySchema;
               bodyParam "c" emptySchema] "" [] new_Result).2
    = [moreThanOneBodyParam "addPet" "a" "b"; moreThanOneBodyParam "addPet" "b" "c"].
Proof.
  assert (H : Forall (resolves noSharedParameters (mkSwagger []))
                [bodyParam "a" emptySchema; queryParam "q"; bodyParam "b" emptySchema;
                 bodyParam "c" emptySchema]).
  { repeat constructor; by eexists. }
  split; [exact H|].
  exact (proj1 (validateParameters_body_consecutive noSharedParameters (mkSwagger [])
                  "addPet" _ H)).
Defined.

(** ** Definitions: the two walks in closed form *)

(** Equalities and membership of sets of names, by membership. *)
Ltac set_by_membership :=
  try (apply set_eq; intros ?);
  rewrite ?elem_of_union, ?elem_of_singleton, ?elem_of_list_to_set,
    ?elem_of_cons, ?elem_of_app, ?elem_of_reverse, ?elem_of_nil, ?elem_of_empty;
  intuition (subst; auto).

Lemma leafProperties_unfold (sch : Schema) :
  leafProperties sch
  = match AllOf sch with
    | [] => (Properties sch).*1
    | _ :: _ => flat_map leafProperties (AllOf sch)
    end.
Proof. by destruct sch. Qed.

Lemma repeated_ext {A : Type} `{EqDecision A} (seen seen' l : list A) :
  (∀ x, x ∈ seen ↔ x ∈ seen') → repeated seen l = repeated seen' l.
Proof.
  revert seen seen'. induction l as [|x l IH]; intros seen seen' Heq; simpl; [done|].
  f_equal.
  - destruct (decide (x ∈ seen)) as [Hx|Hx]; [by rewrite decide_True by by apply Heq|].
    by rewrite decide_False by by rewrite <- Heq.
  - apply IH. intros y. rewrite !elem_of_cons, Heq. done.
Qed.

Lemma repeated_app {A : Type} `{EqDecision A} (seen l1 l2 : list A) :
  repeated seen (l1 ++ l2) = repeated seen l1 ++ repeated (reverse l1 ++ seen) l2.
Proof.
  revert seen. induction l1 as [|x l1 IH]; intros seen; simpl; [done|].
  rewrite IH, <- app_assoc. do 2 f_equal.
  by rewrite reverse_cons, <- app_assoc.
Qed.

Lemma validateSchemaPropertyNames_properties_repeated (schn : string)
    (props : list (string * Schema)) (dups : list dupProp) (knowns : gset string)
    (seen : list string) :
  (∀ x, x ∈ seen ↔ x ∈ knowns) →
  validateSchemaPropertyNames_properties schn props dups knowns
  = (dups ++ ((λ k, mkDupProp k schn) <$> repeated seen props.*1),
     knowns ∪ list_to_set props.*1).
Proof.
  unfold validateSchemaPropertyNames_properties.
  revert dups knowns seen. induction props as [|[k s] props IH];
    intros dups knowns seen Hseen; simpl.
  - rewrite app_nil_r. f_equal. set_by_membership.
  - destruct (decide (k ∈ knowns)) as [Hk|Hk].
    + rewrite decide_True by by apply Hseen.
      rewrite (IH _ _ (k :: seen));
        [|intros x; rewrite elem_of_cons, Hseen; set_by_membership].
      simpl. rewrite <- app_assoc. f_equal. set_by_membership.
    + rewrite decide_False by by rewrite Hseen.
      rewrite (IH _ _ (k :: seen));
        [|intros x; rewrite elem_of_cons, Hseen; set_by_membership].
      simpl. f_equal. set_by_membership.
Qed.

Lemma validateSchemaPropertyNames_allOf_repeated
    (rec : Schema → gset string → Res (list dupProp * gset string))
    (nm : string) (chlds : list Schema) :
  Forall (λ chld, ∀ knowns seen, (∀ x, x ∈ seen ↔ x ∈ knowns) →
            rec chld knowns
            = Ok ((λ k, mkDupProp k nm) <$> repeated seen (leafProperties chld),
                  knowns ∪ list_to_set (leafProperties chld))) chlds →
  ∀ dups knowns seen, (∀ x, x ∈ seen ↔ x ∈ knowns) →
    validateSchemaPropertyNames_allOf rec chlds dups knowns
    = Ok (dups ++ ((λ k, mkDupProp k nm)
                     <$> repeated seen (flat_map leafProperties chlds)),
          knowns ∪ list_to_set (flat_map leafProperties chlds)).
Proof.
  induction 1 as [|chld chlds Hc _ IH]; intros dups knowns seen Hseen; simpl.
  - rewrite app_nil_r. do 2 f_equal. set_by_membership.
  - rewrite (Hc _ _ Hseen). simpl.
    rewrite (IH _ _ (reverse (leafProperties chld) ++ seen)).
    + rewrite repeated_app, fmap_app, <- app_assoc, list_to_set_app_L. do 2 f_equal.
      set_by_membership.
    + intros x. rewrite elem_of_app, elem_of_reverse, Hseen. set_by_membership.
Qed.

Section DefinitionsMore.

Variable ResolveRef : Swagger → string → string + Schema.

Lemma validateSchemaPropertyNames_inline_seen sw (sch : Schema) :
  firstRef sch = None →
  ∀ fuel nm knowns seen,
    (∀ x, x ∈ seen ↔ x ∈ knowns) → (allOfDepth sch ≤ fuel)%nat →
    validateSchemaPropertyNames ResolveRef fuel sw nm sch knowns
    = Ok ((λ k, mkDupProp k nm) <$> repeated seen (leafProperties sch),
          knowns ∪ list_to_set (leafProperties sch)).
Proof.
  induction sch as [sch IH] using Schema_allOf_ind.
  intros Hfirst fuel nm knowns seen Hseen Hfuel.
  rewrite firstRef_unfold in Hfirst.
  destruct fuel as [|fuel]; [rewrite allOfDepth_unfold in Hfuel; lia|].
  simpl. destruct (Ref sch) as [ref|] eqn:Href; [done|]. simpl.
  rewrite leafProperties_unfold.
  destruct (decide (0 < length (AllOf sch))%nat) as [Hlen|Hlen].
  - destruct (AllOf sch) as [|c cs] eqn:Hall; [simpl in Hlen; lia|].
    rewrite (validateSchemaPropertyNames_allOf_repeated _ nm _ ) with (seen := seen);
      [done| |done].
    apply firstSome_None in Hfirst.
    rewrite Forall_forall in IH, Hfirst. apply Forall_forall. intros chld Hin kn sn Hsn.
    apply IH; [done|by apply Hfirst|done|].
    assert (chld ∈ AllOf sch) as Hin' by by rewrite Hall.
    apply allOfDepth_child in Hin'. lia.
  - destruct (AllOf sch) as [|c cs]; [|simpl in Hlen; lia].
    by rewrite (validateSchemaPropertyNames_properties_repeated _ _ _ _ seen).
Qed.

(** X7.  On a schema whose [allOf] spine is written in place (no [$ref]),
    the property-name walk returns; it reads the properties of the schemas
    without [allOf], depth first, and not those of a schema that has an
    [allOf] list; every name read ends up in [knowns], and the duplicates
    are the occurrences of a name that was in [knowns] or was read before,
    each under the name of the definition the walk started from.  It finds
    none exactly when the names read are pairwise different and new. *)
Theorem validateSchemaPropertyNames_inline (sw : Swagger) (fuel : nat) (nm : string)
    (sch : Schema) (knowns : gset string) :
  firstRef sch = None → (allOfDepth sch ≤ fuel)%nat →
  ∃ dups,
    validateSchemaPropertyNames ResolveRef fuel sw nm sch knowns
    = Ok (dups, knowns ∪ list_to_set (leafProperties sch))
    ∧ dups = ((λ k, mkDupProp k nm) <$> repeated (elements knowns) (leafProperties sch))
    ∧ (dups = [] ↔ NoDup (leafProperties sch)
                    ∧ ∀ x, x ∈ leafProperties sch → x ∉ knowns).
Proof.
  intros Hfirst Hfuel. eexists. split; [|split; [reflexivity|]].
  - apply validateSchemaPropertyNames_inline_seen; [done| |done].
    intros x. apply elem_of_elements.
  - split.
    + intros Hnil%fmap_nil_inv. apply repeated_nil in Hnil as [Hnd Hd].
      split; [done|]. intros x Hx Hk. by apply (Hd x Hx), elem_of_elements.
    + intros [Hnd Hd]. assert (repeated (elements knowns) (leafProperties sch) = []) as ->;
        [|done].
      apply repeated_nil. split; [done|]. intros x Hx Hk%elem_of_elements. by apply (Hd x).
Qed.

(** X8.  Started under a name that is not in [knowns], the ancestry walk
    goes down the [allOf] lists written in place, depth first, as far as the
    first [$ref]: it returns nothing and leaves [knowns] as it is when there
    is none; it returns that reference, which it has added to [knowns],
    when the reference resolves; it panics with the error of the resolver
    when it does not. *)
Theorem validateCircularAncestry_first_reference (sw : Swagger) (fuel : nat)
    (nm : string) (sch : Schema) (knowns : gset string) :
  nm ∉ knowns → (allOfDepth sch ≤ fuel)%nat →
  validateCircularAncestry ResolveRef fuel sw nm sch knowns
  = match firstRef sch with
    | None => Ok ([], knowns)
    | Some ref =>
        match ResolveRef sw ref with
        | inl err => Panicked (PanicError err)
        | inr _ => Ok ([ref], {[ref]} ∪ knowns)
        end
    end.
Proof. intros Hnm Hfuel. by rewrite validateCircularAncestry_spec. Qed.

End DefinitionsMore.

(** ** Definitions: what the loop over the definitions reports *)

Lemma validateSchemaPropertyNames_allOf_mono
    (rec rec' : Schema → gset string → Res (list dupProp * gset string))
    (chlds : list Schema) :
  (∀ chld knowns r, rec chld knowns = Ok r → rec' chld knowns = Ok r) →
  ∀ dups knowns r,
    validateSchemaPropertyNames_allOf rec chlds dups knowns = Ok r →
    validateSchemaPropertyNames_allOf rec' chlds dups knowns = Ok r.
Proof.
  intros Hrec. induction chlds as [|chld chlds IH]; intros dups knowns r; simpl; [done|].
  destruct (rec chld knowns) as [[found knowns']| |] eqn:Hc; simpl; [|done..].
  rewrite (Hrec _ _ _ Hc). simpl. apply IH.
Qed.

Lemma validateCircularAncestry_allOf_nothing
    (rec : Schema → gset string → Res (list string * gset string))
    (chlds : list Schema) (knowns knowns' : gset string) :
  Forall (λ chld, ∀ kn, rec chld knowns = Ok ([], kn) →
            firstRef chld = None ∧ kn = knowns) chlds →
  validateCircularAncestry_allOf rec chlds [] knowns = Ok ([], knowns') →
  Forall (λ chld, firstRef chld = None) chlds ∧ knowns' = knowns.
Proof.
  induction 1 as [|chld chlds Hc _ IH]; simpl.
  - intros [= <-]. by split.
  - destruct (rec chld knowns) as [[found kn]| |] eqn:Hr; simpl; [|done..].
    destruct (decide (0 < length found)%nat) as [Hlen|Hlen].
    + intros [= -> _]. simpl in Hlen. lia.
    + destruct found as [|x found]; [|simpl in Hlen; lia].
      destruct (Hc _ eq_refl) as [Hfirst ->]. intros Hrest.
      destruct (IH Hrest) as [Hall ->]. split; [by constructor|done].
Qed.

Section DefinitionsLoop.

Variable ResolveRef : Swagger → string → string + Schema.

(** A budget that was enough is enough when it grows. *)
Lemma validateSchemaPropertyNames_mono sw (fuel : nat) :
  ∀ fuel' nm sch knowns r,
    (fuel ≤ fuel')%nat →
    validateSchemaPropertyNames ResolveRef fuel sw nm sch knowns = Ok r →
    validateSchemaPropertyNames ResolveRef fuel' sw nm sch knowns = Ok r.
Proof.
  induction fuel as [|fuel IH]; intros fuel' nm sch knowns r Hle; [done|].
  destruct fuel' as [|fuel']; [lia|]. simpl.
  destruct (Ref sch) as [ref|]; [destruct (ResolveRef sw ref) as [err|reso]; [done|]|];
    simpl; (destruct (decide (0 < length (AllOf _))%nat); [|done]);
    apply validateSchemaPropertyNames_allOf_mono; intros chld kn r'; apply IH; lia.
Qed.

(** Whatever the budget, the ancestry walk finds nothing only below a schema
    whose [allOf] spine holds no reference. *)
Lemma validateCircularAncestry_nothing sw (fuel : nat) :
  ∀ nm sch knowns knowns',
    nm ∉ knowns →
    validateCircularAncestry ResolveRef fuel sw nm sch knowns = Ok ([], knowns') →
    firstRef sch = None ∧ knowns' = knowns.
Proof.
  induction fuel as [|fuel IH]; intros nm sch knowns knowns' Hnm; [done|].
  simpl. rewrite firstRef_unfold. destruct (Ref sch) as [ref|].
  - destruct (ResolveRef sw ref) as [err|reso]; simpl; [done|].
    destruct (decide (ref ∈ {[ref]} ∪ knowns)) as [_|Hn]; [done|].
    destruct Hn. apply elem_of_union. left. by apply elem_of_singleton.
  - simpl. destruct (decide (nm ∈ knowns)) as [?|_]; [done|]. simpl.
    destruct (decide (0 < length (AllOf sch))%nat) as [Hlen|Hlen].
    + intros Hwalk. apply validateCircularAncestry_allOf_nothing in Hwalk as [Hall ->].
      * split; [|done]. by apply firstSome_None.
      * apply Forall_forall. intros chld _ kn. by apply IH.
    + intros [= <-]. split; [|done]. by destruct (AllOf sch); [|simpl in Hlen; lia].
Qed.

Lemma validateCircularAncestry_allOf_bound
    (rec : Schema → gset string → Res (list string * gset string))
    (chlds : list Schema) :
  (∀ chld kn found kn', rec chld kn = Ok (found, kn') →
     (length found ≤ 1)%nat ∧ kn ⊆ kn' ∧ ∀ a, a ∈ found → a ∈ kn') →
  ∀ knowns ancs knowns',
    validateCircularAncestry_allOf rec chlds [] knowns = Ok (ancs, knowns') →
    (length ancs ≤ 1)%nat ∧ knowns ⊆ knowns' ∧ ∀ a, a ∈ ancs → a ∈ knowns'.
Proof.
  intros Hrec. induction chlds as [|chld chlds IH]; intros knowns ancs knowns'; simpl.
  - intros [= <- <-]. split; [simpl; lia|]. split; [done|]. by intros a ?%elem_of_nil.
  - destruct (rec chld knowns) as [[found kn1]| |] eqn:Hr; simpl; [|done..].
    destruct (Hrec _ _ _ _ Hr) as (Hlen & Hsub & Hin).
    destruct (decide (0 < length found)%nat) as [Hpos|Hpos].
    + by intros [= <- <-].
    + destruct found as [|a found]; [|simpl in Hpos; lia].
      intros Hrest. destruct (IH _ _ _ Hrest) as (? & ? & ?).
      split; [done|]. split; [by etrans|done].
Qed.

(** X9.  Whatever the schema, the names in [knowns] and the budget, when the
    ancestry walk returns it returns at most one ancestor, which is then in
    [knowns], and [knowns] has only grown: the "circular ancestry" error of
    a definition always lists exactly one pointer. *)
Theorem validateCircularAncestry_at_most_one (sw : Swagger) (fuel : nat) (nm : string)
    (sch : Schema) (knowns : gset string) (ancs : list string) (knowns' : gset string) :
  validateCircularAncestry ResolveRef fuel sw nm sch knowns = Ok (ancs, knowns') →
  (length ancs ≤ 1)%nat ∧ knowns ⊆ knowns' ∧ ∀ a, a ∈ ancs → a ∈ knowns'.
Proof.
  revert nm sch knowns ancs knowns'.
  induction fuel as [|fuel IH]; intros nm sch knowns ancs knowns'; [done|].
  simpl. destruct (Ref sch) as [ref|].
  - destruct (ResolveRef sw ref) as [err|reso]; simpl; [done|].
    destruct (decide (ref ∈ {[ref]} ∪ knowns)) as [_|Hn].
    + simpl. intros [= <- <-]. split; [simpl; lia|].
      split; [apply union_subseteq_r|].
      intros a ->%list_elem_of_singleton. apply elem_of_union. left.
      by apply elem_of_singleton.
    + destruct Hn. apply elem_of_union. left. by apply elem_of_singleton.
  - simpl. destruct (decide (nm ∈ knowns)) as [Hnm|Hnm]; simpl.
    + intros [= <- <-]. split; [simpl; lia|]. split; [done|].
      by intros a ->%list_elem_of_singleton.
    + destruct (decide (0 < length (AllOf sch))%nat).
      * apply validateCircularAncestry_allOf_bound. intros chld kn found kn'. apply IH.
      * intros [= <- <-]. split; [simpl; lia|]. split; [done|].
        by intros a ?%elem_of_nil.
Qed.

Lemma validateDuplicatePropertyNames_loop_duplicates (fuel : nat) (sw : Swagger)
    (defs : list (string * Schema)) :
  ∀ res res' k pns,
    validateDuplicatePropertyNames_loop ResolveRef fuel sw defs res = Ok res' →
    duplicateProperties k pns ∈ Errors res' →
    duplicateProperties k pns ∈ Errors res
    ∨ ∃ sch, (k, sch) ∈ defs
             ∧ length (AllOf sch) ≠ 0%nat
             ∧ firstRef sch = None
             ∧ pns = ((λ x, k +:+ "." +:+ x) <$> repeated [] (leafProperties sch))
             ∧ pns ≠ [].
Proof.
  induction defs as [|[d sch] defs IH]; intros res res' k pns; simpl.
  - intros [= <-]. by left.
  - assert (Hrest : ∀ r,
      validateDuplicatePropertyNames_loop ResolveRef fuel sw defs r = Ok res' →
      duplicateProperties k pns ∈ Errors res' →
      (duplicateProperties k pns ∈ Errors r → duplicateProperties k pns ∈ Errors res
         ∨ ∃ sch0, (k, sch0) ∈ (d, sch) :: defs
                   ∧ length (AllOf sch0) ≠ 0%nat
                   ∧ firstRef sch0 = None
                   ∧ pns = ((λ x, k +:+ "." +:+ x) <$> repeated [] (leafProperties sch0))
                   ∧ pns ≠ []) →
      duplicateProperties k pns ∈ Errors res
      ∨ ∃ sch0, (k, sch0) ∈ (d, sch) :: defs
                ∧ length (AllOf sch0) ≠ 0%nat
                ∧ firstRef sch0 = None
                ∧ pns = ((λ x, k +:+ "." +:+ x) <$> repeated [] (leafProperties sch0))
                ∧ pns ≠ []).
    { intros r Hloop Hin Hr. destruct (IH _ _ _ _ Hloop Hin) as [Hold|(sch0 & ? & ?)].
      - by apply Hr.
      - right. exists sch0. split; [by right|done]. }
    destruct (decide (length (AllOf sch) = 0)%nat) as [Hskip|Hall].
    { intros Hloop Hin. apply (Hrest _ Hloop Hin). by left. }
    destruct (validateCircularAncestry ResolveRef fuel sw d sch _)
      as [[ancs kn]| |] eqn:Hanc; simpl; [|done..].
    destruct (decide (0 < length ancs)%nat) as [Hlen|Hlen].
    { intros [= <-]. simpl. rewrite elem_of_app.
      intros [Hin|Hin]; [by left|]. by apply list_elem_of_singleton in Hin. }
    destruct ancs as [|a ancs]; [|simpl in Hlen; lia].
    apply validateCircularAncestry_nothing in Hanc as [Hfirst _];
      [|rewrite elem_of_singleton; apply definition_pointer_fresh].
    destruct (validateSchemaPropertyNames ResolveRef fuel sw d sch ∅)
      as [[dups kn']| |] eqn:Hdups; simpl; [|done..].
    apply (validateSchemaPropertyNames_mono _ _ (Nat.max fuel (allOfDepth sch)))
      in Hdups; [|lia].
    rewrite (validateSchemaPropertyNames_inline_seen ResolveRef sw sch Hfirst _ _ _ [])
      in Hdups; [|intros x; split; [by intros ?%elem_of_nil|by intros ?%elem_of_empty]|lia].
    injection Hdups as <- _.
    destruct (decide (0 < length _)%nat) as [Hd|Hd].
    + intros Hloop Hin. apply (Hrest _ Hloop Hin). simpl. rewrite elem_of_app.
      intros [Hold|Hnew]; [by left|]. right.
      apply list_elem_of_singleton in Hnew. injection Hnew as -> ->.
      exists sch. split; [left|]. split; [done|]. split; [done|].
      rewrite <- list_fmap_compose. split; [done|].
      intros Hnil%fmap_nil_inv. rewrite Hnil in Hd. simpl in Hd. lia.
    + intros Hloop Hin. apply (Hrest _ Hloop Hin). by left.
Qed.

(** X10.  [validateDuplicatePropertyNames] reports duplicate properties
    only for a definition whose [allOf] spine is written in place: whenever
    it returns a result with a "contains duplicate properties" error for
    the definition [k], some definition [k] has a non-empty [allOf] without
    any [$ref] in its spine, and the names listed are its repeated property
    names, each as ["k.<name>"].  A definition that inherits through a
    [$ref] never gets this error. *)
Theorem duplicate_properties_only_inline (fuel : nat) (doc : Document) (res : Result)
    (k : string) (pns : list string) :
  validateDuplicatePropertyNames ResolveRef fuel doc = Ok res →
  duplicateProperties k pns ∈ Errors res →
  ∃ sch, (k, sch) ∈ Definitions (Spec doc)
         ∧ length (AllOf sch) ≠ 0%nat
         ∧ firstRef sch = None
         ∧ pns = ((λ x, k +:+ "." +:+ x) <$> repeated [] (leafProperties sch))
         ∧ pns ≠ [].
Proof.
  unfold validateDuplicatePropertyNames. intros Hloop Hin.
  destruct (validateDuplicatePropertyNames_loop_duplicates _ _ _ _ _ _ _ Hloop Hin)
    as [Hold|?]; [|done].
  by apply elem_of_nil in Hold.
Qed.

Lemma validateDuplicatePropertyNames_loop_inline (fuel : nat) (sw : Swagger)
    (defs : list (string * Schema)) (res : Result) :
  Forall (λ def : string * Schema,
            firstRef def.2 = None ∧ (allOfDepth def.2 ≤ fuel)%nat) defs →
  validateDuplicatePropertyNames_loop ResolveRef fuel sw defs res
  = Ok (AddErrors res (inlineDuplicates defs)).
Proof.
  intros Hall. revert res. induction Hall as [|[k sch] defs [Hfirst Hfuel] _ IH];
    intros res; simpl in *.
  - by rewrite AddErrors_nil.
  - destruct (decide (length (AllOf sch) = 0)%nat) as [Hskip|Hne].
    + rewrite decide_True by by left. apply IH.
    + rewrite validateCircularAncestry_spec, Hfirst;
        [|rewrite elem_of_singleton; apply definition_pointer_fresh|done].
      simpl.
      rewrite (validateSchemaPropertyNames_inline_seen ResolveRef sw sch Hfirst _ _ _ []);
        [|intros x; split; [by intros ?%elem_of_nil|by intros ?%elem_of_empty]|done].
      simpl. rewrite length_fmap.
      destruct (decide (0 < length (repeated [] (leafProperties sch)))%nat) as [Hd|Hd].
      * rewrite decide_False by lia. rewrite IH, AddErrors_AddErrors. simpl.
        by rewrite <- list_fmap_compose.
      * rewrite decide_True by (right; lia). apply IH.
Qed.

(** X11.  On a document in which no definition has a [$ref] in its [allOf]
    spine, [validateDuplicatePropertyNames] returns, with a budget that
    covers the depth of the [allOf] lists: it reports no circular ancestry,
    and one "contains duplicate properties" error for each definition with
    a non-empty [allOf] in which a property name is read again, in the
    order of the definitions. *)
Theorem validateDuplicatePropertyNames_inline (fuel : nat) (doc : Document) :
  Forall (λ def : string * Schema,
            firstRef def.2 = None ∧ (allOfDepth def.2 ≤ fuel)%nat)
         (Definitions (Spec doc)) →
  validateDuplicatePropertyNames ResolveRef fuel doc
  = Ok (mkResult (inlineDuplicates (Definitions (Spec doc)))).
Proof.
  intros Hall. unfold validateDuplicatePropertyNames.
  by rewrite validateDuplicatePropertyNames_loop_inline.
Qed.

End DefinitionsLoop.

Lemma validateCircularAncestry_first_reference_witness :
  ¬ ("Cat" ∈ ({["#/definitions/Cat"]} : gset string))
  ∧ (allOfDepth catSchema ≤ 2)%nat
  ∧ validateCircularAncestry resolveDefinitions 2 (Spec petsDoc) "Cat" catSchema
      {["#/definitions/Cat"]}
    = Ok (["#/definitions/Pet"], {["#/definitions/Pet"]} ∪ {["#/definitions/Cat"]}).
Proof.
  assert (H1 : "Cat" ∉ ({["#/definitions/Cat"]} : gset string)).
  { by intros ?%elem_of_singleton. }
  assert (H2 : (allOfDepth catSchema ≤ 2)%nat) by (simpl; lia).
  split; [exact H1|]. split; [exact H2|].
  exact (validateCircularAncestry_first_reference resolveDefinitions (Spec petsDoc) 2
           "Cat" catSchema {["#/definitions/Cat"]} H1 H2).
Defined.

Lemma validateSchemaPropertyNames_inline_witness :
  firstRef (twiceSchema "id") = None
  ∧ (allOfDepth (twiceSchema "id") ≤ 2)%nat
  ∧ ∃ dups,
      validateSchemaPropertyNames resolveDefinitions 2 (Spec twoDuplicatesDoc) "A"
        (twiceSchema "id") ∅
      = Ok (dups, ∅ ∪ list_to_set (leafProperties (twiceSchema "id")))
      ∧ dups = [mkDupProp "id" "A"]
      ∧ (dups = [] ↔ NoDup (leafProperties (twiceSchema "id"))
                      ∧ ∀ x, x ∈ leafProperties (twiceSchema "id") → x ∉ (∅ : gset string)).
Proof.
  assert (H1 : firstRef (twiceSchema "id") = None) by reflexivity.
  assert (H2 : (allOfDepth (twiceSchema "id") ≤ 2)%nat) by (simpl; lia).
  split; [exact H1|]. split; [exact H2|].
  exact (validateSchemaPropertyNames_inline resolveDefinitions (Spec twoDuplicatesDoc) 2
           "A" (twiceSchema "id") ∅ H1 H2).
Defined.

Lemma duplicate_properties_only_inline_witness :
  ∃ sch, ("A", sch) ∈ Definitions (Spec twoDuplicatesDoc)
         ∧ length (AllOf sch) ≠ 0%nat
         ∧ firstRef sch = None
         ∧ ["A.id"] = ((λ x, "A" +:+ "." +:+ x) <$> repeated [] (leafProperties sch))
         ∧ ["A.id"] ≠ [].
Proof.
  apply (duplicate_properties_only_inline resolveDefinitions 3 twoDuplicatesDoc
           (mkResult [duplicateProperties "A" ["A.id"]; duplicateProperties "B" ["B.tag"]])).
  - vm_compute. reflexivity.
  - simpl. left.
Defined.

Lemma validateDuplicatePropertyNames_inline_witness :
  Forall (λ def : string * Schema, firstRef def.2 = None ∧ (allOfDepth def.2 ≤ 2)%nat)
    (Definitions (Spec twoDuplicatesDoc))
  ∧ validateDuplicatePropertyNames resolveDefinitions 2 twoDuplicatesDoc
    = Ok (mkResult [duplicateProperties "A" ["A.id"]; duplicateProperties "B" ["B.tag"]]).
Proof.
  assert (H : Forall (λ def : string * Schema,
                        firstRef def.2 = None ∧ (allOfDepth def.2 ≤ 2)%nat)
                (Definitions (Spec twoDuplicatesDoc))).
  { repeat constructor. }
  split; [exact H|].
  exact (validateDuplicatePropertyNames_inline resolveDefinitions 2 twoDuplicatesDoc H).
Defined.

Lemma validateCircularAncestry_at_most_one_witness :
  validateCircularAncestry resolveDefinitions 2 (Spec nodeDoc) "Node" nodeSchema
    {["#/definitions/Node"]}
  = Ok (["#/definitions/Node"], {["#/definitions/Node"]} ∪ {["#/definitions/Node"]})
  ∧ (length ["#/definitions/Node"] ≤ 1)%nat
  ∧ ({["#/definitions/Node"]} : gset string)
      ⊆ {["#/definitions/Node"]} ∪ {["#/definitions/Node"]}
  ∧ ∀ a, a ∈ ["#/definitions/Node"]
         → a ∈ ({["#/definitions/Node"]} ∪ {["#/definitions/Node"]} : gset string).
Proof.
  assert (H : validateCircularAncestry resolveDefinitions 2 (Spec nodeDoc) "Node" nodeSchema
                {["#/definitions/Node"]}
              = Ok (["#/definitions/Node"],
                    {["#/definitions/Node"]} ∪ {["#/definitions/Node"]})).
  { rewrite validateCircularAncestry_spec; [reflexivity| |simpl; lia].
    by intros ?%elem_of_singleton. }
  split; [exact H|].
  exact (validateCircularAncestry_at_most_one resolveDefinitions (Spec nodeDoc) 2 "Node"
           nodeSchema _ _ _ H).
Defined.

(** ** Required properties: the decision and the ways to fail *)

Section RequiredMore.

Variable Regexp : Type.
Variable regexp_Compile : string → option Regexp.
Variable MatchString : Regexp → string → bool.

Lemma declarableb_additional (v : Schema) :
  match AdditionalProperties v with
  | Some ap => Allows ap || bool_decide (is_Some (sobSchema ap))
  | None => false
  end = true
  ↔ ∃ ap, AdditionalProperties v = Some ap ∧ (Allows ap = true ∨ is_Some (sobSchema ap)).
Proof.
  destruct (AdditionalProperties v) as [ap|].
  - rewrite orb_true_iff, bool_decide_eq_true. split.
    + intros H. by exists ap.
    + by intros (ap' & [= <-] & H).
  - split; [done|]. by intros (ap' & ? & _).
Qed.

Lemma declarableb_declarable (v : Schema) (pn : string) :
  declarableb Regexp regexp_Compile MatchString v pn = true
  ↔ declarable Regexp regexp_Compile MatchString v pn.
Proof.
  unfold declarableb, declarable.
  rewrite !orb_true_iff, bool_decide_eq_true, existsb_exists, declarableb_additional.
  split.
  - intros [[?|(pp & Hin & Hm)]|?]; [by left| |right; by right].
    right. left. destruct (regexp_Compile pp) as [re|] eqn:Hre; [|done].
    exists pp, re. split; [by apply list_elem_of_In|done].
  - intros [?|[(pp & re & Hin & Hre & Hm)|?]]; [left; by left| |by right].
    left. right. exists pp. rewrite Hre. split; [by apply list_elem_of_In|done].
Qed.

Lemma validateRequired_names_list (d : string) (v : Schema) (pns : list string)
    (res : Result) :
  patternsCompile Regexp regexp_Compile v →
  validateRequired_names Regexp regexp_Compile MatchString d v pns res
  = Ok (AddErrors res
          ((λ pn, requiredNotDefined pn d)
             <$> filter (λ pn, declarableb Regexp regexp_Compile MatchString v pn = false)
                   pns)).
Proof.
  intros Hc. revert res. induction pns as [|pn pns IH]; intros res; simpl.
  - by rewrite AddErrors_nil.
  - rewrite filter_cons.
    destruct (validateRequired_name_spec Regexp regexp_Compile MatchString d v pn res Hc)
      as [[Hd ->]|[Hd ->]]; simpl.
    + apply declarableb_declarable in Hd. rewrite decide_False by by rewrite Hd.
      apply IH.
    + rewrite decide_True.
      * rewrite IH, AddErrors_AddErrors. done.
      * apply not_true_is_false. by rewrite declarableb_declarable.
Qed.

Lemma validateRequiredDefinitions_loop_list (defs : list (string * Schema)) (res : Result) :
  Forall (λ def : string * Schema, patternsCompile Regexp regexp_Compile def.2) defs →
  validateRequiredDefinitions_loop Regexp regexp_Compile MatchString defs res
  = Ok (AddErrors res
          (flat_map (λ def : string * Schema,
                       (λ pn, requiredNotDefined pn def.1)
                         <$> filter (λ pn, declarableb Regexp regexp_Compile MatchString
                                             def.2 pn = false)
                               (Required def.2))
                    defs)).
Proof.
  intros Hc. revert res. induction Hc as [|[d v] defs Hv _ IH]; intros res; simpl.
  - by rewrite AddErrors_nil.
  - rewrite validateRequired_names_list by done. simpl.
    by rewrite IH, AddErrors_AddErrors.
Qed.

(** X12.  When every key of [patternProperties] of every definition is a
    regular expression, [validateRequiredDefinitions] returns, and its
    errors are, in the order of the definitions and of each [required]
    list, one "is present in required but not defined as property" error
    for each entry of a [required] list that is not declarable: neither a
    property, nor matched by a pattern, nor allowed by
    [additionalProperties] (the form [true], or a schema).  A name listed
    twice in [required] is reported twice. *)
Theorem validateRequiredDefinitions_declarable (doc : Document) :
  Forall (λ def : string * Schema, patternsCompile Regexp regexp_Compile def.2)
         (Definitions (Spec doc)) →
  (∀ v pn, declarableb Regexp regexp_Compile MatchString v pn = false
           ↔ ¬ declarable Regexp regexp_Compile MatchString v pn)
  ∧ validateRequiredDefinitions Regexp regexp_Compile MatchString doc
    = Ok (mkResult
            (flat_map (λ def : string * Schema,
                         (λ pn, requiredNotDefined pn def.1)
                           <$> filter (λ pn, declarableb Regexp regexp_Compile MatchString
                                               def.2 pn = false)
                                 (Required def.2))
                      (Definitions (Spec doc)))).
Proof.
  intros Hc. split.
  - intros v pn. rewrite <- declarableb_declarable.
    destruct (declarableb _ _ _ v pn); split; done.
  - unfold validateRequiredDefinitions.
    by rewrite validateRequiredDefinitions_loop_list.
Qed.

Lemma validateRequired_patterns_outcome (pps : list (string * Schema)) (pn : string) :
  match validateRequired_patterns Regexp regexp_Compile MatchString pps pn with
  | Ok _ => True
  | Panicked p => ∃ pp, pp ∈ pps.*1 ∧ regexp_Compile pp = None ∧ p = RegexpMustCompile pp
  | OutOfFuel => False
  end.
Proof.
  induction pps as [|[pp sch] pps IH]; simpl; [done|].
  destruct (regexp_Compile pp) as [re|] eqn:Hre.
  - destruct (MatchString re pn); [done|].
    destruct (validateRequired_patterns _ _ _ pps pn) as [b|p|]; [done| |done].
    destruct IH as (pp' & Hin & ? & ?). exists pp'. split; [by right|done].
  - exists pp. split; [by left|done].
Qed.

Lemma validateRequired_name_outcome (d : string) (v : Schema) (pn : string)
    (res : Result) :
  match validateRequired_name Regexp regexp_Compile MatchString d v pn res with
  | Ok r => pn ∈ (Properties v).*1 → r = res
  | Panicked p =>
      ¬ (pn ∈ (Properties v).*1)
      ∧ ∃ pp, pp ∈ (PatternProperties v).*1 ∧ regexp_Compile pp = None
              ∧ p = RegexpMustCompile pp
  | OutOfFuel => False
  end.
Proof.
  unfold validateRequired_name.
  destruct (decide (pn ∈ (Properties v).*1)) as [Hp|Hp]; [done|].
  pose proof (validateRequired_patterns_outcome (PatternProperties v) pn) as Hpat.
  destruct (validateRequired_patterns _ _ _ _ pn) as [b|p|]; simpl; [|done..].
  destruct b; [done|].
  destruct (AdditionalProperties v) as [ap|]; [|done].
  destruct (Allows ap); [done|]. by destruct (decide (is_Some (sobSchema ap))).
Qed.

Lemma validateRequired_names_outcome (d : string) (v : Schema) (pns : list string)
    (res : Result) :
  match validateRequired_names Regexp regexp_Compile MatchString d v pns res with
  | Ok r => (∀ pn, pn ∈ pns → pn ∈ (Properties v).*1) → r = res
  | Panicked p =>
      ∃ pn pp, pn ∈ pns ∧ ¬ (pn ∈ (Properties v).*1)
               ∧ pp ∈ (PatternProperties v).*1 ∧ regexp_Compile pp = None
               ∧ p = RegexpMustCompile pp
  | OutOfFuel => False
  end.
Proof.
  revert res. induction pns as [|pn pns IH]; intros res; simpl; [done|].
  pose proof (validateRequired_name_outcome d v pn res) as Hn.
  destruct (validateRequired_name _ _ _ d v pn res) as [r|p|]; simpl; [| |done].
  - specialize (IH r).
    destruct (validateRequired_names _ _ _ d v pns r) as [r'|p|]; [| |done].
    + intros Hall. rewrite IH, Hn; [done|apply Hall; left|].
      intros pn' Hin. apply Hall. by right.
    + destruct IH as (pn' & pp & Hin & ?). exists pn', pp. split; [by right|done].
  - destruct Hn as (Hp & pp & ?). exists pn, pp. split; [by left|done].
Qed.

Lemma validateRequiredDefinitions_loop_outcome (defs : list (string * Schema))
    (res : Result) :
  match validateRequiredDefinitions_loop Regexp regexp_Compile MatchString defs res with
  | Ok r => (∀ d v pn, (d, v) ∈ defs → pn ∈ Required v → pn ∈ (Properties v).*1)
            → r = res
  | Panicked p =>
      ∃ d v pn pp, (d, v) ∈ defs ∧ pn ∈ Required v ∧ ¬ (pn ∈ (Properties v).*1)
                   ∧ pp ∈ (PatternProperties v).*1 ∧ regexp_Compile pp = None
                   ∧ p = RegexpMustCompile pp
  | OutOfFuel => False
  end.
Proof.
  revert res. induction defs as [|[d v] defs IH]; intros res; simpl; [done|].
  pose proof (validateRequired_names_outcome d v (Required v) res) as Hn.
  destruct (validateRequired_names _ _ _ d v (Required v) res) as [r|p|]; simpl; [| |done].
  - specialize (IH r).
    destruct (validateRequiredDefinitions_loop _ _ _ defs r) as [r'|p|]; [| |done].
    + intros Hall. rewrite IH, Hn; [done| |].
      * intros pn Hin. apply (Hall d v); [left|done].
      * intros d' v' pn Hin Hreq. apply (Hall d' v'); [by right|done].
    + destruct IH as (d' & v' & pn & pp & Hin & ?). exists d', v', pn, pp.
      split; [by right|done].
  - destruct Hn as (pn & pp & ?). exists d, v, pn, pp. split; [by left|done].
Qed.

(** X13.  [validateRequiredDefinitions] fails in one way only: the panic of
    [regexp.MustCompile] on a key of [patternProperties] that is no regular
    expression, in a definition with a required name that is not among its
    properties.  When every required name of every definition is among its
    properties it returns without an error, whatever the patterns are: no
    pattern is compiled. *)
Theorem validateRequiredDefinitions_failure (doc : Document) :
  validateRequiredDefinitions Regexp regexp_Compile MatchString doc ≠ OutOfFuel
  ∧ (∀ p, validateRequiredDefinitions Regexp regexp_Compile MatchString doc = Panicked p →
       ∃ d v pn pp, (d, v) ∈ Definitions (Spec doc) ∧ pn ∈ Required v
                    ∧ ¬ (pn ∈ (Properties v).*1)
                    ∧ pp ∈ (PatternProperties v).*1 ∧ regexp_Compile pp = None
                    ∧ p = RegexpMustCompile pp)
  ∧ ((∀ d v pn, (d, v) ∈ Definitions (Spec doc) → pn ∈ Required v →
                pn ∈ (Properties v).*1) →
     validateRequiredDefinitions Regexp regexp_Compile MatchString doc = Ok new_Result).
Proof.
  unfold validateRequiredDefinitions.
  pose proof (validateRequiredDefinitions_loop_outcome (Definitions (Spec doc)) new_Result)
    as H.
  destruct (validateRequiredDefinitions_loop _ _ _ _ _) as [r|p|]; [| |done].
  - split; [done|]. split; [done|]. intros Hall. by rewrite H.
  - split; [done|]. split; [by intros ? [= <-]|].
    intros Hall. destruct H as (d & v & pn & pp & Hin & Hreq & Hnp & _).
    destruct Hnp. by apply (Hall d v).
Qed.

End RequiredMore.

Lemma validateRequiredDefinitions_declarable_witness :
  Forall (λ def : string * Schema, patternsCompile string literal_Compile def.2)
    (Definitions (Spec patternedDoc))
  ∧ validateRequiredDefinitions string literal_Compile literal_MatchString patternedDoc
    = Ok (mkResult [requiredNotDefined "zip" "Thing"; requiredNotDefined "zip" "Thing"]).
Proof.
  assert (H : Forall (λ def : string * Schema, patternsCompile string literal_Compile def.2)
                (Definitions (Spec patternedDoc))).
  { repeat constructor. by eexists. }
  split; [exact H|].
  exact (proj2 (validateRequiredDefinitions_declarable string literal_Compile
                  literal_MatchString patternedDoc H)).
Defined.

Lemma validateRequiredDefinitions_failure_witness :
  validateRequiredDefinitions string literal_Compile literal_MatchString declaredDoc
  = Ok new_Result.
Proof.
  apply (validateRequiredDefinitions_failure string literal_Compile literal_MatchString
           declaredDoc).
  intros d v pn Hin Hreq. apply list_elem_of_singleton in Hin. injection Hin as -> ->.
  apply list_elem_of_singleton in Hreq as ->. simpl. left.
Defined.

(** ** Arrays without an element type: failure and composition *)

Section ItemsMore.

Variable TypeName : SimpleSchema → string.

Lemma validateItems_param_outcome (opID : string) (param : Parameter_) (res : Result) :
  match validateItems_param TypeName opID param res with
  | Ok _ => ¬ bodyWithoutSchema TypeName param
  | Panicked p => p = NilDereference ∧ bodyWithoutSchema TypeName param
  | OutOfFuel => False
  end.
Proof.
  unfold validateItems_param, bodyWithoutSchema.
  destruct (decide (TypeName (pSimple param) = "array" ∧ _)) as [Htop|Htop].
  { by intros (_ & _ & ?). }
  destruct (decide (pIn param ≠ "body")) as [Hin|Hin].
  - destruct (ssItems (pSimple param)) as [items|]; [|by intros (? & _)].
    destruct (validateItems_nested_spec TypeName items) as [[_ ->]|[_ ->]]; simpl;
      by intros (? & _).
  - destruct (pSchema param) as [schema|] eqn:Hs.
    + destruct (validateSchemaItems _ _ _); by intros (_ & ? & _).
    + split; [done|]. split_and!; [|done..].
      by destruct (decide (pIn param = "body")); [|destruct Hin].
Qed.

Lemma validateItems_params_outcome (opID : string) (params : list Parameter_)
    (res : Result) :
  match validateItems_params TypeName opID params res with
  | Ok _ => Forall (λ param, ¬ bodyWithoutSchema TypeName param) params
  | Panicked p => p = NilDereference ∧ Exists (bodyWithoutSchema TypeName) params
  | OutOfFuel => False
  end.
Proof.
  revert res. induction params as [|param params IH]; intros res; simpl; [done|].
  pose proof (validateItems_param_outcome opID param res) as Hp.
  destruct (validateItems_param TypeName opID param res) as [r|p|]; simpl; [| |done].
  - specialize (IH r).
    destruct (validateItems_params TypeName opID params r) as [r'|p|]; [| |done].
    + by constructor.
    + destruct IH as [-> ?]. split; [done|]. by right.
  - destruct Hp as [-> ?]. split; [done|]. by left.
Qed.

Lemma validateItems_paths_outcome (doc : Document) (method : string)
    (pi : list (string * Operation)) (res : Result) :
  match validateItems_paths TypeName doc method pi res with
  | Ok _ => ∀ path op param, (path, op) ∈ pi → param ∈ ParamsFor doc method path →
                             ¬ bodyWithoutSchema TypeName param
  | Panicked p =>
      p = NilDereference
      ∧ ∃ path op param, (path, op) ∈ pi ∧ param ∈ ParamsFor doc method path
                         ∧ bodyWithoutSchema TypeName param
  | OutOfFuel => False
  end.
Proof.
  revert res. induction pi as [|[path op] pi IH]; intros res; simpl.
  - by intros ? ? ? ?%elem_of_nil.
  - unfold validateItems_path.
    pose proof (validateItems_params_outcome (ID op) (ParamsFor doc method path) res) as Hp.
    destruct (validateItems_params TypeName (ID op) (ParamsFor doc method path) res)
      as [r|p|]; simpl; [| |done].
    + match goal with |- context [validateItems_paths _ _ _ _ ?r'] => specialize (IH r') end.
      destruct (validateItems_paths TypeName doc method pi _) as [r'|p|]; [| |done].
      * intros path' op' param [[= -> ->]|Hin]%elem_of_cons Hparam.
        -- rewrite Forall_forall in Hp. by apply Hp.
        -- by eapply IH.
      * destruct IH as (-> & path' & op' & param & Hin & ?). split; [done|].
        exists path', op', param. split; [by right|done].
    + destruct Hp as [-> Hex]. split; [done|].
      apply Exists_exists in Hex as (param & Hin & Hb).
      exists path, op, param. split; [by left|done].
Qed.

Lemma validateItems_methods_outcome (doc : Document)
    (ops : list (string * list (string * Operation))) (res : Result) :
  match validateItems_methods TypeName doc ops res with
  | Ok _ => ∀ method pi path op param,
              (method, pi) ∈ ops → (path, op) ∈ pi → param ∈ ParamsFor doc method path →
              ¬ bodyWithoutSchema TypeName param
  | Panicked p =>
      p = NilDereference
      ∧ ∃ method pi path op param,
          (method, pi) ∈ ops ∧ (path, op) ∈ pi ∧ param ∈ ParamsFor doc method path
          ∧ bodyWithoutSchema TypeName param
  | OutOfFuel => False
  end.
Proof.
  revert res. induction ops as [|[method pi] ops IH]; intros res; simpl.
  - by intros ? ? ? ? ? ?%elem_of_nil.
  - pose proof (validateItems_paths_outcome doc method pi res) as Hp.
    destruct (validateItems_paths TypeName doc method pi res) as [r|p|]; simpl; [| |done].
    + specialize (IH r).
      destruct (validateItems_methods TypeName doc ops r) as [r'|p|]; [| |done].
      * intros method' pi' path op param [[= -> ->]|Hin]%elem_of_cons Hpath Hparam.
        -- by eapply Hp.
        -- by eapply IH.
      * destruct IH as (-> & method' & pi' & path & op & param & Hin & ?). split; [done|].
        exists method', pi', path, op, param. split; [by right|done].
    + destruct Hp as (-> & path & op & param & ?). split; [done|].
      exists method, pi, path, op, param. split; [by left|done].
Qed.

(** X14.  [validateItems] fails in one way only, the dereference of the nil
    schema of a body parameter: it panics when the parameters of some
    operation hold one with [in == body] and no schema that the first test
    (type [array] without a type of items) does not catch, and it returns
    otherwise.  The loop over the nested items of a parameter never
    dereferences a nil pointer. *)
Theorem validateItems_nil_schema (doc : Document) :
  let unguarded :=
    ∃ method pi path op param,
      (method, pi) ∈ Operations doc ∧ (path, op) ∈ pi
      ∧ param ∈ ParamsFor doc method path ∧ bodyWithoutSchema TypeName param in
  (unguarded → validateItems TypeName doc = Panicked NilDereference)
  ∧ (¬ unguarded → ∃ res, validateItems TypeName doc = Ok res).
Proof.
  intros unguarded. unfold validateItems.
  pose proof (validateItems_methods_outcome doc (Operations doc) new_Result) as H.
  destruct (validateItems_methods TypeName doc (Operations doc) new_Result) as [r|p|];
    [| |done].
  - split; [|by eexists].
    intros (method & pi & path & op & param & Hm & Hp & Hparam & Hb).
    destruct (H method pi path op param); done.
  - destruct H as [-> Hex]. split; [done|]. intros Hno. by destruct Hno.
Qed.

Lemma validateItems_params_errors (opID : string) (params : list Parameter_)
    (res res' : Result) :
  validateItems_params TypeName opID params res = Ok res' →
  ∀ e, e ∈ Errors res' →
    e ∈ Errors res
    ∨ ∃ param r, param ∈ params
                 ∧ validateItems_param TypeName opID param new_Result = Ok r
                 ∧ e ∈ Errors r.
Proof.
  revert res. induction params as [|param params IH]; intros res; simpl.
  - intros [= <-] e He. by left.
  - rewrite validateItems_param_frame.
    destruct (validateItems_param TypeName opID param new_Result) as [r| |] eqn:Hr;
      simpl; [|done..].
    intros Hrest e He. destruct (IH _ Hrest e He) as [Hold|(param' & r' & Hin & ? & ?)].
    + simpl in Hold. apply elem_of_app in Hold as [?|?]; [by left|].
      right. exists param, r. split; [by left|done].
    + right. exists param', r'. split; [by right|done].
Qed.

Lemma validateItems_responses_errors (opID : string) (resps : list Response)
    (res : Result) :
  ∀ e, e ∈ Errors (foldl (λ res resp, validateItems_response TypeName opID resp res)
                     res resps) →
    e ∈ Errors res
    ∨ ∃ resp, resp ∈ resps
              ∧ e ∈ Errors (validateItems_response TypeName opID resp new_Result).
Proof.
  revert res. induction resps as [|resp resps IH]; intros res e; simpl; [by left|].
  intros He. destruct (IH _ e He) as [Hold|(resp' & Hin & ?)].
  - rewrite validateItems_response_frame in Hold. simpl in Hold.
    apply elem_of_app in Hold as [?|?]; [by left|].
    right. exists resp. split; [by left|done].
  - right. exists resp'. split; [by right|done].
Qed.

Lemma validateItems_paths_errors (doc : Document) (method : string)
    (pi : list (string * Operation)) (res res' : Result) :
  validateItems_paths TypeName doc method pi res = Ok res' →
  ∀ e, e ∈ Errors res' →
    e ∈ Errors res
    ∨ ∃ path op, (path, op) ∈ pi
        ∧ ((∃ param r, param ∈ ParamsFor doc method path
                       ∧ validateItems_param TypeName (ID op) param new_Result = Ok r
                       ∧ e ∈ Errors r)
           ∨ (∃ resp, resp ∈ responsesOf op
                ∧ e ∈ Errors (validateItems_response TypeName (ID op) resp new_Result))).
Proof.
  revert res. induction pi as [|[path op] pi IH]; intros res; simpl.
  - intros [= <-] e He. by left.
  - unfold validateItems_path.
    destruct (validateItems_params TypeName (ID op) (ParamsFor doc method path) res)
      as [res1| |] eqn:H1; simpl; [|done..].
    intros Hrest e He.
    destruct (IH _ Hrest e He) as [Hold|(path' & op' & Hin & ?)].
    + apply validateItems_responses_errors in Hold as [Hold|(resp & ? & ?)].
      * destruct (validateItems_params_errors _ _ _ _ H1 e Hold) as [?|(param & r & ?)];
          [by left|].
        right. exists path, op. split; [by left|]. left. by exists param, r.
      * right. exists path, op. split; [by left|]. right. by exists resp.
    + right. exists path', op'. split; [by right|done].
Qed.

(** X15.  When [validateItems] returns, its errors are exactly those of the
    parameters and of the responses of the operations: every error found
    for a parameter of [ParamsFor(method, path)] or for a response of an
    operation is in the result, and every error of the result is one of
    these. *)
Theorem validateItems_errors (doc : Document) (res : Result) :
  validateItems TypeName doc = Ok res →
  ∀ e, e ∈ Errors res ↔
    ∃ method pi path op,
      (method, pi) ∈ Operations doc ∧ (path, op) ∈ pi
      ∧ ((∃ param r, param ∈ ParamsFor doc method path
                     ∧ validateItems_param TypeName (ID op) param new_Result = Ok r
                     ∧ e ∈ Errors r)
         ∨ (∃ resp, resp ∈ responsesOf op
              ∧ e ∈ Errors (validateItems_response TypeName (ID op) resp new_Result))).
Proof.
  intros Hok e. split.
  - revert Hok. unfold validateItems.
    assert (Hgen : ∀ ops res0,
      validateItems_methods TypeName doc ops res0 = Ok res → e ∈ Errors res →
      e ∈ Errors res0
      ∨ ∃ method pi path op,
          (method, pi) ∈ ops ∧ (path, op) ∈ pi
          ∧ ((∃ param r, param ∈ ParamsFor doc method path
                         ∧ validateItems_param TypeName (ID op) param new_Result = Ok r
                         ∧ e ∈ Errors r)
             ∨ (∃ resp, resp ∈ responsesOf op
                  ∧ e ∈ Errors (validateItems_response TypeName (ID op) resp new_Result)))).
    { induction ops as [|[method pi] ops IH]; intros res0; simpl.
      - intros [= <-] He. by left.
      - destruct (validateItems_paths TypeName doc method pi res0) as [res1| |] eqn:H1;
          simpl; [|done..].
        intros Hrest He.
        destruct (IH _ Hrest He) as [Hold|(method' & pi' & path & op & Hin & ?)].
        + destruct (validateItems_paths_errors _ _ _ _ _ H1 e Hold)
            as [?|(path & op & ? & ?)]; [by left|].
          right. exists method, pi, path, op. split; [by left|done].
        + right. exists method', pi', path, op. split; [by right|done]. }
    intros Hok He. destruct (Hgen _ _ Hok He) as [Hnil|?]; [|done].
    by apply elem_of_nil in Hnil.
  - intros (method & pi & path & op & Hm & Hp & Hfrom).
    destruct (validateItems_within TypeName doc res method path pi op Hok Hm Hp)
      as [Hparams Hresps].
    destruct Hfrom as [(param & r & Hin & Hr & He)|(resp & Hin & He)].
    + by apply (Hparams param r Hin Hr).
    + by apply (Hresps resp Hin).
Qed.

End ItemsMore.

Lemma validateItems_nil_schema_witness :
  (∃ method pi path op param,
     (method, pi) ∈ Operations bodyWithoutSchemaDoc ∧ (path, op) ∈ pi
     ∧ param ∈ ParamsFor bodyWithoutSchemaDoc method path
     ∧ bodyWithoutSchema typeOrFormat param)
  ∧ validateItems typeOrFormat bodyWithoutSchemaDoc = Panicked NilDereference.
Proof.
  assert (H : ∃ method pi path op param,
                (method, pi) ∈ Operations bodyWithoutSchemaDoc ∧ (path, op) ∈ pi
                ∧ param ∈ ParamsFor bodyWithoutSchemaDoc method path
                ∧ bodyWithoutSchema typeOrFormat param).
  { eexists _, _, _, _, _. split; [left|]. split; [left|]. split; [left|].
    split; [done|]. split; [done|]. by intros [? _]. }
  split; [exact H|].
  exact (proj1 (validateItems_nil_schema typeOrFormat bodyWithoutSchemaDoc) H).
Defined.

Lemma validateItems_errors_witness :
  paramWithoutItems "tags" "findPets" ∈ [paramWithoutItems "tags" "findPets"] ↔
    ∃ method pi path op,
      (method, pi) ∈ Operations arrayParamDoc ∧ (path, op) ∈ pi
      ∧ ((∃ param r, param ∈ ParamsFor arrayParamDoc method path
                     ∧ validateItems_param typeOrFormat (ID op) param new_Result = Ok r
                     ∧ paramWithoutItems "tags" "findPets" ∈ Errors r)
         ∨ (∃ resp, resp ∈ responsesOf op
              ∧ paramWithoutItems "tags" "findPets"
                  ∈ Errors (validateItems_response typeOrFormat (ID op) resp new_Result))).
Proof.
  assert (H : validateItems typeOrFormat arrayParamDoc
              = Ok (mkResult [paramWithoutItems "tags" "findPets"])).
  { vm_compute. reflexivity. }
  exact (validateItems_errors typeOrFormat arrayParamDoc
           (mkResult [paramWithoutItems "tags" "findPets"]) H
           (paramWithoutItems "tags" "findPets")).
Defined.

(** ** The driver: warnings and the order of the phases *)

Section ValidateMore.

Variable ResolveRef : Swagger → string → string + Schema.
Variable PointerGet : string → Swagger → string + Parameter_.
Variable Regexp : Type.
Variable regexp_Compile : string → option Regexp.
Variable MatchString : Regexp → string → bool.
Variable TypeName : SimpleSchema → string.
Variable JSON : Type.
Variable json_Unmarshal : string → string + JSON.
Variable schv_Validate : JSON → option Result.
Variable Expanded : Document → string + Document.
Variable validateDefaultValueValidAgainstSchema : Document → Res Result.
Variable validateExamplesValidAgainstSchema : Document → Res Result.

(** X16.  [Validate] never returns a warning.  Handed a nil document or a
    value of another type, it returns the one error "spec validator can only
    validate spec.Document objects" (code 500) and nil for the warnings,
    with any budget.  Handed a document, whenever it returns, the warnings
    are the empty Result: the three hooks for warnings return nil. *)
Theorem Validate_never_warns (fuel : nat) :
  let Validate :=
    Validate ResolveRef PointerGet Regexp regexp_Compile MatchString TypeName
      JSON json_Unmarshal schv_Validate Expanded
      validateDefaultValueValidAgainstSchema validateExamplesValidAgainstSchema in
  let notADocument :=
    sErr (errors_New 500 "spec validator can only validate spec.Document objects" []) in
  Validate fuel (DocumentPtr None) = Ok (notADocument, None)
  ∧ Validate fuel OtherData = Ok (notADocument, None)
  ∧ ∀ sd errs warnings,
      Validate fuel (DocumentPtr (Some sd)) = Ok (errs, warnings) →
      warnings = Some new_Result.
Proof.
  intros V notADocument. split; [done|]. split; [done|].
  intros sd errs warnings. unfold V. simpl.
  destruct (json_Unmarshal (Raw sd)) as [err|obj]; [by intros [= _ <-]|].
  destruct (HasErrors _); [by intros [= _ <-]|].
  destruct (HasErrors _); [by intros [= _ <-]|].
  destruct (validateDuplicatePropertyNames _ _ _) as [r1| |]; simpl; [|done..].
  destruct (validateItems _ _) as [r2| |]; simpl; [|done..].
  destruct (validateRequiredDefinitions _ _ _ _) as [r3| |]; simpl; [|done..].
  destruct (validateDefaultValueValidAgainstSchema sd) as [r4| |]; simpl; [|done..].
  destruct (validateExamplesValidAgainstSchema sd) as [r5| |]; simpl; [|done..].
  by intros [= _ <-].
Qed.

(** X17.  On a document that decodes, passes the meta-schema and whose
    references expand, when each of the later checks returns, [Validate]
    returns their errors one check after the other, in the order: duplicate
    operation ids, duplicate property names, parameters, items, required
    definitions, default values, examples. *)
Theorem Validate_phase_order (fuel : nat) (sd : Document) (obj : JSON) (exp : Document)
    (properties items required defaults examples : Result) :
  json_Unmarshal (Raw sd) = inr obj →
  conforms JSON schv_Validate obj →
  Expanded sd = inr exp →
  validateDuplicatePropertyNames ResolveRef fuel sd = Ok properties →
  validateItems TypeName sd = Ok items →
  validateRequiredDefinitions Regexp regexp_Compile MatchString sd = Ok required →
  validateDefaultValueValidAgainstSchema sd = Ok defaults →
  validateExamplesValidAgainstSchema sd = Ok examples →
  Validate ResolveRef PointerGet Regexp regexp_Compile MatchString TypeName
    JSON json_Unmarshal schv_Validate Expanded
    validateDefaultValueValidAgainstSchema validateExamplesValidAgainstSchema
    fuel (DocumentPtr (Some sd))
  = Ok (mkResult (Errors (validateDuplicateOperationIDs sd)
                  ++ Errors properties
                  ++ Errors (validateParameters PointerGet sd)
                  ++ Errors items ++ Errors required
                  ++ Errors defaults ++ Errors examples),
        Some new_Result).
Proof.
  intros Hraw Hconf Hexp Hp Hi Hr Hd He. unfold Validate. rewrite Hraw.
  rewrite conforms_no_errors by done. simpl.
  unfold validateReferencesValid. rewrite Hexp. simpl.
  rewrite Hp. simpl. rewrite Hi. simpl. rewrite Hr. simpl. rewrite Hd. simpl.
  rewrite He. simpl. do 2 f_equal. apply Result_eq. simpl.
  by rewrite <- !app_assoc.
Qed.

End ValidateMore.

Lemma Validate_never_warns_witness :
  exampleValidate 0 (DocumentPtr None)
  = Ok (sErr (errors_New 500 "spec validator can only validate spec.Document objects" []),
        None)
  ∧ exampleValidate 0 OtherData
    = Ok (sErr (errors_New 500 "spec validator can only validate spec.Document objects" []),
          None)
  ∧ exampleValidate 2 (DocumentPtr (Some severalFindingsDoc))
    = Ok (mkResult [duplicateOperationID "findPets" 2;
                    duplicateProperties "A" ["A.id"];
                    duplicateProperties "B" ["B.tag"];
                    paramWithoutItems "tags" "findPets"],
          Some new_Result)
  ∧ Some new_Result = Some new_Result.
Proof.
  pose proof (Validate_never_warns resolveDefinitions noSharedParameters string
                literal_Compile literal_MatchString typeOrFormat string exampleUnmarshal
                exampleMetaSchema (λ doc, inr doc) (λ _, Ok new_Result) (λ _, Ok new_Result))
    as H.
  assert (Hdoc : exampleValidate 2 (DocumentPtr (Some severalFindingsDoc))
                 = Ok (mkResult [duplicateOperationID "findPets" 2;
                                 duplicateProperties "A" ["A.id"];
                                 duplicateProperties "B" ["B.tag"];
                                 paramWithoutItems "tags" "findPets"],
                       Some new_Result)).
  { vm_compute. reflexivity. }
  split; [exact (proj1 (H 0%nat))|]. split; [exact (proj1 (proj2 (H 0%nat)))|].
  split; [exact Hdoc|].
  exact (proj2 (proj2 (H 2%nat)) severalFindingsDoc _ _ Hdoc).
Defined.

Lemma Validate_phase_order_witness :
  exampleValidate 2 (DocumentPtr (Some severalFindingsDoc))
  = Ok (mkResult [duplicateOperationID "findPets" 2;
                  duplicateProperties "A" ["A.id"];
                  duplicateProperties "B" ["B.tag"];
                  paramWithoutItems "tags" "findPets"],
        Some new_Result).
Proof.
  refine (Validate_phase_order resolveDefinitions noSharedParameters string literal_Compile
            literal_MatchString typeOrFormat string exampleUnmarshal exampleMetaSchema
            (λ doc, inr doc) (λ _, Ok new_Result) (λ _, Ok new_Result)
            2 severalFindingsDoc "{swagger: 2.0}" severalFindingsDoc
            (mkResult [duplicateProperties "A" ["A.id"]; duplicateProperties "B" ["B.tag"]])
            (mkResult [paramWithoutItems "tags" "findPets"])
            new_Result new_Result new_Result _ _ _ _ _ _ _ _).
  - reflexivity.
  - right. eexists. split; reflexivity.
  - reflexivity.
  - vm_compute. reflexivity.
  - vm_compute. reflexivity.
  - vm_compute. reflexivity.
  - reflexivity.
  - reflexivity.
Defined.

(** ** Examples of responses: operations without responses *)

Section ExamplesProofs.

Variable validateResponseExample : string → Response → Res Result.

Hypothesis validateResponseExample_returns :
  ∀ path r, ∃ res, validateResponseExample path r = Ok res.

Lemma validateExamples_statusCodes_returns (path : string) (rs : list (Z * Response))
    (res : Result) :
  ∃ res', validateExamples_statusCodes validateResponseExample path rs res = Ok res'.
Proof.
  revert res. induction rs as [|[code r] rs IH]; intros res; simpl; [by eexists|].
  destruct (validateResponseExample_returns path r) as [found ->]. simpl. apply IH.
Qed.

Lemma validateExamples_path_outcome (path : string) (op : Operation) (res : Result) :
  match opResponses op with
  | None => validateExamples_path validateResponseExample path op res
            = Panicked NilDereference
  | Some _ => ∃ res', validateExamples_path validateResponseExample path op res = Ok res'
  end.
Proof.
  unfold validateExamples_path. destruct (opResponses op) as [responses|]; [|done].
  destruct (Default responses) as [dr|]; simpl.
  - destruct (validateResponseExample_returns path dr) as [found ->]. simpl.
    apply validateExamples_statusCodes_returns.
  - apply validateExamples_statusCodes_returns.
Qed.

Lemma validateExamples_paths_outcome (pathItem : list (string * Operation))
    (res : Result) :
  (Exists (λ po : string * Operation, opResponses po.2 = None) pathItem
   ∧ validateExamples_paths validateResponseExample pathItem res
     = Panicked NilDereference)
  ∨ (Forall (λ po : string * Operation, is_Some (opResponses po.2)) pathItem
     ∧ ∃ res', validateExamples_paths validateResponseExample pathItem res = Ok res').
Proof.
  revert res. induction pathItem as [|[path op] pathItem IH]; intros res; simpl.
  - right. split; [done|by eexists].
  - pose proof (validateExamples_path_outcome path op res) as Hp.
    destruct (opResponses op) as [responses|] eqn:Hr.
    + destruct Hp as [res1 ->]. simpl.
      destruct (IH res1) as [[Hex ->]|[Hall Hok]].
      * left. split; [by right|done].
      * right. split; [|done]. constructor; [simpl; by rewrite Hr|done].
    + rewrite Hp. left. split; [by left|done].
Qed.

Lemma validateExamples_methods_outcome
    (ops : list (string * list (string * Operation))) (res : Result) :
  (Exists (λ mp : string * list (string * Operation),
             Exists (λ po : string * Operation, opResponses po.2 = None) mp.2) ops
   ∧ validateExamples_methods validateResponseExample ops res = Panicked NilDereference)
  ∨ (Forall (λ mp : string * list (string * Operation),
               Forall (λ po : string * Operation, is_Some (opResponses po.2)) mp.2) ops
     ∧ ∃ res', validateExamples_methods validateResponseExample ops res = Ok res').
Proof.
  revert res. induction ops as [|[method pathItem] ops IH]; intros res; simpl.
  - right. split; [done|by eexists].
  - destruct (validateExamples_paths_outcome pathItem res) as [[Hex ->]|[Hall [res1 ->]]].
    + left. split; [by left|done].
    + simpl. destruct (IH res1) as [[Hex ->]|[Hall' Hok]].
      * left. split; [by right|done].
      * right. split; [by constructor|done].
Qed.

(** X18.  [validateExamplesValidAgainstSchema] reads [op.Responses.Default]
    without the test for nil that [validateItems] makes.  With a check of
    one response that always returns, it panics on a nil dereference when
    some operation of the document has no responses, and returns when every
    operation has responses. *)
Theorem validateExamples_nil_responses (doc : Document) :
  ((∃ method pathItem path op,
      (method, pathItem) ∈ Operations doc ∧ (path, op) ∈ pathItem
      ∧ opResponses op = None) →
   validateExamplesValidAgainstSchema validateResponseExample doc
   = Panicked NilDereference)
  ∧ ((∀ method pathItem path op,
        (method, pathItem) ∈ Operations doc → (path, op) ∈ pathItem →
        is_Some (opResponses op)) →
     ∃ res, validateExamplesValidAgainstSchema validateResponseExample doc = Ok res).
Proof.
  unfold validateExamplesValidAgainstSchema.
  destruct (validateExamples_methods_outcome (Operations doc) new_Result)
    as [[Hex Hpanic]|[Hall Hok]].
  - split; [done|]. intros Hsome.
    apply Exists_exists in Hex as ([method pathItem] & Hm & Hex).
    apply Exists_exists in Hex as ([path op] & Hp & Hnone). simpl in *.
    destruct (Hsome method pathItem path op Hm Hp) as [? Hr]. congruence.
  - split; [|done]. intros (method & pathItem & path & op & Hm & Hp & Hnone).
    rewrite Forall_forall in Hall. specialize (Hall _ Hm). simpl in Hall.
    rewrite Forall_forall in Hall. destruct (Hall _ Hp) as [? Hr]. simpl in Hr. congruence.
Qed.

End ExamplesProofs.

Lemma validateExamples_nil_responses_witness :
  (∀ path r, ∃ res, (λ (_ : string) (_ : Response), Ok new_Result) path r = Ok res)
  ∧ (∃ method pathItem path op,
       (method, pathItem) ∈ Operations noResponsesDoc ∧ (path, op) ∈ pathItem
       ∧ opResponses op = None)
  ∧ validateExamplesValidAgainstSchema (λ _ _, Ok new_Result) noResponsesDoc
    = Panicked NilDereference
  ∧ validateItems typeOrFormat noResponsesDoc = Ok new_Result.
Proof.
  assert (H1 : ∀ path r, ∃ res,
                 (λ (_ : string) (_ : Response), Ok new_Result) path r = Ok res).
  { intros path r. by eexists. }
  assert (H2 : ∃ method pathItem path op,
                 (method, pathItem) ∈ Operations noResponsesDoc ∧ (path, op) ∈ pathItem
                 ∧ opResponses op = None).
  { eexists _, _, _, _. split; [left|]. split; [left|done]. }
  split; [exact H1|]. split; [exact H2|]. split; [|reflexivity].
  exact (proj1 (validateExamples_nil_responses (λ _ _, Ok new_Result) H1 noResponsesDoc) H2).
Defined.
